(** * HTMLTextBlocksTree: a shallow embedding of [htmlparser.py]

    The tree is an arena of nodes addressed by index ([self] is a Python
    list of [Node] objects).  Children and parents are indices into the
    arena; unlinking removes an index from the parent's [child_indices]
    and leaves the node in the arena. *)

From Stdlib Require Import String Ascii ZArith List Lia Permutation.
From stdpp Require Import base tactics option list gmap strings sorting.

Local Open Scope string_scope.
Local Open Scope list_scope.
Local Open Scope nat_scope.

(** ** Outcomes of a Python call *)

(** The exceptions the modelled code can raise. *)
Inductive exn : Type :=
  | IndexError          (* [self[i]] with [i] outside the arena *)
  | ValueError          (* [list.remove(x)] / [list.index(x)] with [x] absent *)
  | ZeroDivisionError.  (* [float(a) / 0] *)

(** A call returns a value, raises, or exhausts the recursion budget (the
    interpreter's recursion limit; [fuel] in the recursive definitions). *)
Inductive result (A : Type) : Type :=
  | Ok (a : A)
  | Raise (e : exn)
  | OutOfFuel.
Arguments Ok {A} a.
Arguments Raise {A} e.
Arguments OutOfFuel {A}.

Global Instance result_ret : MRet result := @Ok.
Global Instance result_bind : MBind result := λ A B f m,
  match m with
  | Ok a => f a
  | Raise e => Raise e
  | OutOfFuel => OutOfFuel
  end.

(** ** Data model *)

(** [MarkZone]: an inline element covering part of a text node. [length] is
    [-1] while the zone is still open. *)
Module MarkZone.
Record t : Type := mk {
  start : Z;
  length : Z;
  tag : string;
  style_classes : list string;
  link : string
}.
Definition set_start (v : Z) (z : t) : t :=
  mk v (length z) (tag z) (style_classes z) (link z).
Definition set_length (v : Z) (z : t) : t :=
  mk (start z) v (tag z) (style_classes z) (link z).
End MarkZone.

(** Mark zones are objects mutated in place and shared between lists, so a
    list of zones is a list of references into a store of zone objects. *)
Abbreviation zref := (nat).
Abbreviation ZoneStore := (list MarkZone.t).

(** [Node]: one element of the arena. [parent_index] is [-1] for the root. *)
Module Node.
Record t : Type := mk {
  parent_index : Z;
  tag : string;
  style_classes : list string;
  child_indices : list nat;
  text : string;
  mark_zones : list zref;
  text_nodes_count : nat
}.
Definition set_child_indices (v : list nat) (n : t) : t :=
  mk (parent_index n) (tag n) (style_classes n) v (text n) (mark_zones n)
     (text_nodes_count n).
Definition set_text_nodes_count (v : nat) (n : t) : t :=
  mk (parent_index n) (tag n) (style_classes n) (child_indices n) (text n)
     (mark_zones n) v.
End Node.

(** The arena: [self] in the source. *)
Abbreviation Tree := (list Node.t).

(** ** Python list primitives *)

(** Truth value of a string: non-empty. *)
Definition truthy (s : string) : bool :=
  match s with EmptyString => false | _ => true end.

(** [self[i]] for an index that is a natural number. *)
Definition getitem {A} (l : list A) (i : nat) : result A :=
  match l !! i with
  | Some x => Ok x
  | None => Raise IndexError
  end.

(** [self[i]] for a Python integer: a negative index counts from the end. *)
Definition getitemZ {A} (l : list A) (i : Z) : result A :=
  if (0 <=? i)%Z then getitem l (Z.to_nat i)
  else if (0 <=? Z.of_nat (length l) + i)%Z
       then getitem l (Z.to_nat (Z.of_nat (length l) + i))
       else Raise IndexError.

(** [l.index(x)]: position of the first occurrence. *)
Fixpoint index_of (x : nat) (l : list nat) : result nat :=
  match l with
  | [] => Raise ValueError
  | y :: l' => if decide (y = x) then Ok 0
               else p ← index_of x l'; Ok (S p)
  end.

(** [l.remove(x)]: delete the first occurrence. *)
Fixpoint remove_first (x : nat) (l : list nat) : result (list nat) :=
  match l with
  | [] => Raise ValueError
  | y :: l' => if decide (y = x) then Ok l'
               else r ← remove_first x l'; Ok (y :: r)
  end.

(** [x in l]. *)
Definition contains (x : nat) (l : list nat) : bool := bool_decide (x ∈ l).

(** [self[p].child_indices.remove(i)]: the node object is mutated in place. *)
Definition unlink (self : Tree) (p : Z) (i : nat) : result Tree :=
  parent ← getitemZ self p;
  children ← remove_first i (Node.child_indices parent);
  Ok (<[Z.to_nat (if (0 <=? p)%Z then p else (Z.of_nat (length self) + p)%Z)
        := Node.set_child_indices children parent]> self).

(** ** The tag-match predicate: [__check_tag_match] *)

Definition check_tag_match (first_node second_node : Node.t) : bool :=
  if negb (bool_decide (Node.tag first_node = Node.tag second_node)) then false
  else if length (Node.style_classes first_node)
          + length (Node.style_classes second_node) <? 2 then true
  else negb (bool_decide
    ((list_to_set (Node.style_classes first_node) : gset string)
       ∩ list_to_set (Node.style_classes second_node) = ∅)).

(** ** Loops *)

(** How the body of a loop ends. *)
Inductive control (S : Type) : Type :=
  | Next (s : S)
  | Break (s : S).
Arguments Next {S} s.
Arguments Break {S} s.

Section Loops.
Context {S X : Type}.

(** A [for] loop whose body may raise: the state is threaded through the
    iterations in order and the first exception ends the loop. *)
Fixpoint for_each (body : S → X → result S) (xs : list X) (s : S)
    : result S :=
  match xs with
  | [] => Ok s
  | x :: xs' => s' ← body s x; for_each body xs' s'
  end.

(** A loop that can be left early: [continue] and normal completion of
    the body give [Next], [break] (or a [return] from inside) gives
    [Break]. *)
Variable body : S → X → result (control S).

Fixpoint for_break (xs : list X) (s : S) : result S :=
  match xs with
  | [] => Ok s
  | x :: xs' =>
    c ← body s x;
    match c with
    | Next s' => for_break xs' s'
    | Break s' => Ok s'
    end
  end.
End Loops.

(** [xrange(a, b)]. *)
Definition xrange (a b : nat) : list nat := seq a (b - a).

(** ** The structural matcher: [__check_matching] *)

(** The matcher's output: [(node_index, texts_matched)] pairs. *)
Abbreviation Matching := (list (nat * nat)).

(** State of the scan over the other node's children:
    [(best_match_pos, best_matched, best_matching)]. *)
Abbreviation Best := (Z * nat * Matching)%type.

(** Body of the inner loop (source lines 364-373); [rec] is the recursive
    call [self.__check_matching(tree, _, _)]. *)
Definition scan_candidate (rec : nat → nat → result (nat * Matching))
    (tree : Tree) (self_child : Node.t) (child_index : nat)
    (tree_childs : list nat) (best : Best) (tree_childs_pos : nat)
    : result Best :=
  let '(best_match_pos, best_matched, best_matching) := best in
  tree_child_index ← getitem tree_childs tree_childs_pos;
  tree_child ← getitem tree tree_child_index;
  if check_tag_match self_child tree_child then
    '(matched, matching) ← rec child_index tree_child_index;
    if best_matched <? matched
    then Ok (Z.of_nat tree_childs_pos, matched, matching)
    else Ok best
  else Ok best.

(** State of the loop over the node's own children:
    [(start_pos, total_matched, sub_tree_matching)]. *)
Abbreviation Scan := (nat * nat * Matching)%type.

(** Body of the outer loop (source lines 359-377). *)
Definition match_child (rec : nat → nat → result (nat * Matching))
    (self tree : Tree) (tree_childs : list nat) (st : Scan) (child_index : nat)
    : result Scan :=
  let '(start_pos, total_matched, sub_tree_matching) := st in
  self_child ← getitem self child_index;
  '(best_match_pos, best_matched, best_matching) ←
    for_each (scan_candidate rec tree self_child child_index tree_childs)
             (xrange start_pos (length tree_childs))
             ((-1)%Z, 0, []);
  if (-1 <? best_match_pos)%Z
  then Ok (Z.to_nat (best_match_pos + 1), total_matched + best_matched,
           sub_tree_matching ++ best_matching)
  else Ok st.

(** [__check_matching(tree, node_index, tree_node_index)] returns
    [(total_matched, matching)]. *)
Fixpoint check_matching (fuel : nat) (self tree : Tree)
    (node_index tree_node_index : nat) : result (nat * Matching) :=
  match fuel with
  | 0 => OutOfFuel
  | S fuel' =>
    self_node ← getitem self node_index;
    tree_node ← getitem tree tree_node_index;
    if truthy (Node.text self_node) then
      if truthy (Node.text tree_node)
         && (String.prefix (Node.text tree_node) (Node.text self_node)
             || String.prefix (Node.text self_node) (Node.text tree_node))
      then Ok (1, [(node_index, 1)])
      else Ok (0, [(node_index, 0)])
    else
      '(_, total_matched, sub_tree_matching) ←
        for_each (match_child (check_matching fuel' self tree) self tree
                              (Node.child_indices tree_node))
                 (Node.child_indices self_node)
                 (0, 0, []);
      Ok (total_matched, (node_index, total_matched) :: sub_tree_matching)
  end.

(** ** Counting text nodes: [__count_texts_in_nodes] *)

(** [self[i].text_nodes_count = v]. *)
Definition set_count (self : Tree) (i : nat) (v : nat) : Tree :=
  match self !! i with
  | Some n => <[i := Node.set_text_nodes_count v n]> self
  | None => self
  end.

(** The augmented assignment [self[i].text_nodes_count += f(c)] reads the
    counter, then calls [f], then stores the sum. *)
Fixpoint count_texts_in_nodes (fuel : nat) (self : Tree) (node_index : nat)
    : result (Tree * nat) :=
  match fuel with
  | 0 => OutOfFuel
  | S fuel' =>
    node ← getitem self node_index;
    if truthy (Node.text node) then
      let self := set_count self node_index 1 in
      node ← getitem self node_index;
      Ok (self, Node.text_nodes_count node)
    else
      let self := set_count self node_index 0 in
      self ← for_each
        (λ (self : Tree) (child_index : nat),
           node ← getitem self node_index;
           '(self, counted) ← count_texts_in_nodes fuel' self child_index;
           Ok (set_count self node_index
                 (Node.text_nodes_count node + counted)))
        (Node.child_indices node) self;
      node ← getitem self node_index;
      Ok (self, Node.text_nodes_count node)
  end.

(** ** The prune pass: [__unlink_text_free_nodes] *)

Definition unlink_text_free_step (self : Tree) (node_index : nat)
    : result Tree :=
  node ← getitem self node_index;
  if (-1 <? Node.parent_index node)%Z then
    parent ← getitemZ self (Node.parent_index node);
    if contains node_index (Node.child_indices parent)
       && (Node.text_nodes_count node =? 0)
    then unlink self (Node.parent_index node) node_index
    else Ok self
  else Ok self.

Definition unlink_text_free_nodes (self : Tree) : result Tree :=
  for_each unlink_text_free_step (seq 0 (length self)) self.

(** ** The reducer: [__binary_operation] *)

(** [float(texts_matched) / total_texts >= 0.9], with [0.9] the source's
    [__MIN_PART_FOR_MATCH].  The quotient is compared exactly, as the
    rational [texts_matched / total_texts]; binary64 division and the
    binary64 constant [0.9] give the same truth value for every count below
    [10^15]. *)
Definition matched_part (texts_matched total_texts : nat) : result bool :=
  if total_texts =? 0 then Raise ZeroDivisionError
  else Ok (9 * total_texts <=? 10 * texts_matched).

(** Body of the subtract loop (source lines 312-318). *)
Definition substract_step (substract : bool) (self : Tree)
    (entry : nat * nat) : result Tree :=
  let '(node_index, texts_matched) := entry in
  node ← getitem self node_index;
  let total_texts := Node.text_nodes_count node in
  matched ← matched_part texts_matched total_texts;
  let to_remove := substract && matched in
  if to_remove && (-1 <? Node.parent_index node)%Z
  then unlink self (Node.parent_index node) node_index
  else Ok self.

(** Body of the cross loop (source lines 322-326). *)
Definition cross_step (matched_nodes : gset nat) (self : Tree)
    (node_index : nat) : result Tree :=
  node ← getitem self node_index;
  let to_remove := negb (bool_decide (node_index ∈ matched_nodes)) in
  if to_remove && (-1 <? Node.parent_index node)%Z then
    parent ← getitemZ self (Node.parent_index node);
    if contains node_index (Node.child_indices parent)
    then unlink self (Node.parent_index node) node_index
    else Ok self
  else Ok self.

(** The set [matched_nodes] of the cross branch. *)
Definition positive_nodes (matching : Matching) : gset nat :=
  list_to_set (fst <$> filter (λ e, snd e ≠ 0) matching).

(** The loop of [__binary_operation] alone, before the recount and the
    prune pass. *)
Definition binary_operation_loop (fuel : nat) (self tree : Tree)
    (substract cross : bool) : result Tree :=
  '(_, matching) ← check_matching fuel self tree 0 0;
  if substract then
    for_each (substract_step substract) matching self
  else if cross then
    for_each (cross_step (positive_nodes matching)) (seq 0 (length self)) self
  else Ok self.

Definition binary_operation (fuel : nat) (self tree : Tree)
    (substract cross : bool) : result Tree :=
  self ← binary_operation_loop fuel self tree substract cross;
  '(self, _) ← count_texts_in_nodes fuel self 0;
  unlink_text_free_nodes self.

Definition substract_tree (fuel : nat) (self tree : Tree) : result Tree :=
  binary_operation fuel self tree true false.

Definition cross_tree (fuel : nat) (self tree : Tree) : result Tree :=
  binary_operation fuel self tree false true.

(** ** Traversal: [iterate_DFS] and [get_text_nodes] *)

(** The actor is a callable run on each node; its effect is a state
    transformer. *)
Fixpoint iterate_DFS {S : Type} (fuel : nat) (self : Tree) (node_index : nat)
    (actor : Tree → nat → S → result S) (s : S) : result S :=
  match fuel with
  | 0 => OutOfFuel
  | S fuel' =>
    s ← actor self node_index s;
    node ← getitem self node_index;
    for_each (λ s child_index, iterate_DFS fuel' self child_index actor s)
             (Node.child_indices node) s
  end.

(** [TextBasket.act]. *)
Definition TextBasket_act (tree : Tree) (node_index : nat) (array : list nat)
    : result (list nat) :=
  node ← getitem tree node_index;
  if truthy (Node.text node) then Ok (array ++ [node_index]) else Ok array.

Definition get_text_nodes (fuel : nat) (self : Tree) : result (list nat) :=
  iterate_DFS fuel self 0 TextBasket_act [].

(** [k] lies in the subtree of [a]: it is [a], or it is listed by a node of
    that subtree. *)
Inductive descendant (self : Tree) (a : nat) : nat → Prop :=
  | descendant_self : descendant self a a
  | descendant_child p n c :
      descendant self a p → self !! p = Some n → c ∈ Node.child_indices n →
      descendant self a c.

(** Reachability: index 0, and every index listed by a reachable node. *)
Definition reachable (self : Tree) (i : nat) : Prop := descendant self 0 i.

(** ** Paths: [__get_node_depth], [__build_path] *)

(** The [while] loop of [__get_node_depth]; [fuel] bounds its iterations. *)
Fixpoint get_node_depth_loop (fuel : nat) (self : Tree) (depth node_index : nat)
    : result nat :=
  match fuel with
  | 0 => OutOfFuel
  | S fuel' =>
    node ← getitem self node_index;
    if (-1 <? Node.parent_index node)%Z
    then get_node_depth_loop fuel' self (depth + 1)
           (Z.to_nat (Node.parent_index node))
    else Ok depth
  end.

Definition get_node_depth (fuel : nat) (self : Tree) (node_index : nat)
    : result nat :=
  get_node_depth_loop fuel self 1 node_index.

(** The [while] loop of [__build_path]. *)
Fixpoint build_path_loop (fuel : nat) (self : Tree) (path : list nat)
    (node_index : nat) : result (list nat) :=
  match fuel with
  | 0 => OutOfFuel
  | S fuel' =>
    node ← getitem self node_index;
    if (-1 <? Node.parent_index node)%Z
    then build_path_loop fuel' self
           (path ++ [Z.to_nat (Node.parent_index node)])
           (Z.to_nat (Node.parent_index node))
    else Ok path
  end.

Definition build_path (fuel : nat) (self : Tree) (node_index : nat)
    : result (list nat) :=
  path ← build_path_loop fuel self [node_index] node_index;
  Ok (reverse path).

(** ** Sibling runs: [__check_connection] *)

Definition check_connection (self : Tree) (first_index second_index : nat)
    : result bool :=
  first ← getitem self first_index;
  parent ← getitemZ self (Node.parent_index first);
  let siblings := Node.child_indices parent in
  start ← (p ← index_of first_index siblings; Ok (p + 1));
  end_ ← (p ← index_of second_index siblings; Ok (p + 1));
  for_break
    (λ (ok : bool) (index : nat),
       first ← getitem self first_index;
       sibling_index ← getitem siblings index;
       sibling ← getitem self sibling_index;
       if negb (check_tag_match first sibling) then Ok (Break false)
       else Ok (Next ok))
    (xrange start end_) true.

(** ** Divergence length: [__get_matched_path_len] *)

Definition get_matched_path_len (fuel : nat) (self : Tree) (first second : nat)
    : result nat :=
  first_path ← build_path fuel self first;
  second_path ← build_path fuel self second;
  '(common_len, returned) ←
    for_break
      (λ (st : nat * option nat) (pair : nat * nat),
         let '(common_len, _) := st in
         if decide (pair.1 = pair.2) then Ok (Next (common_len + 1, None))
         else Ok (Break (common_len,
                         Some (length first_path - common_len))))
      (zip first_path second_path) (0, None);
  Ok (default 0 returned).

(** ** Path equality: [__check_paths_equality] *)

Definition CONTEXT_LENGTH : nat := 2.

(** [l[a:b]] for [0 <= a]. *)
Definition slice {A} (l : list A) (a b : nat) : list A :=
  take (b - a) (drop a l).

(** The memo [matched_nodes], keyed by [(min, max)] of a pair of indices. *)
Abbreviation Memo := (gmap (nat * nat) bool).

(** The window comparison for ancestors with different parents (source
    lines 278-298); [equal] is the variable's value on entry. *)
Definition check_context (self : Tree) (first_path second_path : list nat)
    (depth : nat) (equal : bool) : result bool :=
  first_parent_index ← getitem first_path (depth - 1);
  first_parent ← getitem self first_parent_index;
  let first_siblings := Node.child_indices first_parent in
  first_at ← getitem first_path depth;
  first_pos ← index_of first_at first_siblings;
  let first_siblings_compare :=
    slice first_siblings (first_pos - CONTEXT_LENGTH)
          (first_pos + CONTEXT_LENGTH + 1) in
  second_parent_index ← getitem second_path (depth - 1);
  second_parent ← getitem self second_parent_index;
  let second_siblings := Node.child_indices second_parent in
  second_at ← getitem second_path depth;
  second_pos ← index_of second_at second_siblings;
  let second_siblings_compare :=
    slice second_siblings (second_pos - CONTEXT_LENGTH)
          (second_pos + CONTEXT_LENGTH + 1) in
  first_pos_in_compare ← index_of first_at first_siblings_compare;
  second_pos_in_compare ← index_of second_at second_siblings_compare;
  if negb (length second_siblings_compare =? length first_siblings_compare)
     || negb (first_pos_in_compare =? second_pos_in_compare)
  then Ok false
  else
    for_break
      (λ (equal : bool) (pair : nat * nat),
         first_sibling ← getitem self pair.1;
         second_sibling ← getitem self pair.2;
         if negb (check_tag_match first_sibling second_sibling)
         then Ok (Break false)
         else Ok (Next equal))
      (zip first_siblings_compare second_siblings_compare) equal.

(** Body of the loop over depths (source lines 263-301). *)
Definition check_paths_step (self : Tree) (first_path second_path : list nat)
    (st : bool * Memo) (depth : nat) : result (control (bool * Memo)) :=
  let '(equal, matched_nodes) := st in
  first_at ← getitem first_path depth;
  second_at ← getitem second_path depth;
  if decide (first_at = second_at) then Ok (Next st)
  else
    let key := (first_at `min` second_at, first_at `max` second_at) in
    match matched_nodes !! key with
    | Some cached =>
      if negb cached then Ok (Break (cached, matched_nodes))
      else Ok (Next (cached, matched_nodes))
    | None =>
      first_parent ← getitem first_path (depth - 1);
      second_parent ← getitem second_path (depth - 1);
      equal ← (if decide (first_parent = second_parent)
               then check_connection self first_at second_at
               else check_context self first_path second_path depth equal);
      if negb equal then Ok (Break (false, <[key := false]> matched_nodes))
      else Ok (Next (equal, matched_nodes))
    end.

Definition check_paths_equality (fuel : nat) (self : Tree) (first second : nat)
    (matched_nodes : Memo) : result (bool * Memo) :=
  first_node ← getitem self first;
  second_node ← getitem self second;
  if negb (check_tag_match first_node second_node)
  then Ok (false, matched_nodes)
  else
    first_path ← build_path fuel self first;
    second_path ← build_path fuel self second;
    if negb (length first_path =? length second_path)
    then Ok (false, matched_nodes)
    else for_break (check_paths_step self first_path second_path)
                   (xrange 1 (length first_path)) (true, matched_nodes).

(** ** The similarity grouper: [get_similar_sense_texts] *)

(** Order of [(depth, node_index)] tuples, as [list.sort] compares them. *)
Definition tuple_le (a b : nat * nat) : Prop :=
  a.1 < b.1 ∨ (a.1 = b.1 ∧ a.2 ≤ b.2).

Global Instance tuple_le_dec a b : Decision (tuple_le a b).
Proof. unfold tuple_le. apply _. Defined.

(** [fellows_by_matched_len]: a dictionary from divergence length to the
    list of fellows, kept as an association list in insertion order. *)
Abbreviation Fellows := (list (nat * list nat)).

(** [d.setdefault(k, []).append(x)]. *)
Fixpoint setdefault_append (k x : nat) (d : Fellows) : Fellows :=
  match d with
  | [] => [(k, [x])]
  | (k', g) :: d' =>
    if decide (k' = k) then (k', g ++ [x]) :: d'
    else (k', g) :: setdefault_append k x d'
  end.

(** The selection of the largest group (source lines 199-202), over the
    groups in the order the dictionary yields them. *)
Definition largest_group (groups : list (list nat)) : list nat :=
  foldl (λ fellows group,
           if length fellows <? length group then group else fellows)
        [] groups.

(** The text leaves as [(depth, node_index)] tuples, sorted (source lines
    177-179). *)
Definition sorted_text_elements (fuel : nat) (self : Tree)
    : result (list (nat * nat)) :=
  text_elements ← get_text_nodes fuel self;
  text_elements ←
    for_each (λ acc node_index,
                depth ← get_node_depth fuel self node_index;
                Ok (acc ++ [(depth, node_index)]))
             text_elements [];
  Ok (merge_sort tuple_le text_elements).

Section Grouper.
(** The order in which [dict.values()] yields the values: the
    interpreter's hash order, left open here. *)
Variable dict_values : Fellows → list (list nat).

(** Body of the scan over the later leaves (source lines 189-197). *)
Definition scan_fellow (fuel : nat) (self : Tree)
    (text_elements : list (nat * nat)) (used : gset nat)
    (depth node_index : nat) (st : Fellows * Memo) (compare_index : nat)
    : result (control (Fellows * Memo)) :=
  let '(fellows_by_matched_len, matched_nodes) := st in
  '(cmp_depth, cmp_node_index) ← getitem text_elements compare_index;
  if negb (cmp_depth =? depth) then Ok (Break st)
  else if bool_decide (cmp_node_index ∈ used) then Ok (Next st)
  else
    '(equal, matched_nodes) ←
      check_paths_equality fuel self node_index cmp_node_index matched_nodes;
    if (equal : bool) then
      matched_len ← get_matched_path_len fuel self node_index cmp_node_index;
      Ok (Next (setdefault_append matched_len cmp_node_index
                  fellows_by_matched_len, matched_nodes))
    else Ok (Next (fellows_by_matched_len, matched_nodes)).

(** The tail of the outer loop's body (source lines 198-204). *)
Definition emit_group (node_index : nat) (fellows_by_matched_len : Fellows)
    (groups : list (list nat)) (used : gset nat)
    : list (list nat) * gset nat :=
  match fellows_by_matched_len with
  | [] => (groups, used)
  | _ :: _ =>
    let fellows := largest_group (dict_values fellows_by_matched_len) in
    (groups ++ [node_index :: fellows], used ∪ list_to_set fellows)
  end.

(** Body of the outer loop (source lines 184-204); the state is
    [(groups, used, matched_nodes)]. *)
Definition group_leaf (fuel : nat) (self : Tree)
    (text_elements : list (nat * nat))
    (st : list (list nat) * gset nat * Memo) (index : nat)
    : result (list (list nat) * gset nat * Memo) :=
  let '(groups, used, matched_nodes) := st in
  '(depth, node_index) ← getitem text_elements index;
  if bool_decide (node_index ∈ used) then Ok st
  else
    '(fellows_by_matched_len, matched_nodes) ←
      for_break (scan_fellow fuel self text_elements used depth node_index)
                (xrange (index + 1) (length text_elements))
                ([], matched_nodes);
    let '(groups, used) :=
      emit_group node_index fellows_by_matched_len groups used in
    Ok (groups, used, matched_nodes).

Definition get_similar_sense_texts (fuel : nat) (self : Tree)
    : result (list (list nat)) :=
  text_elements ← sorted_text_elements fuel self;
  '(groups, _, _) ←
    for_each (group_leaf fuel self text_elements)
             (xrange 0 (length text_elements))
             ([], (∅ : gset nat), (∅ : Memo));
  Ok groups.
End Grouper.

(** [dict.values()] for a dictionary whose keys are small integers: the
    slots are visited in key order. *)
Definition key_le (a b : nat * list nat) : Prop := a.1 ≤ b.1.

Global Instance key_le_dec a b : Decision (key_le a b).
Proof. unfold key_le. apply _. Defined.

Definition values_by_key (d : Fellows) : list (list nat) :=
  snd <$> merge_sort key_le d.

(** ** Strings as the builder uses them *)

(** Characters are bytes; the whitespace of [str.strip] is the ASCII set. *)
Definition is_space (c : ascii) : bool :=
  let n := nat_of_ascii c in
  (n =? 32) || ((9 <=? n) && (n <=? 13)).

Fixpoint lstrip (s : string) : string :=
  match s with
  | EmptyString => EmptyString
  | String c s' => if is_space c then lstrip s' else s
  end.

Fixpoint rstrip (s : string) : string :=
  match s with
  | EmptyString => EmptyString
  | String c s' =>
    let r := rstrip s' in
    if is_space c && negb (truthy r) then EmptyString else String c r
  end.

(** [s.strip()]. *)
Definition strip (s : string) : string := rstrip (lstrip s).

Definition lower_ascii (c : ascii) : ascii :=
  let n := nat_of_ascii c in
  if (65 <=? n) && (n <=? 90) then ascii_of_nat (n + 32) else c.

(** [s.lower()]. *)
Fixpoint lower (s : string) : string :=
  match s with
  | EmptyString => EmptyString
  | String c s' => String (lower_ascii c) (lower s')
  end.

(** [" ".join([a, b])]. *)
Definition join_space (a b : string) : string := a +:+ " " +:+ b.

(** [s.split(sep)] for a one-character separator. *)
Fixpoint split_on (sep : ascii) (s : string) : list string :=
  match s with
  | EmptyString => [EmptyString]
  | String c s' =>
    if Ascii.eqb c sep then EmptyString :: split_on sep s'
    else match split_on sep s' with
         | [] => [String c EmptyString]
         | w :: ws => String c w :: ws
         end
  end.

(** [s[s.find(c) + 1 :]]: the text after the first [c], or all of [s] when
    [c] does not occur ([find] gives [-1]). *)
Fixpoint after_first (c : ascii) (s : string) : option string :=
  match s with
  | EmptyString => None
  | String d s' => if Ascii.eqb d c then Some s' else after_first c s'
  end.

Definition from_find_plus_one (c : ascii) (s : string) : string :=
  default s (after_first c s).

(** [len(s)] as a Python integer. *)
Definition len (s : string) : Z := Z.of_nat (String.length s).

(** ** The markup tree the builder consumes *)

(** An element of the parsed document: its tag ([None] when the tag is not
    a string, as for comments), its attributes, its own text, the text that
    follows it inside its parent, and its children. *)
#[local] Unset Elimination Schemes.
Inductive lxml : Type :=
  | Element (tag : option string) (attrib : list (string * string))
            (text tail : option string) (children : list lxml).
#[local] Set Elimination Schemes.

Definition lxml_tag (n : lxml) : option string :=
  match n with Element tag _ _ _ _ => tag end.
Definition lxml_text (n : lxml) : option string :=
  match n with Element _ _ text _ _ => text end.
Definition lxml_tail (n : lxml) : option string :=
  match n with Element _ _ _ tail _ => tail end.
Definition lxml_children (n : lxml) : list lxml :=
  match n with Element _ _ _ _ children => children end.

(** [lxml_node.get(key)]. *)
Fixpoint lxml_get_attr (attrib : list (string * string)) (key : string)
    : option string :=
  match attrib with
  | [] => None
  | (k, v) :: rest => if String.eqb k key then Some v else lxml_get_attr rest key
  end.

Definition lxml_get (n : lxml) (key : string) : option string :=
  match n with Element _ attrib _ _ _ => lxml_get_attr attrib key end.

(** [isinstance(s, basestring) and s.strip() or ""]. *)
Definition stripped_or_empty (s : option string) : string :=
  match s with
  | Some s => strip s
  | None => EmptyString
  end.

(** ** Class constants *)

Definition LINK_TAGS : list string := ["a"].
Definition LINK_ATTRIBUTES : list string := ["href"].
Definition TREE_ROOT_TAG : string := "root".
Definition TAGS_TO_SKIP : gset string :=
  list_to_set ["script"; "none"; "meta"; "link"; "iframe";
               "style"; "object"; "noscript"].
Definition INLINE_TAGS : gset string :=
  list_to_set ["a"; "abbr"; "acronym"; "b"; "basefont"; "bdo"; "big";
               "br"; "cite"; "code"; "dfn"; "em"; "font"; "i"; "img";
               "input"; "kbd"; "label"; "q"; "s"; "samp"; "select";
               "option"; "small"; "span"; "strike"; "strong"; "sub";
               "sup"; "textarea"; "tt"; "u"; "var"].
Definition BLOCK_TAGS : gset string :=
  list_to_set ["address"; "applet"; "blockquote"; "body"; "button";
               "center"; "dd"; "del"; "dir"; "div"; "dl"; "dt";
               "fieldset"; "form"; "frameset"; "h1"; "h2"; "h3"; "h4";
               "h5"; "h6"; "head"; "hr"; "html"; "iframe"; "ins";
               "isindex"; "li"; "link"; "map"; "menu"; "meta";
               "noframes"; "noscript"; "object"; "ol"; "p"; "pre";
               "script"; "style"; "table"; "tbody"; "td"; "tfoot";
               "th"; "thead"; "title"; "tr"; "ul"].

(** ** Reading an element: [__get_tag_name], [__get_classes],
    [__get_link_url] *)

Definition get_tag_name (lxml_node : lxml) : string :=
  let tag :=
    match lxml_tag lxml_node with
    | Some t => if truthy (lower t) then lower t else "none"
    | None => "none"
    end in
  match tag with
  | String "{" _ =>
    let rest := from_find_plus_one "}" tag in
    if truthy rest then rest else tag
  | _ => tag
  end.

Definition get_classes (lxml_node : lxml) : list string :=
  let child_classes := default EmptyString (lxml_get lxml_node "class") in
  strip <$> filter (λ name, truthy (strip name) = true)
                   (split_on " " (strip child_classes)).

(** The loop over [__LINK_ATTRIBUTES] (source lines 446-450). *)
Fixpoint first_link (lxml_node : lxml) (link_attributes : list string)
    : string :=
  match link_attributes with
  | [] => EmptyString
  | link_attribute :: rest =>
    let value := default EmptyString (lxml_get lxml_node link_attribute) in
    if truthy value then value else first_link lxml_node rest
  end.

Definition get_link_url (lxml_node : lxml) (node_tag : string) : string :=
  if negb (bool_decide (node_tag ∈ LINK_TAGS)) then EmptyString
  else first_link lxml_node LINK_ATTRIBUTES.

(** ** Zones: [__split_mark_zones] *)

Global Instance MarkZone_inhabited : Inhabited MarkZone.t :=
  populate (MarkZone.mk 0 0 EmptyString [] EmptyString).

(** [copy(zone)] followed by the allocation of the new object. *)
Definition alloc (store : ZoneStore) (z : MarkZone.t) : ZoneStore * zref :=
  (store ++ [z], length store).

(** Body of the loop of [__split_mark_zones] (source lines 461-468); the
    state is [(store, for_node, for_following_usage)]. *)
Definition split_zone (text_length : Z)
    (st : ZoneStore * list zref * list zref) (zone : zref)
    : ZoneStore * list zref * list zref :=
  let '(store, for_node, for_following_usage) := st in
  let '(store, for_following_usage) :=
    if (MarkZone.length (store !!! zone) =? -1)%Z then
      let '(store, zone_copy) := alloc store (store !!! zone) in
      let store := <[zone_copy := MarkZone.set_start 0 (store !!! zone_copy)]>
                     store in
      let store :=
        <[zone := MarkZone.set_length
                    (text_length - MarkZone.start (store !!! zone))
                    (store !!! zone)]> store in
      (store, for_following_usage ++ [zone_copy])
    else (store, for_following_usage) in
  if negb (MarkZone.length (store !!! zone) =? 0)%Z
  then (store, for_node ++ [zone], for_following_usage)
  else (store, for_node, for_following_usage).

Definition split_mark_zones (store : ZoneStore) (mark_zones : list zref)
    (text_length : Z) : ZoneStore * list zref * list zref :=
  foldl (split_zone text_length) (store, [], []) mark_zones.

(** ** The tree builder: [__translate_tree] *)

(** The objects the builder mutates: the arena and the zone objects. *)
Record Builder : Type := mkBuilder {
  nodes : Tree;
  store : ZoneStore
}.

(** [self.append(child_node); self[parent_index].child_indices.append(len(self) - 1)];
    gives the new node's index as well. *)
Definition append_child (self : Tree) (parent_index : nat) (child_node : Node.t)
    : result (Tree * nat) :=
  let self := self ++ [child_node] in
  let node_index := length self - 1 in
  parent ← getitem self parent_index;
  Ok (<[parent_index :=
          Node.set_child_indices (Node.child_indices parent ++ [node_index])
                                 parent]> self,
      node_index).

(** [Node(text = ..., parent_index = ..., mark_zones = ...)]. *)
Definition text_node (text : string) (parent_index : nat)
    (mark_zones : list zref) : Node.t :=
  Node.mk (Z.of_nat parent_index) EmptyString [] [] text mark_zones 0.

(** [Node(tag = ..., style_classes = ..., parent_index = ...)]. *)
Definition block_node (tag : string) (style_classes : list string)
    (parent_index : nat) : Node.t :=
  Node.mk (Z.of_nat parent_index) tag style_classes [] EmptyString [] 0.

(** Flush the pending text as a text node under [parent_index], with the
    zones split at [text_length] (source lines 491-497 and 513-519). *)
Definition flush (b : Builder) (parent_index : nat) (text : string)
    (mark_zones : list zref) (text_length : Z)
    : result (Builder * list zref) :=
  let '(store, for_node, for_followers) :=
    split_mark_zones (store b) mark_zones text_length in
  '(self, _) ← append_child (nodes b) parent_index
                 (text_node text parent_index for_node);
  Ok (mkBuilder self store, for_followers).

(** Body of the loop that closes the zones opened by an inline element
    (source lines 536-542); the state is [(store, add_len)]. *)
Definition close_zone (subtree_mark_zones : list zref) (text_before : string)
    (st : ZoneStore * Z) (zone_index : nat) : result (control (ZoneStore * Z)) :=
  let '(store, add_len) := st in
  zone ← getitem subtree_mark_zones zone_index;
  if (MarkZone.length (store !!! zone) =? -1)%Z then
    let store :=
      <[zone := MarkZone.set_length
                  (len text_before - MarkZone.start (store !!! zone))
                  (store !!! zone)]> store in
    let add_len := (add_len - 1)%Z in
    if (add_len =? 0)%Z then Ok (Break (store, add_len))
    else Ok (Next (store, add_len))
  else Ok (Next st).

(** State of the loop over [lxml_nodes]: the mutated objects and the local
    variables [text_before] and [mark_zones]. *)
Abbreviation Pending := (Builder * string * list zref)%type.

(** The recursive call [self.__translate_tree(lxml_node, parent_index,
    text_before, mark_zones)], as the pieces of the loop body see it. *)
Abbreviation Translate :=
  (list lxml → nat → Builder → string → list zref → result Pending).

(** The text pending before a block or a skipped element becomes a text
    node of the parent (source lines 489-497). *)
Definition flush_pending (is_block to_skip : bool) (parent_index : nat)
    (st : Pending) : result Pending :=
  let '(b, text_before, mark_zones) := st in
  if truthy text_before && (is_block || to_skip) then
    '(b, for_followers) ←
      flush b parent_index text_before mark_zones (len text_before);
    Ok (b, EmptyString, for_followers)
  else Ok (b, text_before, mark_zones).

(** A block element (source lines 498-520): a node of its own, its children
    below it, and the text left over as its last child. *)
Definition translate_block (translate_tree : Translate) (tag : string)
    (child_classes : list string) (text : string) (children : list lxml)
    (parent_index : nat) (st : Pending) : result (control Pending) :=
  let '(b, text_before, mark_zones) := st in
  '(self, node_index) ←
    append_child (nodes b) parent_index
                 (block_node tag child_classes parent_index);
  '(b, text_left, mark_zones) ←
    translate_tree children node_index (mkBuilder self (store b)) text
                   mark_zones;
  if truthy text_left then
    '(b, for_followers) ←
      flush b node_index text_left mark_zones (len text_before);
    Ok (Next (b, text_before, for_followers))
  else Ok (Next (b, text_before, mark_zones)).

(** An inline element (source lines 521-545): a zone opened at the end of
    the pending text, the children in the same parent, and the zone closed
    at the end of the text they leave. *)
Definition translate_inline (translate_tree : Translate) (tag : string)
    (child_classes : list string) (link text : string) (children : list lxml)
    (parent_index : nat) (st : Pending) : result (control Pending) :=
  let '(b, text_before, mark_zones) := st in
  let '(store0, mark_add) :=
    alloc (store b)
          (MarkZone.mk (len text_before) (-1) tag child_classes link) in
  let add_len := 1%Z in
  let text_before := strip (join_space text_before text) in
  '(b, text_before, subtree_mark_zones) ←
    translate_tree children parent_index (mkBuilder (nodes b) store0)
                   text_before (mark_zones ++ [mark_add]);
  '(store1, add_len) ←
    for_break (close_zone subtree_mark_zones text_before)
              (reverse (seq 0 (length subtree_mark_zones)))
              (store b, add_len);
  let b := mkBuilder (nodes b) store1 in
  if negb (add_len =? 0)%Z then Ok (Break (b, text_before, mark_zones))
  else Ok (Next (b, text_before, subtree_mark_zones)).

(** The text after the element is joined to the pending text (source
    lines 546-553). *)
Definition join_tail (lxml_node : lxml) (step : control Pending)
    : control Pending :=
  match step with
  | Break s => Break s
  | Next (b, text_before, mark_zones) =>
    let text_after := stripped_or_empty (lxml_tail lxml_node) in
    Next (b, strip (join_space text_before text_after), mark_zones)
  end.

(** Body of the loop of [__translate_tree] (source lines 475-553) for one
    element; the recursive calls of [__translate_tree] on the element's
    children are the inner loops. *)
Fixpoint translate_node (parent_index : nat) (st : Pending) (lxml_node : lxml)
    {struct lxml_node} : result (control Pending) :=
  let translate_tree : Translate :=
    λ lxml_nodes parent_index b text_before mark_zones,
      for_break (translate_node parent_index) lxml_nodes
                (b, text_before, mark_zones) in
  let tag := get_tag_name lxml_node in
  let child_classes := get_classes lxml_node in
  let text := stripped_or_empty (lxml_text lxml_node) in
  let link := get_link_url lxml_node tag in
  let is_block := bool_decide (tag ∈ BLOCK_TAGS) in
  let to_skip := bool_decide (tag ∈ TAGS_TO_SKIP) in
  st ← flush_pending is_block to_skip parent_index st;
  step ←
    (if is_block && negb to_skip then
       translate_block translate_tree tag child_classes text
                       (lxml_children lxml_node) parent_index st
     else if negb to_skip then
       translate_inline translate_tree tag child_classes link text
                        (lxml_children lxml_node) parent_index st
     else Ok (Next st));
  Ok (join_tail lxml_node step).

(** [__translate_tree(lxml_nodes, parent_index, text_before, mark_zones)]
    returns [(text_before, mark_zones)]. *)
Definition translate_tree (lxml_nodes : list lxml) (parent_index : nat)
    (b : Builder) (text_before : string) (mark_zones : list zref)
    : result Pending :=
  for_break (translate_node parent_index) lxml_nodes
            (b, text_before, mark_zones).

(** [__load], after the parser: [lxml_root] is [None] when the parser
    produced no element, and the loop of [__translate_tree] skips it. *)
Definition load (fuel : nat) (lxml_root : option lxml)
    : result (Tree * ZoneStore) :=
  let root := Node.mk (-1) TREE_ROOT_TAG [] [] EmptyString [] 0 in
  let self := [root] in
  '(b, _, _) ← translate_tree (option_list lxml_root) 0 (mkBuilder self [])
                 EmptyString [];
  '(self, _) ← count_texts_in_nodes fuel (nodes b) 0;
  self ← unlink_text_free_nodes self;
  Ok (self, store b).

(** ** Notions used to state the properties *)

(** [a] is a prefix of [b], character for character. *)
Definition is_prefix (a b : string) : Prop := ∃ c, b = a +:+ c.

(** The state a loop body leaves behind, however it ends. *)
Definition control_state {S} (c : control S) : S :=
  match c with Next s => s | Break s => s end.

(** A partner of the leaf at position [i] of the sorted leaves [te]: a
    leaf at a later position and the same depth [d] that passed the
    path-equality test against [leaf] when the grouper ran it. *)
Definition partner (fuel : nat) (self : Tree) (te : list (nat * nat))
    (i d leaf f : nat) : Prop :=
  ∃ j, i < j ∧ te !! j = Some (d, f)
       ∧ ∃ m m', check_paths_equality fuel self leaf f m = Ok (true, m').

(** A group the grouper may emit: a leaf followed by at least one partner. *)
Definition proper_group (fuel : nat) (self : Tree) (te : list (nat * nat))
    (g : list nat) : Prop :=
  ∃ i d leaf fellows,
    g = leaf :: fellows ∧ te !! i = Some (d, leaf) ∧ fellows ≠ []
    ∧ Forall (partner fuel self te i d leaf) fellows.

(** ** Sample documents *)

(** An element without attributes. *)
Definition elem (tag : string) (text tail : option string)
    (children : list lxml) : lxml :=
  Element (Some tag) [] text tail children.

(** [<ul><li>apple</li><li>banana</li><li>grape</li></ul><p>text</p>], as
    the parser wraps it. *)
Definition list_document : lxml :=
  elem "html" None None
    [elem "body" None None
       [elem "ul" None None
          [elem "li" (Some "apple") None [];
           elem "li" (Some "banana") None [];
           elem "li" (Some "grape") None []];
        elem "p" (Some "text") None []]].

(** The arena a build returned, or the empty arena when it failed. *)
Definition built (r : result (Tree * ZoneStore)) : Tree :=
  match r with Ok (self, _) => self | _ => [] end.

Definition list_tree : Tree := built (load 12 (Some list_document)).

(** ** Well-formed arenas *)

(** The children a node lists, and none for an index outside the arena. *)
Definition children_of (self : Tree) (p : nat) : list nat :=
  default [] (Node.child_indices <$> self !! p).

(** The node at index [i] of a well-formed arena: every child it lists has a
    larger index and names it as its parent, no child is listed twice, its
    own parent (if any) has a smaller index, and a text node lists no
    child. *)
Definition wf_node (self : Tree) (i : nat) (n : Node.t) : bool :=
  forallb (λ c, (i <? c)
                && match self !! c with
                   | Some m => (Node.parent_index m =? Z.of_nat i)%Z
                   | None => false
                   end)
          (Node.child_indices n)
  && bool_decide (NoDup (Node.child_indices n))
  && ((Node.parent_index n =? -1)%Z
      || ((0 <=? Node.parent_index n)%Z
          && (Node.parent_index n <? Z.of_nat i)%Z))
  && (negb (truthy (Node.text n)) || bool_decide (Node.child_indices n = [])).

(** The arenas the builder produces and the operations maintain. *)
Definition well_formed (self : Tree) : bool :=
  (0 <? length self)
  && forallb (λ i, match self !! i with
                   | Some n => wf_node self i n
                   | None => false
                   end)
             (seq 0 (length self)).

Record wf (self : Tree) : Prop := {
  wf_root : 0 < length self;
  wf_child : ∀ p n c, self !! p = Some n → c ∈ Node.child_indices n →
    p < c ∧ ∃ m, self !! c = Some m ∧ Node.parent_index m = Z.of_nat p;
  wf_nodup : ∀ p n, self !! p = Some n → NoDup (Node.child_indices n);
  wf_parent : ∀ i n, self !! i = Some n →
    Node.parent_index n = (-1)%Z
    ∨ (0 ≤ Node.parent_index n < Z.of_nat i)%Z;
  wf_leaf : ∀ i n, self !! i = Some n → Node.text n ≠ EmptyString →
    Node.child_indices n = []
}.

(** The number of text nodes in the subtree of [i], by descent through the
    children; [fuel] bounds the depth. *)
Fixpoint text_count_from (fuel : nat) (self : Tree) (i : nat) : nat :=
  match fuel with
  | 0 => 0
  | S fuel' =>
    match self !! i with
    | None => 0
    | Some n =>
      if truthy (Node.text n) then 1
      else sum_list (text_count_from fuel' self <$> Node.child_indices n)
    end
  end.

Definition text_count (self : Tree) (i : nat) : nat :=
  text_count_from (length self - i) self i.

(** The cached counters of the reachable nodes are up to date. *)
Definition counts_accurate (self : Tree) : Prop :=
  ∀ i n, reachable self i → self !! i = Some n →
         Node.text_nodes_count n = text_count self i.

(** A check of the counters of all the nodes of the arena. *)
Definition counts_accurate_all (self : Tree) : bool :=
  forallb (λ i, match self !! i with
                | Some n => Node.text_nodes_count n =? text_count self i
                | None => false
                end)
          (seq 0 (length self)).

(** Every listed child has a text node below it: the arena is pruned. *)
Definition pruned (self : Tree) : bool :=
  forallb (λ i, forallb (λ c, 0 <? text_count self c) (children_of self i))
          (seq 0 (length self)).

(** The arena with the children that fail [keep] removed from every list. *)
Definition prune_children (keep : nat → bool) (self : Tree) : Tree :=
  (λ n, Node.set_child_indices
          (filter (λ c, keep c = true) (Node.child_indices n)) n) <$> self.

(** ** The shape of the matcher's output *)

(** [matches self i s m]: [m] is an output of the matcher for the subtree of
    [i] with score [s]: the entry of [i] first, then the outputs of the
    children that were given a candidate, each with a positive score, in
    the order of the children; a text node counts for at most 1. *)
Inductive matches (self : Tree) : nat → nat → Matching → Prop :=
  | matches_text i n s :
      self !! i = Some n → Node.text n ≠ EmptyString → s ≤ 1 →
      matches self i s [(i, s)]
  | matches_block i n s m :
      self !! i = Some n → Node.text n = EmptyString →
      matches_children self (Node.child_indices n) s m →
      matches self i s ((i, s) :: m)
with matches_children (self : Tree) : list nat → nat → Matching → Prop :=
  | matches_nil : matches_children self [] 0 []
  | matches_skip c cs s m :
      matches_children self cs s m → matches_children self (c :: cs) s m
  | matches_pick c cs sc mc s m :
      0 < sc → matches self c sc mc → matches_children self cs s m →
      matches_children self (c :: cs) (sc + s) (mc ++ m).

Scheme matches_mut := Minimality for matches Sort Prop
  with matches_children_mut := Minimality for matches_children Sort Prop.
Combined Scheme matches_mutind from matches_mut, matches_children_mut.

(** The children that survive a loop of unlinking over the entries [xs]:
    [c] is removed when some entry with key [c] asks for it. *)
Definition kept {X} (key : X → nat) (R : X → bool) (xs : list X) (c : nat)
    : bool :=
  forallb (λ x, negb (R x && (key x =? c))) xs.

(** The cached counter and the parent of a node, by index. *)
Definition count_of (self : Tree) (k : nat) : nat :=
  default 0 (Node.text_nodes_count <$> self !! k).

Definition parent_of (self : Tree) (k : nat) : Z :=
  default (-1)%Z (Node.parent_index <$> self !! k).

(** The nodes the prune pass removes from the lists. *)
Definition text_free (self : Tree) (k : nat) : bool := count_of self k =? 0.

(** The entries of the matcher's output the subtract loop acts on: the
    matched part reaches nine tenths and the node has a parent. *)
Definition to_substract (self : Tree) (entry : nat * nat) : bool :=
  (9 * count_of self entry.1 <=? 10 * entry.2)
  && (-1 <? parent_of self entry.1)%Z.

(** The same list next to another paragraph. *)
Definition other_document : lxml :=
  elem "html" None None
    [elem "body" None None
       [elem "ul" None None
          [elem "li" (Some "apple") None [];
           elem "li" (Some "banana") None [];
           elem "li" (Some "grape") None []];
        elem "p" (Some "other") None []]].

Definition other_tree : Tree := built (load 12 (Some other_document)).

(** An arena with a listed block that holds no text:
    [root[div[], p["x"]]], counters up to date. *)
Definition sparse_tree : Tree :=
  [Node.mk (-1) "root" [] [1; 2] "" [] 1;
   Node.mk 0 "div" [] [] "" [] 0;
   Node.mk 0 "p" [] [3] "" [] 1;
   Node.mk 2 "" [] [] "x" [] 1].

(** A document without text. *)
Definition blank_document : lxml :=
  elem "html" None None [elem "body" None None []].

Definition blank_tree : Tree := built (load 12 (Some blank_document)).

(** The arena without its cached counters; two arenas have the same shape
    when they differ in the counters only. *)
Definition skeleton (self : Tree) : Tree :=
  Node.set_text_nodes_count 0 <$> self.

Definition same_shape (t t' : Tree) : Prop := skeleton t = skeleton t'.

(** The siblings at the positions [lo <= pos < hi] of the list of [p] all
    tag-match the node [first]. *)
Definition run_matches (self : Tree) (first : Node.t) (p lo hi : nat) : Prop :=
  ∀ pos k n, lo ≤ pos < hi → children_of self p !! pos = Some k →
             self !! k = Some n → check_tag_match first n = true.

(** [<div>x</div><p>y</p>]: two adjacent blocks of different tags. *)
Definition mixed_document : lxml :=
  elem "html" None None
    [elem "body" None None
       [elem "div" (Some "x") None [];
        elem "p" (Some "y") None []]].

Definition mixed_tree : Tree := built (load 12 (Some mixed_document)).

(** ** The greedy scan, as the specification words it *)

(** The candidates of a self-child: the positions at or after the cursor
    whose node tag-matches the child, each with its recursive score. *)
Definition candidates (score : nat → nat) (other : Tree) (self_child : Node.t)
    (other_childs : list nat) (cursor : nat) : list (nat * nat) :=
  omap (λ pos,
          k ← other_childs !! pos;
          m ← other !! k;
          if check_tag_match self_child m then Some (pos, score k) else None)
       (seq cursor (length other_childs - cursor)).

(** The candidate with the highest score, the first of them on a tie, among
    the candidates [eligible] lets in. *)
Definition pick (eligible : nat → bool) (cands : list (nat * nat))
    : option (nat * nat) :=
  foldl (λ best cand,
           match best with
           | None => if eligible cand.2 then Some cand else None
           | Some b => if b.2 <? cand.2 then Some cand else best
           end)
        None cands.

(** The scan over the self-children: the cursor moves past the chosen
    candidate, and a child without one leaves it in place. *)
Fixpoint greedy_children (eligible : nat → bool) (score : nat → nat → nat)
    (self other : Tree) (other_childs : list nat) (self_childs : list nat)
    (cursor total : nat) : nat :=
  match self_childs with
  | [] => total
  | c :: cs =>
    match self !! c with
    | None => total
    | Some self_child =>
      match pick eligible (candidates (score c) other self_child other_childs
                                   cursor) with
      | Some (pos, s) =>
        greedy_children eligible score self other other_childs cs (pos + 1)
                        (total + s)
      | None =>
        greedy_children eligible score self other other_childs cs cursor total
      end
    end
  end.

(** The score of a pair of nodes; [fuel] bounds the depth. *)
Fixpoint greedy_score (eligible : nat → bool) (fuel : nat) (self other : Tree)
    (i j : nat) : nat :=
  match fuel with
  | 0 => 0
  | S fuel' =>
    match self !! i, other !! j with
    | Some n, Some m =>
      if truthy (Node.text n) then
        if truthy (Node.text m)
           && (String.prefix (Node.text m) (Node.text n)
               || String.prefix (Node.text n) (Node.text m))
        then 1 else 0
      else greedy_children eligible (greedy_score eligible fuel' self other)
                           self other (Node.child_indices m)
                           (Node.child_indices n) 0 0
    | _, _ => 0
    end
  end.

(** The reading of the specification: every tag-matching candidate can be
    chosen. *)
Definition any_score (s : nat) : bool := true.

(** The source's test [matched > best_matched], from [best_matched = 0]:
    only a candidate with a positive score can be chosen. *)
Definition positive_score (s : nat) : bool := 0 <? s.

(** [<p>foo</p><p>bar</p>] and [<p>bar</p>]. *)
Definition two_paragraphs_document : lxml :=
  elem "html" None None
    [elem "body" None None
       [elem "p" (Some "foo") None [];
        elem "p" (Some "bar") None []]].

Definition one_paragraph_document : lxml :=
  elem "html" None None
    [elem "body" None None [elem "p" (Some "bar") None []]].

Definition two_paragraphs : Tree :=
  built (load 12 (Some two_paragraphs_document)).

Definition one_paragraph : Tree :=
  built (load 12 (Some one_paragraph_document)).

(** ** Zones of the builder *)

(** A text without white space at either end: what [strip] returns. *)
Definition stripped (s : string) : Prop := lstrip s = s ∧ rstrip s = s.

(** The fields of the zone object behind a reference. *)
Definition zstart (store : ZoneStore) (z : zref) : Z :=
  MarkZone.start (store !!! z).

Definition zlength (store : ZoneStore) (z : zref) : Z :=
  MarkZone.length (store !!! z).

(** An open zone: its length is still [-1]. *)
Definition is_open (store : ZoneStore) (z : zref) : bool :=
  (zlength store z =? -1)%Z.

Definition opens_of (store : ZoneStore) (zones : list zref) : list zref :=
  filter (λ z, is_open store z = true) zones.

(** A zone of the pending list, against the pending text: it starts inside
    the text, and it is open or ends inside the text. *)
Definition pending_ok (store : ZoneStore) (text : string) (z : zref) : Prop :=
  z < length store
  ∧ (0 ≤ zstart store z ≤ len text)%Z
  ∧ (zlength store z = -1
     ∨ 0 ≤ zlength store z ∧ zstart store z + zlength store z ≤ len text)%Z.

(** A zone stored on a node, against the node's text. *)
Definition zone_valid (store : ZoneStore) (text : string) (z : zref) : Prop :=
  z < length store
  ∧ (0 ≤ zstart store z)%Z ∧ (0 < zlength store z)%Z
  ∧ (zstart store z + zlength store z ≤ len text)%Z.

Definition zones_valid (self : Tree) (store : ZoneStore) : Prop :=
  ∀ i n z, self !! i = Some n → z ∈ Node.mark_zones n →
           zone_valid store (Node.text n) z.

(** The invariant of the builder's loop. *)
Definition zones_inv (st : Pending) : Prop :=
  stripped st.1.2 ∧ NoDup st.2
  ∧ Forall (pending_ok (store st.1.1) st.1.2) st.2
  ∧ zones_valid (nodes st.1.1) (store st.1.1).

(** The store grows, and a closed zone is never written again. *)
Definition store_extends (store store' : ZoneStore) : Prop :=
  length store ≤ length store'
  ∧ ∀ z, z < length store → is_open store z = false →
         store' !!! z = store !!! z.

(** The open zones of the pending list after a step against those before
    it: as many, in the same order, none starting further right. *)
Definition opens_follow (store store' : ZoneStore) (zones zones' : list zref)
    : Prop :=
  Forall2 (λ z' z, (zstart store' z' ≤ zstart store z)%Z)
          (opens_of store' zones') (opens_of store zones).

(** What a step of the builder keeps. *)
Definition zones_step (st st' : Pending) : Prop :=
  zones_inv st'
  ∧ store_extends (store st.1.1) (store st'.1.1)
  ∧ opens_follow (store st.1.1) (store st'.1.1) st.2 st'.2.

(** Two arenas with the same texts and zones, node by node. *)
Definition same_marks (t t' : Tree) : Prop :=
  (λ n, (Node.text n, Node.mark_zones n)) <$> t
  = (λ n, (Node.text n, Node.mark_zones n)) <$> t'.

(** Induction on a markup tree, with the property known for the children. *)
Fixpoint lxml_children_ind (P : lxml → Prop)
    (step : ∀ tag attrib text tail children,
       Forall P children → P (Element tag attrib text tail children))
    (n : lxml) {struct n} : P n :=
  match n with
  | Element tag attrib text tail children =>
    step tag attrib text tail children
      ((fix all (l : list lxml) : Forall P l :=
          match l with
          | [] => @List.Forall_nil lxml P
          | x :: l' =>
            @List.Forall_cons lxml P x l' (lxml_children_ind P step x) (all l')
          end) children)
  end.

(** [<p>x<b>y<i>q</i>r</b>z</p>]: nested inline elements. *)
Definition inline_document : lxml :=
  elem "html" None None
    [elem "body" None None
       [elem "p" (Some "x") None
          [elem "b" (Some "y") (Some "z") [elem "i" (Some "q") (Some "r") []]]]].

(** The zones a flush leaves for the texts that follow: fresh open zones
    that start at 0. *)
Definition followers_ok (sto : ZoneStore) (ff : list zref) : Prop :=
  NoDup ff
  ∧ Forall (λ z', z' < length sto ∧ zstart sto z' = 0%Z
                  ∧ is_open sto z' = true) ff.

(** The zone objects a build returned. *)
Definition built_zones (r : result (Tree * ZoneStore)) : ZoneStore :=
  match r with Ok (_, zones) => zones | _ => [] end.

Definition inline_tree : Tree := built (load 12 (Some inline_document)).

Definition inline_zones : ZoneStore :=
  built_zones (load 12 (Some inline_document)).

(** ** Arenas under construction *)

(** The arena grows at its end, and the nodes keep their texts. *)
Definition arena_grows (t t' : Tree) : Prop :=
  length t ≤ length t'
  ∧ ∀ i n, t !! i = Some n →
           ∃ n', t' !! i = Some n' ∧ Node.text n' = Node.text n.

(** The node at [p] can take children: it is not a text node. *)
Definition block_at (t : Tree) (p : nat) : Prop :=
  ∃ n, t !! p = Some n ∧ Node.text n = EmptyString.

(** Every node with a parent is listed by it, and the root alone has
    none. *)
Definition linked (t : Tree) : Prop :=
  ∀ i n, t !! i = Some n →
    if (-1 <? Node.parent_index n)%Z
    then i ∈ children_of t (Z.to_nat (Node.parent_index n))
    else i = 0.

(** The arenas of the builder. *)
Definition built_ok (t : Tree) : Prop := wf t ∧ linked t.

(** The arena an operation returned, or the empty arena when it failed. *)
Definition returned (r : result Tree) : Tree :=
  match r with Ok self => self | _ => [] end.

(** The list sample with the other document subtracted. *)
Definition reduced_tree : Tree :=
  returned (substract_tree 12 list_tree other_tree).


(** The nodes of the subtree of [i] in depth-first order, a node before its
    children and the children in the order of the list; [fuel] bounds the
    depth. *)
Fixpoint preorder (fuel : nat) (self : Tree) (i : nat) : list nat :=
  match fuel with
  | 0 => []
  | S fuel' =>
    match self !! i with
    | None => []
    | Some n => i :: concat (preorder fuel' self <$> Node.child_indices n)
    end
  end.

(** The node at [k] is a text node. *)
Definition is_text (self : Tree) (k : nat) : bool :=
  match self !! k with
  | Some n => truthy (Node.text n)
  | None => false
  end.

(** ** Paths *)

(** [up] lists the ancestors of [k] by [parent_index], the nearest first,
    up to a node without a parent. *)
Inductive chain_up (self : Tree) : nat → list nat → Prop :=
  | chain_up_top k n :
      self !! k = Some n → (-1 <? Node.parent_index n)%Z = false →
      chain_up self k []
  | chain_up_step k n up :
      self !! k = Some n → (-1 <? Node.parent_index n)%Z = true →
      chain_up self (Z.to_nat (Node.parent_index n)) up →
      chain_up self k (Z.to_nat (Node.parent_index n) :: up).

(** ** The groups of the similarity grouper *)

(** A bucket of the scan from position [i] of the sorted leaves [te], up to
    position [ci]: distinct leaves that are not used and stand between the
    two positions. *)
Definition bucket_ok (te : list (nat * nat)) (used : gset nat) (i ci : nat)
    (g : list nat) : Prop :=
  NoDup g
  ∧ Forall (λ f, (f ∉ used) ∧ ∃ j d, i < j < ci ∧ te !! j = Some (d, f)) g.

(** The members of the groups so far, before position [i]: distinct, each a
    used leaf or the leaf of a position already passed. *)
Definition groups_ok (te : list (nat * nat)) (i : nat)
    (st : list (list nat) * gset nat * Memo) : Prop :=
  NoDup (concat st.1.1)
  ∧ Forall (λ x, x ∈ (te.*2)
                 ∧ (x ∈ st.1.2 ∨ ∃ j d, j < i ∧ te !! j = Some (d, x)))
           (concat st.1.1).

(** ** The kinds of nodes of a built arena *)

(** The fields of a node that no pass after the builder writes. *)
Definition label (n : Node.t) : string * list string * string * list zref :=
  (Node.tag n, Node.style_classes n, Node.text n, Node.mark_zones n).

(** The root: the tag [root], and neither classes nor text nor zones. *)
Definition root_kind (n : Node.t) : Prop :=
  label n = (TREE_ROOT_TAG, [], EmptyString, []).

(** A text node: a text that is not empty and has no white space around it,
    and neither tag nor classes. *)
Definition text_kind (n : Node.t) : Prop :=
  Node.tag n = EmptyString ∧ Node.style_classes n = []
  ∧ Node.text n ≠ EmptyString ∧ stripped (Node.text n).

(** A block node: a block tag that is not skipped, and neither text nor
    zones. *)
Definition block_kind (n : Node.t) : Prop :=
  Node.text n = EmptyString ∧ Node.mark_zones n = []
  ∧ Node.tag n ∈ BLOCK_TAGS ∧ Node.tag n ∉ TAGS_TO_SKIP.

Definition kinds (t : Tree) : Prop :=
  ∃ r rest, t = r :: rest ∧ root_kind r
            ∧ Forall (λ n, text_kind n ∨ block_kind n) rest.

(** The invariant of the builder's loop for the kinds of nodes. *)
Definition kinds_inv (st : Pending) : Prop :=
  stripped st.1.2 ∧ kinds (nodes st.1.1).

(** Every node of the path lists the next among its children. *)
Definition linked_path (self : Tree) (path : list nat) : Prop :=
  ∀ d a b, path !! d = Some a → path !! S d = Some b → b ∈ children_of self a.

(** ** The zone objects of a build *)

(** A zone of an inline element: its tag is neither a block tag nor a
    skipped one, and it has a link only if it is a link element. *)
Definition zone_kind (z : MarkZone.t) : Prop :=
  (MarkZone.tag z ∉ BLOCK_TAGS) ∧ (MarkZone.tag z ∉ TAGS_TO_SKIP)
  ∧ (MarkZone.link z ≠ EmptyString → MarkZone.tag z ∈ LINK_TAGS).

Definition zone_kinds (st : Pending) : Prop := Forall zone_kind (store st.1.1).

(** [<p>hello<b>bold</b>tail</p>] translated as a block under the root: the
    step of the loop of the builder for it. *)
Definition block_sample : control Pending :=
  match
    translate_block translate_tree "p" [] "hello"
      [elem "b" (Some "bold") (Some "tail") []] 0
      (mkBuilder [Node.mk (-1) TREE_ROOT_TAG [] [] EmptyString [] 0] [],
       EmptyString, [])
  with
  | Ok c => c
  | _ => Next (mkBuilder [] [], EmptyString, [])
  end.

(** * Properties *)

(** ** The result monad *)

Lemma bind_Ok {A B} (m : result A) (f : A → result B) (b : B) :
  m ≫= f = Ok b ↔ ∃ a, m = Ok a ∧ f a = Ok b.
Proof.
  destruct m as [a| |]; simpl; split.
  - intros H. exists a. done.
  - intros (a' & [= <-] & H). done.
  - done.
  - intros (a' & [=] & _).
  - done.
  - intros (a' & [=] & _).
Qed.

Lemma getitem_Ok {A} (l : list A) (i : nat) (x : A) :
  getitem l i = Ok x ↔ l !! i = Some x.
Proof. unfold getitem. destruct (l !! i); split; congruence. Qed.

Lemma getitem_lookup {A} (l : list A) (i : nat) (x : A) :
  l !! i = Some x → getitem l i = Ok x.
Proof. apply getitem_Ok. Qed.

Lemma getitemZ_nonneg {A} (l : list A) (i : Z) :
  (0 ≤ i)%Z → getitemZ l i = getitem l (Z.to_nat i).
Proof. intros H. unfold getitemZ. by rewrite (proj2 (Z.leb_le _ _) H). Qed.

(** Invert a successful monadic computation in a hypothesis. *)
Ltac inv_ok H :=
  repeat match type of H with
  | (_ ≫= _) = Ok _ =>
      let x := fresh "x" in let Hx := fresh "Hx" in
      apply bind_Ok in H; destruct H as (x & Hx & H)
  end;
  try match type of H with
  | Raise _ = Ok _ => discriminate H
  | OutOfFuel = Ok _ => discriminate H
  | Ok _ = Ok _ => simplify_eq
  end.

(** ** C5: the tag-match predicate *)

Lemma class_sets_meet (a b : list string) :
  (list_to_set a : gset string) ∩ list_to_set b ≠ ∅ ↔ ∃ c, c ∈ a ∧ c ∈ b.
Proof.
  split.
  - intros H. apply set_choose_L in H as [c Hc].
    exists c. set_solver.
  - intros (c & Ha & Hb) Hempty.
    assert (c ∈ (list_to_set a : gset string) ∩ list_to_set b) as Hc
      by set_solver.
    rewrite Hempty in Hc. set_solver.
Qed.

Lemma check_tag_match_iff (first_node second_node : Node.t) :
  check_tag_match first_node second_node = true ↔
  Node.tag first_node = Node.tag second_node ∧
  (length (Node.style_classes first_node)
     + length (Node.style_classes second_node) < 2
   ∨ ∃ c, c ∈ Node.style_classes first_node
          ∧ c ∈ Node.style_classes second_node).
Proof.
  unfold check_tag_match.
  destruct (decide (Node.tag first_node = Node.tag second_node)) as [Htag|Htag].
  - rewrite (bool_decide_eq_true_2 _ Htag). simpl.
    destruct (Nat.ltb_spec
                (length (Node.style_classes first_node)
                 + length (Node.style_classes second_node)) 2) as [Hlt|Hge].
    + split; [intros _; split; [done|by left]|done].
    + rewrite negb_true_iff, bool_decide_eq_false, class_sets_meet.
      split.
      * intros Hc. split; [done|by right].
      * intros [_ [Hlt|Hc]]; [lia|done].
  - rewrite (bool_decide_eq_false_2 _ Htag). simpl.
    split; [done|]. intros [? _]. done.
Qed.

(** C5. Two nodes tag-match exactly when their tags are equal and either
    they carry fewer than two style classes between them or some class
    occurs on both.  In particular, for nodes of one tag, classes [a]
    against no class match, [a] against [b] do not, and [a; b] against
    [b; c] do. *)
Theorem check_tag_match_spec :
  (∀ first_node second_node : Node.t,
     check_tag_match first_node second_node = true ↔
     Node.tag first_node = Node.tag second_node ∧
     (length (Node.style_classes first_node)
        + length (Node.style_classes second_node) < 2
      ∨ ∃ c, c ∈ Node.style_classes first_node
             ∧ c ∈ Node.style_classes second_node))
  ∧ (∀ tag p q,
       check_tag_match (block_node tag ["a"] p) (block_node tag [] q) = true
       ∧ check_tag_match (block_node tag ["a"] p) (block_node tag ["b"] q)
         = false
       ∧ check_tag_match (block_node tag ["a"; "b"] p)
                         (block_node tag ["b"; "c"] q) = true).
Proof.
  split.
  - apply check_tag_match_iff.
  - intros tag p q. unfold check_tag_match, block_node. simpl.
    rewrite !bool_decide_eq_true_2 by done. simpl.
    repeat split; vm_compute; reflexivity.
Qed.

(** ** C4: the score of a text leaf *)

Lemma prefix_is_prefix (a b : string) :
  String.prefix a b = true ↔ is_prefix a b.
Proof.
  revert b. induction a as [|x a IH]; intros b; destruct b as [|y b]; simpl.
  - split; [intros _; by exists EmptyString|done].
  - split; [intros _; by exists (String y b)|done].
  - split; [done|]. intros [c Hc]. done.
  - destruct (Ascii.ascii_dec x y) as [->|Hne].
    + rewrite IH. split.
      * intros [c ->]. by exists c.
      * intros [c [= ->]]. by exists c.
    + split; [done|]. intros [c [= Hxy _]]. congruence.
Qed.

Lemma truthy_spec (s : string) : truthy s = true ↔ s ≠ EmptyString.
Proof. destruct s; simpl; split; congruence. Qed.

(** C4. When the self-node is a text leaf, the comparison with any node of
    the other tree returns a score of 1 if that node is a text leaf too and
    one of the two texts is a prefix of the other, and a score of 0
    otherwise; the matcher's output is the single entry for the self-node. *)
Theorem check_matching_text_leaf (fuel : nat) (self tree : Tree)
    (node_index tree_node_index : nat) (self_node tree_node : Node.t) :
  self !! node_index = Some self_node →
  tree !! tree_node_index = Some tree_node →
  Node.text self_node ≠ EmptyString →
  ∃ score,
    check_matching (S fuel) self tree node_index tree_node_index
      = Ok (score, [(node_index, score)])
    ∧ (score = 1 ↔
       Node.text tree_node ≠ EmptyString
       ∧ (is_prefix (Node.text tree_node) (Node.text self_node)
          ∨ is_prefix (Node.text self_node) (Node.text tree_node)))
    ∧ (score = 0 ∨ score = 1).
Proof.
  intros Hself Htree Htext. simpl.
  rewrite (getitem_lookup _ _ _ Hself), (getitem_lookup _ _ _ Htree). simpl.
  rewrite (proj2 (truthy_spec _) Htext).
  destruct (truthy (Node.text tree_node)
            && (String.prefix (Node.text tree_node) (Node.text self_node)
                || String.prefix (Node.text self_node) (Node.text tree_node)))
    eqn:Hm.
  - exists 1. split; [done|]. split; [|by right].
    split; [intros _|done].
    apply andb_true_iff in Hm as [Ht Hp]. apply orb_true_iff in Hp.
    rewrite truthy_spec in Ht. rewrite !prefix_is_prefix in Hp. done.
  - exists 0. split; [done|]. split; [|by left].
    split; [done|]. intros [Ht Hp].
    rewrite <- truthy_spec in Ht. rewrite <- !prefix_is_prefix in Hp.
    rewrite Ht in Hm. simpl in Hm. apply orb_false_iff in Hm as [H1 H2].
    destruct Hp; congruence.
Qed.

Lemma check_matching_text_leaf_witness :
  ∃ score,
    check_matching 1 [text_node "Hello, World" 0 []] [text_node "Hello" 0 []]
                   0 0 = Ok (score, [(0, score)])
    ∧ (score = 1 ↔
       "Hello" ≠ EmptyString
       ∧ (is_prefix "Hello" "Hello, World" ∨ is_prefix "Hello, World" "Hello"))
    ∧ (score = 0 ∨ score = 1).
Proof.
  apply (check_matching_text_leaf 0 [text_node "Hello, World" 0 []]
           [text_node "Hello" 0 []] 0 0
           (text_node "Hello, World" 0 []) (text_node "Hello" 0 []));
    [reflexivity|reflexivity|discriminate].
Defined.

(** ** Loop invariants *)

Lemma for_each_inv {S X} (I : S → Prop) (body : S → X → result S)
    (xs : list X) (s s' : S) :
  (∀ s x s', x ∈ xs → I s → body s x = Ok s' → I s') →
  I s → for_each body xs s = Ok s' → I s'.
Proof.
  revert s. induction xs as [|x xs IH]; intros s Hbody Hs Hrun; simpl in Hrun.
  - by inv_ok Hrun.
  - inv_ok Hrun. eapply IH; [| |done].
    + intros ??? ?. apply Hbody. by right.
    + eapply Hbody; [by left|done..].
Qed.

Lemma for_break_inv {S X} (I : S → Prop) (body : S → X → result (control S))
    (xs : list X) (s s' : S) :
  (∀ s x c, x ∈ xs → I s → body s x = Ok c → I (control_state c)) →
  I s → for_break body xs s = Ok s' → I s'.
Proof.
  revert s. induction xs as [|x xs IH]; intros s Hbody Hs Hrun; simpl in Hrun.
  - by inv_ok Hrun.
  - inv_ok Hrun. destruct x0 as [s1|s1].
    + eapply IH; [| |done].
      * intros ??? ?. apply Hbody. by right.
      * apply (Hbody s x (Next s1)); [by left|done..].
    + inv_ok Hrun. apply (Hbody s x (Break s')); [by left|done..].
Qed.

Lemma elem_of_xrange (x a b : nat) : x ∈ xrange a b ↔ a ≤ x < b.
Proof. unfold xrange. rewrite elem_of_seq. lia. Qed.

Lemma for_each_Ok {S X} (I : S → Prop) (body : S → X → result S)
    (xs : list X) (s : S) :
  (∀ s x, x ∈ xs → I s → ∃ s', body s x = Ok s' ∧ I s') →
  I s → ∃ s', for_each body xs s = Ok s' ∧ I s'.
Proof.
  revert s. induction xs as [|x xs IH]; intros s Hbody Hs; simpl.
  - by exists s.
  - destruct (Hbody s x) as (s1 & -> & Hs1); [by left|done|]. simpl.
    apply IH; [|done]. intros ?? ?. apply Hbody. by right.
Qed.

Lemma xrange_cons (a b : nat) : a < b → xrange a b = a :: xrange (S a) b.
Proof.
  intros H. unfold xrange. replace (b - a) with (S (b - S a)) by lia. done.
Qed.

Lemma xrange_nil (a b : nat) : b ≤ a → xrange a b = [].
Proof. intros H. unfold xrange. by replace (b - a) with 0 by lia. Qed.

Lemma filter_all {A} (P : A → Prop) `{!∀ x, Decision (P x)} (l : list A) :
  Forall P l → filter P l = l.
Proof.
  induction 1 as [|x l Hx _ IH]; [done|].
  rewrite filter_cons_True by done. by rewrite IH.
Qed.

Lemma NoDup_fst_functional {A B} (l : list (A * B)) (x : A) (y1 y2 : B) :
  NoDup l.*1 → (x, y1) ∈ l → (x, y2) ∈ l → y1 = y2.
Proof.
  induction l as [|[a b] l IH]; intros Hnd H1 H2.
  - by apply elem_of_nil in H1.
  - rewrite fmap_cons in Hnd. apply NoDup_cons in Hnd as [Ha Hnd].
    simpl in Ha.
    apply elem_of_cons in H1 as [H1|H1]; apply elem_of_cons in H2 as [H2|H2];
      simplify_eq.
    + done.
    + exfalso. apply Ha. apply list_elem_of_fmap. by exists (a, y2).
    + exfalso. apply Ha. apply list_elem_of_fmap. by exists (a, y1).
    + by apply IH.
Qed.

(** ** C7: the similarity grouper emits no singleton group *)

Section DictProps.
Variable P : nat → Prop.

(** Every bucket of the dictionary is non-empty and holds only accepted
    candidates. *)
Let buckets_ok (d : Fellows) : Prop :=
  Forall (λ kg : nat * list nat, kg.2 ≠ [] ∧ Forall P kg.2) d.

Lemma setdefault_append_ok (k x : nat) (d : Fellows) :
  P x → buckets_ok d → buckets_ok (setdefault_append k x d).
Proof.
  intros Hx. induction d as [|[k' g] d IH]; intros Hd; simpl.
  - repeat constructor; [done|done].
  - inversion Hd as [|? ? [Hne Hg] Hd']; subst. case_decide.
    + constructor; [|done]. simpl. split.
      * by destruct g.
      * apply Forall_app. split; [done|by constructor].
    + constructor; [done|]. by apply IH.
Qed.

Lemma setdefault_append_nonempty (k x : nat) (d : Fellows) :
  setdefault_append k x d ≠ [].
Proof. destruct d as [|[k' g] d]; simpl; [done|]. by case_decide. Qed.

Lemma largest_group_from (acc : list nat) (groups : list (list nat)) :
  Forall P acc → Forall (Forall P) groups →
  Forall P (foldl (λ fellows group,
                     if length fellows <? length group then group
                     else fellows) acc groups).
Proof.
  revert acc. induction groups as [|g gs IH]; intros acc Hacc Hgs; simpl.
  - done.
  - inversion Hgs; subst. apply IH; [|done]. by case_match.
Qed.

Lemma largest_group_length (acc : list nat) (groups : list (list nat)) :
  length acc ≤ length (foldl (λ fellows group,
                                if length fellows <? length group then group
                                else fellows) acc groups)
  ∧ Forall (λ g, length g
                 ≤ length (foldl (λ fellows group,
                                    if length fellows <? length group
                                    then group else fellows) acc groups))
           groups.
Proof.
  revert acc. induction groups as [|g gs IH]; intros acc; simpl.
  - split; [done|constructor].
  - destruct (Nat.ltb_spec (length acc) (length g)) as [Hlt|Hge].
    + destruct (IH g) as [H1 H2]. split; [lia|]. by constructor.
    + destruct (IH acc) as [H1 H2]. split; [done|].
      constructor; [lia|done].
Qed.
End DictProps.

Section GrouperProps.
Variable dict_values : Fellows → list (list nat).
Hypothesis dict_values_perm : ∀ d, dict_values d ≡ₚ d.*2.

Variables (fuel : nat) (self : Tree) (te : list (nat * nat)).

Lemma scan_fellow_ok (used : gset nat) (index d leaf : nat)
    (st : Fellows * Memo) (compare_index : nat) (c : control (Fellows * Memo)) :
  index < compare_index →
  Forall (λ kg : nat * list nat,
            kg.2 ≠ [] ∧ Forall (partner fuel self te index d leaf) kg.2) st.1 →
  scan_fellow fuel self te used d leaf st compare_index = Ok c →
  Forall (λ kg : nat * list nat,
            kg.2 ≠ [] ∧ Forall (partner fuel self te index d leaf) kg.2)
         (control_state c).1.
Proof.
  intros Hlt Hst Hrun. destruct st as [fellows memo]. unfold scan_fellow in Hrun.
  inv_ok Hrun. destruct x as [cmp_depth cmp_node_index].
  apply getitem_Ok in Hx.
  destruct (Nat.eqb_spec cmp_depth d) as [->|Hne]; simpl in Hrun.
  2: { by inv_ok Hrun. }
  case_bool_decide; [by inv_ok Hrun|].
  inv_ok Hrun. destruct x as [equal memo'].
  destruct equal; [|by inv_ok Hrun].
  inv_ok Hrun. simpl. apply setdefault_append_ok; [|done].
  exists compare_index. split; [done|]. split; [done|]. by exists memo, memo'.
Qed.

Lemma emit_group_ok (index d leaf : nat) (fellows_by_matched_len : Fellows)
    (groups : list (list nat)) (used : gset nat) :
  te !! index = Some (d, leaf) →
  Forall (λ kg : nat * list nat,
            kg.2 ≠ [] ∧ Forall (partner fuel self te index d leaf) kg.2)
         fellows_by_matched_len →
  Forall (proper_group fuel self te) groups →
  Forall (proper_group fuel self te)
         (emit_group dict_values leaf fellows_by_matched_len groups used).1.
Proof.
  intros Hte Hd Hgroups. unfold emit_group.
  destruct fellows_by_matched_len as [|kg rest] eqn:Hdict; [done|].
  rewrite <- Hdict in *. simpl.
  apply Forall_app. split; [done|]. constructor; [|done].
  assert (Forall (λ g, g ≠ [] ∧ Forall (partner fuel self te index d leaf) g)
                 (dict_values fellows_by_matched_len)) as Hvalues.
  { rewrite dict_values_perm. by apply Forall_fmap. }
  exists index, d, leaf, (largest_group (dict_values fellows_by_matched_len)).
  split; [done|]. split; [done|]. split.
  - assert (∃ g, g ∈ dict_values fellows_by_matched_len) as [g Hg].
    { assert (kg.2 ∈ dict_values fellows_by_matched_len) as Hin
        by (rewrite dict_values_perm, Hdict; by left).
      by exists kg.2. }
    destruct (largest_group_length [] (dict_values fellows_by_matched_len))
      as [_ Hlen].
    rewrite Forall_forall in Hlen, Hvalues.
    specialize (Hlen g Hg). destruct (Hvalues g Hg) as [Hne _].
    unfold largest_group. intros Hempty. rewrite Hempty in Hlen.
    destruct g; [done|]. simpl in Hlen. lia.
  - apply largest_group_from; [done|].
    eapply Forall_impl; [exact Hvalues|]. by intros g [_ ?].
Qed.

Lemma group_leaf_ok (st st' : list (list nat) * gset nat * Memo) (index : nat) :
  Forall (proper_group fuel self te) st.1.1 →
  group_leaf dict_values fuel self te st index = Ok st' →
  Forall (proper_group fuel self te) st'.1.1.
Proof.
  destruct st as [[groups used] memo]. intros Hgroups Hrun.
  unfold group_leaf in Hrun. inv_ok Hrun. destruct x as [d leaf].
  apply getitem_Ok in Hx. case_bool_decide; [by inv_ok Hrun|].
  inv_ok Hrun. destruct x as [fellows memo'].
  destruct (emit_group dict_values leaf fellows groups used)
    as [groups' used'] eqn:Hemit.
  inv_ok Hrun. simpl.
  change groups' with (groups', used').1. rewrite <- Hemit.
  eapply emit_group_ok; [done| |done].
  change fellows with (fellows, memo').1.
  eapply (for_break_inv
            (λ s : Fellows * Memo,
               Forall (λ kg : nat * list nat,
                         kg.2 ≠ []
                         ∧ Forall (partner fuel self te index d leaf) kg.2)
                      s.1)); [| |exact Hx0].
  - intros s x c Hin Hs Hstep. apply elem_of_xrange in Hin.
    eapply scan_fellow_ok; [|done|done]. lia.
  - constructor.
Qed.
End GrouperProps.


Lemma values_by_key_perm (d : Fellows) : values_by_key d ≡ₚ d.*2.
Proof. unfold values_by_key. by rewrite merge_sort_Permutation. Qed.


(** ** Well-formed arenas *)

Lemma well_formed_wf (self : Tree) : well_formed self = true → wf self.
Proof.
  unfold well_formed. rewrite andb_true_iff, forallb_forall.
  intros [Hlen Hall]. apply Nat.ltb_lt in Hlen.
  assert (∀ i n, self !! i = Some n → wf_node self i n = true) as Hnode.
  { intros i n Hi. specialize (Hall i). rewrite Hi in Hall. apply Hall.
    apply in_seq. apply lookup_lt_Some in Hi. lia. }
  clear Hall.
  split; [done|..].
  - intros p n c Hp Hc. specialize (Hnode p n Hp). unfold wf_node in Hnode.
    rewrite !andb_true_iff in Hnode. destruct Hnode as [[[Hch _] _] _].
    rewrite forallb_forall in Hch. specialize (Hch c).
    rewrite <- list_elem_of_In in Hch. specialize (Hch Hc).
    apply andb_true_iff in Hch as [Hlt Hpar]. apply Nat.ltb_lt in Hlt.
    split; [done|]. destruct (self !! c) as [m|]; [|done].
    exists m. split; [done|]. by apply Z.eqb_eq.
  - intros p n Hp. specialize (Hnode p n Hp). unfold wf_node in Hnode.
    rewrite !andb_true_iff in Hnode. destruct Hnode as [[[_ Hnd] _] _].
    by apply bool_decide_eq_true in Hnd.
  - intros i n Hi. specialize (Hnode i n Hi). unfold wf_node in Hnode.
    rewrite !andb_true_iff in Hnode. destruct Hnode as [[_ Hpar] _].
    apply orb_true_iff in Hpar as [Hpar|Hpar].
    + left. by apply Z.eqb_eq.
    + right. apply andb_true_iff in Hpar as [H1 H2].
      apply Z.leb_le in H1. apply Z.ltb_lt in H2. done.
  - intros i n Hi Htext. specialize (Hnode i n Hi). unfold wf_node in Hnode.
    rewrite !andb_true_iff in Hnode. destruct Hnode as [_ Hleaf].
    apply orb_true_iff in Hleaf as [Hleaf|Hleaf].
    + apply negb_true_iff in Hleaf. apply truthy_spec in Htext. congruence.
    + by apply bool_decide_eq_true in Hleaf.
Qed.

Lemma children_of_lookup (self : Tree) (p : nat) (n : Node.t) :
  self !! p = Some n → children_of self p = Node.child_indices n.
Proof. intros H. unfold children_of. by rewrite H. Qed.

Lemma wf_child_lt (self : Tree) (p c : nat) :
  wf self → c ∈ children_of self p → p < c < length self.
Proof.
  intros Hwf Hc. unfold children_of in Hc.
  destruct (self !! p) as [n|] eqn:Hp; simpl in Hc; [|by apply elem_of_nil in Hc].
  destruct (wf_child _ Hwf p n c Hp Hc) as [Hlt (m & Hm & _)].
  split; [done|]. by eapply lookup_lt_Some.
Qed.

Lemma wf_child_parent (self : Tree) (p c : nat) (m : Node.t) :
  wf self → c ∈ children_of self p → self !! c = Some m →
  Node.parent_index m = Z.of_nat p.
Proof.
  intros Hwf Hc Hm. unfold children_of in Hc.
  destruct (self !! p) as [n|] eqn:Hp; simpl in Hc; [|by apply elem_of_nil in Hc].
  destruct (wf_child _ Hwf p n c Hp Hc) as [_ (m' & Hm' & Hpar)].
  congruence.
Qed.

(** A child is listed by one node only. *)
Lemma wf_parent_unique (self : Tree) (p q c : nat) :
  wf self → c ∈ children_of self p → c ∈ children_of self q → p = q.
Proof.
  intros Hwf Hp Hq.
  destruct (wf_child_lt _ _ _ Hwf Hp) as [_ Hlen].
  destruct (lookup_lt_is_Some_2 self c Hlen) as [m Hm].
  pose proof (wf_child_parent _ _ _ _ Hwf Hp Hm).
  pose proof (wf_child_parent _ _ _ _ Hwf Hq Hm). lia.
Qed.

Lemma descendant_ge (self : Tree) (a k : nat) :
  wf self → descendant self a k → a ≤ k.
Proof.
  intros Hwf H. induction H as [|p n c _ IH Hp Hc]; [done|].
  destruct (wf_child _ Hwf p n c Hp Hc). lia.
Qed.

Lemma descendant_trans (self : Tree) (a b k : nat) :
  descendant self a b → descendant self b k → descendant self a k.
Proof.
  intros Hab Hbk. induction Hbk as [|p n c _ IH Hp Hc]; [done|].
  by eapply descendant_child.
Qed.

Lemma descendant_of_child (self : Tree) (a c k : nat) (n : Node.t) :
  self !! a = Some n → c ∈ Node.child_indices n → descendant self c k →
  descendant self a k.
Proof.
  intros Ha Hc Hk. eapply descendant_trans; [|done].
  eapply descendant_child; [constructor|done..].
Qed.

Lemma descendant_lt_length (self : Tree) (a k : nat) :
  wf self → a < length self → descendant self a k → k < length self.
Proof.
  intros Hwf Ha H. induction H as [|p n c _ IH Hp Hc]; [done|].
  eapply wf_child_lt; [done|]. by erewrite children_of_lookup.
Qed.

(** A proper descendant lies below one of the children. *)
Lemma descendant_inv (self : Tree) (a k : nat) :
  descendant self a k →
  k = a ∨ ∃ n c, self !! a = Some n ∧ c ∈ Node.child_indices n
                 ∧ descendant self c k.
Proof.
  intros H. induction H as [|p n c Hd IH Hp Hc]; [by left|].
  right. destruct IH as [->|(n' & c' & Ha & Hc' & Hd')].
  - exists n, c. split; [done|]. split; [done|]. constructor.
  - exists n', c'. split; [done|]. split; [done|].
    by eapply descendant_child.
Qed.

(** Subtrees of distinct children of one node are disjoint. *)
Lemma sibling_subtrees_disjoint (self : Tree) (p c c' k : nat) :
  wf self → c ∈ children_of self p → c' ∈ children_of self p →
  descendant self c k → descendant self c' k → c = c'.
Proof.
  intros Hwf Hc Hc' Hk. revert c' Hc'.
  induction Hk as [|q n k Hq IH Hn Hk]; intros c' Hc' Hk'.
  - inversion Hk' as [|q n k' Hq Hn Hk'']; [done|]. subst.
    assert (q = p) as ->.
    { eapply wf_parent_unique; [done| |exact Hc].
      by erewrite children_of_lookup. }
    pose proof (descendant_ge _ _ _ Hwf Hq).
    destruct (wf_child_lt _ _ _ Hwf Hc'). lia.
  - assert (k ∈ children_of self q) as Hkq by by erewrite children_of_lookup.
    inversion Hk' as [|q' n' k' Hq' Hn' Hk'']; subst.
    + assert (q = p) as -> by (eapply wf_parent_unique; done).
      pose proof (descendant_ge _ _ _ Hwf Hq).
      destruct (wf_child_lt _ _ _ Hwf Hc). lia.
    + assert (q' = q) as ->.
      { eapply wf_parent_unique; [done| |exact Hkq].
        by erewrite children_of_lookup. }
      by apply IH.
Qed.

(** Removing children from the lists keeps an arena well formed. *)
Lemma prune_children_lookup (keep : nat → bool) (self : Tree) (i : nat) :
  prune_children keep self !! i =
    (λ n, Node.set_child_indices
            (filter (λ c, keep c = true) (Node.child_indices n)) n)
      <$> self !! i.
Proof. unfold prune_children. apply list_lookup_fmap. Qed.

Lemma prune_children_children_of (keep : nat → bool) (self : Tree) (i : nat) :
  children_of (prune_children keep self) i
  = filter (λ c, keep c = true) (children_of self i).
Proof.
  unfold children_of. rewrite prune_children_lookup.
  by destruct (self !! i).
Qed.

Lemma prune_children_wf (keep : nat → bool) (self : Tree) :
  wf self → wf (prune_children keep self).
Proof.
  intros Hwf. split.
  - unfold prune_children. rewrite length_fmap. by apply wf_root.
  - intros p n c Hp Hc. rewrite prune_children_lookup in Hp.
    destruct (self !! p) as [n0|] eqn:Hp0; simplify_eq/=.
    apply list_elem_of_filter in Hc as [_ Hc].
    destruct (wf_child _ Hwf p n0 c Hp0 Hc) as [Hlt (m & Hm & Hpar)].
    split; [done|]. eexists. rewrite prune_children_lookup, Hm. done.
  - intros p n Hp. rewrite prune_children_lookup in Hp.
    destruct (self !! p) as [n0|] eqn:Hp0; simplify_eq/=.
    apply NoDup_filter. by eapply wf_nodup.
  - intros i n Hi. rewrite prune_children_lookup in Hi.
    destruct (self !! i) as [n0|] eqn:Hi0; simplify_eq/=.
    by eapply wf_parent.
  - intros i n Hi Htext. rewrite prune_children_lookup in Hi.
    destruct (self !! i) as [n0|] eqn:Hi0; simplify_eq/=.
    by rewrite (wf_leaf _ Hwf i n0 Hi0 Htext).
Qed.

Lemma prune_children_all (self : Tree) : prune_children (λ _, true) self = self.
Proof.
  unfold prune_children. rewrite <- (list_fmap_id self) at 2.
  apply list_fmap_ext. intros i [] _. unfold Node.set_child_indices. simpl.
  f_equal. induction child_indices as [|c cs IH]; [done|].
  rewrite filter_cons_True by done. by rewrite IH.
Qed.

(** ** Counting text nodes, as a function *)

Lemma text_count_from_stable (self : Tree) :
  wf self → ∀ f g i,
  length self - i ≤ f → length self - i ≤ g →
  text_count_from f self i = text_count_from g self i.
Proof.
  intros Hwf f. induction f as [|f IH]; intros g i Hf Hg.
  - assert (self !! i = None) as Hi by (apply lookup_ge_None; lia).
    destruct g; simpl; [done|by rewrite Hi].
  - destruct g as [|g].
    + assert (self !! i = None) as Hi by (apply lookup_ge_None; lia).
      simpl. by rewrite Hi.
    + simpl. destruct (self !! i) as [n|] eqn:Hi; [|done].
      destruct (truthy (Node.text n)); [done|]. f_equal.
      apply list_fmap_ext. intros k c Hc.
      assert (c ∈ children_of self i) as Hin.
      { erewrite children_of_lookup by done. by eapply list_elem_of_lookup_2. }
      destruct (wf_child_lt _ _ _ Hwf Hin). apply IH; lia.
Qed.

Lemma text_count_unfold (self : Tree) (i : nat) (n : Node.t) :
  wf self → self !! i = Some n →
  text_count self i =
    if truthy (Node.text n) then 1
    else sum_list (text_count self <$> Node.child_indices n).
Proof.
  intros Hwf Hi. unfold text_count.
  pose proof (lookup_lt_Some _ _ _ Hi) as Hlt.
  destruct (length self - i) as [|f] eqn:Hf; [lia|].
  simpl. rewrite Hi. destruct (truthy (Node.text n)); [done|]. f_equal.
  apply list_fmap_ext. intros k c Hc.
  assert (c ∈ children_of self i) as Hin.
  { erewrite children_of_lookup by done. by eapply list_elem_of_lookup_2. }
  destruct (wf_child_lt _ _ _ Hwf Hin).
  apply text_count_from_stable; [done|lia|lia].
Qed.

(** ** The matcher's output has the shape [matches] *)

Lemma matches_children_snoc (self : Tree) (cs : list nat) (s : nat)
    (m : Matching) (c : nat) :
  matches_children self cs s m →
  matches_children self (cs ++ [c]) s m
  ∧ (∀ sc mc, 0 < sc → matches self c sc mc →
       matches_children self (cs ++ [c]) (s + sc) (m ++ mc)).
Proof.
  induction 1 as [|c' cs s m H IH|c' cs sc' mc' s m Hpos Hc' H IH]; simpl.
  - split.
    + apply matches_skip, matches_nil.
    + intros sc mc Hsc Hmc.
      replace sc with (sc + 0) by lia. rewrite <- (app_nil_r mc).
      apply matches_pick; [done|done|apply matches_nil].
  - destruct IH as [IH1 IH2]. split.
    + by apply matches_skip.
    + intros sc mc Hsc Hmc. apply matches_skip. by apply IH2.
  - destruct IH as [IH1 IH2]. split.
    + by apply matches_pick.
    + intros sc mc Hsc Hmc.
      rewrite <- Nat.add_assoc, <- app_assoc. apply matches_pick; [done..|].
      by apply IH2.
Qed.

Section MatcherShape.
Variables (self tree : Tree).
Variable rec : nat → nat → result (nat * Matching).
Hypothesis rec_matches :
  ∀ i j s m, rec i j = Ok (s, m) → matches self i s m.

Lemma scan_candidate_shape (self_child : Node.t) (c : nat)
    (tree_childs : list nat) (xs : list nat) (best best' : Best) :
  (best.1.1 = (-1)%Z ∧ best.1.2 = 0 ∧ best.2 = []
   ∨ (0 ≤ best.1.1)%Z ∧ 0 < best.1.2 ∧ matches self c best.1.2 best.2) →
  for_each (scan_candidate rec tree self_child c tree_childs) xs best
    = Ok best' →
  best'.1.1 = (-1)%Z ∧ best'.1.2 = 0 ∧ best'.2 = []
  ∨ (0 ≤ best'.1.1)%Z ∧ 0 < best'.1.2 ∧ matches self c best'.1.2 best'.2.
Proof.
  intros Hbest Hrun.
  eapply (for_each_inv
            (λ b : Best,
               b.1.1 = (-1)%Z ∧ b.1.2 = 0 ∧ b.2 = []
               ∨ (0 ≤ b.1.1)%Z ∧ 0 < b.1.2 ∧ matches self c b.1.2 b.2));
    [|exact Hbest|exact Hrun].
  intros [[pos bm] bmm] x b' _ Hb Hstep. simpl in *.
  unfold scan_candidate in Hstep. inv_ok Hstep.
  destruct (check_tag_match self_child x1); [|by inv_ok Hstep].
  inv_ok Hstep. destruct x2 as [matched matching].
  destruct (Nat.ltb_spec bm matched) as [Hlt|Hge]; inv_ok Hstep; [|done].
  right. simpl. split; [lia|]. split; [lia|]. by eapply rec_matches.
Qed.

Lemma match_child_shape (tree_childs : list nat) (cs : list nat)
    (done_ : list nat) (st st' : Scan) (s : nat) (m : Matching) :
  matches_children self done_ s m →
  for_each (match_child rec self tree tree_childs) cs st = Ok st' →
  ∃ s' m', matches_children self (done_ ++ cs) (s + s') (m ++ m')
           ∧ st'.1.2 = st.1.2 + s' ∧ st'.2 = st.2 ++ m'.
Proof.
  revert done_ st s m. induction cs as [|c cs IH]; intros done_ st s m Hdone Hrun.
  - simpl in Hrun. inv_ok Hrun. exists 0, [].
    rewrite !app_nil_r, !Nat.add_0_r. done.
  - simpl in Hrun. inv_ok Hrun. rename x into st1.
    destruct st as [[start_pos total] sub]. unfold match_child in Hx.
    inv_ok Hx. destruct x0 as [[pos best] bm].
    apply scan_candidate_shape in Hx1; [|by left]. simpl in Hx1.
    destruct (matches_children_snoc _ _ _ _ c Hdone) as [Hskip Hpick].
    destruct (Z.ltb_spec (-1) pos) as [Hpos|Hneg]; inv_ok Hx.
    + destruct Hx1 as [[? _]|(_ & Hbest & Hbm)]; [lia|].
      specialize (Hpick _ _ Hbest Hbm).
      destruct (IH _ _ _ _ Hpick Hrun) as (s' & m' & Hall & Hs' & Hm').
      exists (best + s'), (bm ++ m'). simpl in *.
      rewrite <- app_assoc in Hall. simpl in Hall.
      rewrite Nat.add_assoc, app_assoc. split; [done|]. split; [lia|].
      by rewrite Hm', app_assoc.
    + destruct (IH _ _ _ _ Hskip Hrun) as (s' & m' & Hall & Hs' & Hm').
      exists s', m'. rewrite <- app_assoc in Hall. done.
Qed.
End MatcherShape.

Lemma check_matching_matches (fuel : nat) (self tree : Tree) :
  ∀ i j s m, check_matching fuel self tree i j = Ok (s, m) → matches self i s m.
Proof.
  induction fuel as [|fuel IH]; intros i j s m Hrun; [done|].
  simpl in Hrun. inv_ok Hrun. rename x into self_node, x0 into tree_node.
  apply getitem_Ok in Hx.
  destruct (truthy (Node.text self_node)) eqn:Htext.
  - apply truthy_spec in Htext.
    destruct (_ && _); inv_ok Hrun; (eapply matches_text; [done|done|lia]).
  - inv_ok Hrun. destruct x as [[cursor total] sub]. inv_ok Hrun.
    eapply matches_block; [done| |].
    + destruct (Node.text self_node); [done|discriminate].
    + destruct (match_child_shape self tree _ IH _ _ [] _ _ 0 []
                  (matches_nil self) Hx1) as (s' & m' & Hall & Hs' & Hm').
      simpl in *. by subst.
Qed.

(** ** What the shape gives *)

Lemma matches_head (self : Tree) (i s : nat) (m : Matching) :
  matches self i s m → ∃ m', m = (i, s) :: m'.
Proof. inversion 1; subst; by eexists. Qed.

Lemma sum_list_filter_le (f : nat → nat) (keep : nat → bool) (c : nat)
    (cs : list nat) :
  sum_list (f <$> filter (λ c, keep c = true) cs)
  ≤ sum_list (f <$> filter (λ c, keep c = true) (c :: cs)).
Proof.
  destruct (keep c) eqn:Hc.
  - rewrite filter_cons_True by done. rewrite fmap_cons.
    change (sum_list (f c :: ?l)) with (f c + sum_list l). lia.
  - rewrite filter_cons_False by congruence. done.
Qed.

(** The entries of an output: the first is the node's own; the others have a
    positive score and lie strictly below; every entry stays connected to
    the node, with its score bounded by the text nodes left below it, in any
    arena obtained by removing children that have no entry. *)
Lemma matches_shape (self : Tree) :
  wf self →
  (∀ i s m, matches self i s m →
     (∀ k sk, (k, sk) ∈ m → (k = i → sk = s) ∧ (k ≠ i → 0 < sk ∧ i < k))
     ∧ ∀ keep, (∀ k sk, (k, sk) ∈ m → k ≠ i → keep k = true) →
       ∀ k sk, (k, sk) ∈ m →
         descendant (prune_children keep self) i k
         ∧ sk ≤ text_count (prune_children keep self) k)
  ∧ (∀ cs s m, matches_children self cs s m →
       ∀ p n, self !! p = Some n → (∀ c, c ∈ cs → c ∈ Node.child_indices n) →
       (∀ k sk, (k, sk) ∈ m → 0 < sk ∧ p < k)
       ∧ ∀ keep, (∀ k sk, (k, sk) ∈ m → keep k = true) →
         s ≤ sum_list (text_count (prune_children keep self)
                         <$> filter (λ c, keep c = true) cs)
         ∧ ∀ k sk, (k, sk) ∈ m →
             sk ≤ text_count (prune_children keep self) k
             ∧ ∃ c, c ∈ cs ∧ keep c = true
                    ∧ descendant (prune_children keep self) c k).
Proof.
  intros Hwf. apply matches_mutind.
  - (* a text node *)
    intros i n s Hi Htext Hs. split.
    + intros k sk Hk. apply list_elem_of_singleton in Hk. simplify_eq. done.
    + intros keep _ k sk Hk. apply list_elem_of_singleton in Hk. simplify_eq.
      split; [constructor|].
      erewrite text_count_unfold;
        [|by apply prune_children_wf|by rewrite prune_children_lookup, Hi].
      simpl. by rewrite (proj2 (truthy_spec _) Htext).
  - (* a block node *)
    intros i n s m Hi Htext _ IH.
    destruct (IH i n Hi (λ c Hc, Hc)) as [Hidx Hkeep]. split.
    + intros k sk Hk. apply elem_of_cons in Hk as [?|Hk]; simplify_eq.
      * done.
      * destruct (Hidx k sk Hk). split; [lia|done].
    + intros keep Hk0 k sk Hk.
      assert (∀ k sk, (k, sk) ∈ m → keep k = true) as Hk1.
      { intros k' sk' Hk'. apply (Hk0 k' sk'); [by right|].
        destruct (Hidx k' sk' Hk'). lia. }
      destruct (Hkeep keep Hk1) as [Hsum Hentries].
      assert (prune_children keep self !! i
              = Some (Node.set_child_indices
                        (filter (λ c, keep c = true) (Node.child_indices n)) n))
        as Hi' by by rewrite prune_children_lookup, Hi.
      apply elem_of_cons in Hk as [?|Hk]; simplify_eq.
      * split; [constructor|].
        erewrite text_count_unfold; [|by apply prune_children_wf|exact Hi'].
        simpl. by rewrite Htext.
      * destruct (Hentries k sk Hk) as [Hle (c & Hc & Hkc & Hd)].
        split; [|done].
        eapply descendant_of_child; [exact Hi'| |exact Hd].
        simpl. apply list_elem_of_filter. done.
  - (* no child *)
    intros p n Hp Hcs. split.
    + intros k sk Hk. by apply elem_of_nil in Hk.
    + intros keep _. split; [done|]. intros k sk Hk. by apply elem_of_nil in Hk.
  - (* a child without a candidate *)
    intros c cs s m _ IH p n Hp Hcs.
    destruct (IH p n Hp) as [Hidx Hkeep].
    { intros c' Hc'. apply Hcs. by right. }
    split; [done|]. intros keep Hk.
    destruct (Hkeep keep Hk) as [Hsum Hentries]. split.
    + etrans; [exact Hsum|]. apply sum_list_filter_le.
    + intros k sk Hin. destruct (Hentries k sk Hin) as [Hle (c' & Hc' & ? & ?)].
      split; [done|]. exists c'. split; [by right|done].
  - (* a child with a candidate *)
    intros c cs sc mc s m Hsc Hmc [IHidx IHkeep] _ IH p n Hp Hcs.
    destruct (IH p n Hp) as [Hidx Hkeep].
    { intros c' Hc'. apply Hcs. by right. }
    destruct (matches_head _ _ _ _ Hmc) as [mc' ->].
    assert (p < c) as Hpc.
    { assert (c ∈ children_of self p) as Hin.
      { erewrite children_of_lookup by done. apply Hcs. by left. }
      by destruct (wf_child_lt _ _ _ Hwf Hin). }
    split.
    + intros k sk Hk. apply elem_of_app in Hk as [Hk|Hk].
      * destruct (IHidx k sk Hk) as [H1 H2].
        destruct (decide (k = c)) as [->|Hne].
        -- rewrite (H1 eq_refl). done.
        -- destruct (H2 Hne). split; [done|lia].
      * by apply Hidx.
    + intros keep Hk.
      assert (keep c = true) as Hc.
      { apply (Hk c sc). apply elem_of_app. left. by left. }
      destruct (Hkeep keep) as [Hsum Hentries].
      { intros k sk Hin. apply (Hk k sk). apply elem_of_app. by right. }
      assert (∀ k sk, (k, sk) ∈ (c, sc) :: mc' →
                descendant (prune_children keep self) c k
                ∧ sk ≤ text_count (prune_children keep self) k) as Hmine.
      { apply IHkeep. intros k sk Hin _. apply (Hk k sk).
        apply elem_of_app. by left. }
      split.
      * rewrite filter_cons_True by done. rewrite fmap_cons.
        change (sum_list (?x :: ?l)) with (x + sum_list l).
        destruct (Hmine c sc) as [_ Hle]; [by left|]. lia.
      * intros k sk Hin. apply elem_of_app in Hin as [Hin|Hin].
        -- destruct (Hmine k sk Hin) as [Hd Hle]. split; [done|].
           exists c. split; [by left|done].
        -- destruct (Hentries k sk Hin) as [Hle (c' & Hc' & ? & ?)].
           split; [done|]. exists c'. split; [by right|done].
Qed.

Lemma matches_entries (self : Tree) (i s : nat) (m : Matching) :
  wf self → matches self i s m →
  ∀ k sk, (k, sk) ∈ m →
    descendant self i k ∧ sk ≤ text_count self k
    ∧ (k = i → sk = s) ∧ (k ≠ i → 0 < sk ∧ i < k).
Proof.
  intros Hwf Hm k sk Hk.
  destruct (proj1 (matches_shape self Hwf) i s m Hm) as [Hidx Hkeep].
  specialize (Hkeep (λ _, true) (λ _ _ _ _, eq_refl) k sk Hk).
  rewrite prune_children_all in Hkeep. destruct (Hidx k sk Hk). tauto.
Qed.

(** No node has two entries. *)
Lemma matches_NoDup (self : Tree) :
  wf self →
  (∀ i s m, matches self i s m → NoDup m.*1)
  ∧ (∀ cs s m, matches_children self cs s m →
       ∀ p n, self !! p = Some n → (∀ c, c ∈ cs → c ∈ Node.child_indices n) →
       NoDup cs → NoDup m.*1).
Proof.
  intros Hwf. apply matches_mutind.
  - intros. simpl. apply NoDup_singleton.
  - intros i n s m Hi Htext Hm IH. simpl. apply NoDup_cons. split.
    + intros Hin. apply list_elem_of_fmap in Hin as ([k sk] & Heq & Hin).
      destruct (proj2 (matches_shape self Hwf) _ _ _ Hm i n Hi (λ c Hc, Hc))
        as [Hidx _].
      destruct (Hidx k sk Hin). simpl in *. lia.
    + apply (IH i n Hi); [done|]. by eapply wf_nodup.
  - intros. constructor.
  - intros c cs s m _ IH p n Hp Hcs Hnd. apply (IH p n Hp).
    + intros c' Hc'. apply Hcs. by right.
    + by apply NoDup_cons in Hnd as [_ ?].
  - intros c cs sc mc s m Hsc Hmc IHc Hm IH p n Hp Hcs Hnd.
    apply NoDup_cons in Hnd as [Hc Hnd].
    rewrite fmap_app. apply NoDup_app. split; [done|]. split.
    + intros k Hk1 Hk2.
      apply list_elem_of_fmap in Hk1 as ([k1 sk1] & -> & Hk1).
      apply list_elem_of_fmap in Hk2 as ([k2 sk2] & Heq & Hk2).
      simpl in *. subst k2.
      destruct (matches_entries _ _ _ _ Hwf Hmc k1 sk1 Hk1) as [Hd1 _].
      destruct (proj2 (matches_shape self Hwf) _ _ _ Hm p n Hp) as [_ Hkeep].
      { intros c' Hc'. apply Hcs. by right. }
      destruct (Hkeep (λ _, true) (λ _ _ _, eq_refl)) as [_ Hentries].
      destruct (Hentries k1 sk2 Hk2) as [_ (c' & Hc' & _ & Hd2)].
      rewrite prune_children_all in Hd2.
      assert (c = c'); [|by subst].
      eapply (sibling_subtrees_disjoint self p); [done| | |done|done].
      * erewrite children_of_lookup by done. apply Hcs. by left.
      * erewrite children_of_lookup by done. apply Hcs. by right.
    + apply (IH p n Hp); [|done]. intros c' Hc'. apply Hcs. by right.
Qed.

(** ** The matcher returns *)

Lemma wf_lookup_child (self : Tree) (p c : nat) (n : Node.t) :
  wf self → self !! p = Some n → c ∈ Node.child_indices n →
  p < c ∧ ∃ m, self !! c = Some m.
Proof.
  intros Hwf Hp Hc. destruct (wf_child _ Hwf p n c Hp Hc) as [? (m & ? & _)].
  eauto.
Qed.

Lemma check_matching_total (self tree : Tree) :
  wf self → wf tree →
  ∀ fuel i j, i < length self → j < length tree → length self - i ≤ fuel →
  ∃ s m, check_matching fuel self tree i j = Ok (s, m).
Proof.
  intros Hwf Hwft fuel. induction fuel as [|fuel IH]; intros i j Hi Hj Hfuel.
  { lia. }
  destruct (lookup_lt_is_Some_2 self i Hi) as [n Hn].
  destruct (lookup_lt_is_Some_2 tree j Hj) as [nt Hnt].
  simpl. rewrite (getitem_lookup _ _ _ Hn), (getitem_lookup _ _ _ Hnt). simpl.
  destruct (truthy (Node.text n)).
  { destruct (_ && _); eauto. }
  destruct (for_each_Ok (λ _, True)
              (match_child (check_matching fuel self tree) self tree
                           (Node.child_indices nt))
              (Node.child_indices n) (0, 0, [])) as (st & -> & _); [|done|].
  2: { destruct st as [[? ?] ?]. simpl. eauto. }
  intros [[start_pos total] sub] c Hc _.
  destruct (wf_lookup_child _ _ _ _ Hwf Hn Hc) as [Hic [nc Hnc]].
  unfold match_child. rewrite (getitem_lookup _ _ _ Hnc). simpl.
  destruct (for_each_Ok (λ _, True)
              (scan_candidate (check_matching fuel self tree) tree nc c
                              (Node.child_indices nt))
              (xrange start_pos (length (Node.child_indices nt)))
              ((-1)%Z, 0, [])) as (best & -> & _); [|done|].
  2: { destruct best as [[pos bm] bmm]. simpl.
       destruct (_ <? _)%Z; eauto. }
  intros [[pos bm] bmm] x Hx _. apply elem_of_xrange in Hx.
  destruct (lookup_lt_is_Some_2 (Node.child_indices nt) x) as [ct Hct]; [lia|].
  unfold scan_candidate. rewrite (getitem_lookup _ _ _ Hct). simpl.
  destruct (wf_lookup_child _ _ _ _ Hwft Hnt
              (list_elem_of_lookup_2 _ _ _ Hct)) as [_ [nct Hnct]].
  rewrite (getitem_lookup _ _ _ Hnct). simpl.
  destruct (check_tag_match nc nct); [|eauto].
  destruct (IH c ct) as (s & m & ->).
  - by eapply lookup_lt_Some.
  - by eapply lookup_lt_Some.
  - lia.
  - simpl. destruct (bm <? s); eauto.
Qed.

(** ** Matching an arena against itself *)

Lemma check_tag_match_refl (n : Node.t) : check_tag_match n n = true.
Proof.
  apply check_tag_match_iff. split; [done|].
  destruct (Node.style_classes n) as [|c cs]; [left; simpl; lia|].
  right. exists c. split; by left.
Qed.

Lemma prefix_refl (s : string) : String.prefix s s = true.
Proof.
  apply prefix_is_prefix. exists EmptyString.
  induction s as [|c s IH]; [done|].
  change (String c s +:+ "") with (String c (s +:+ "")). by f_equal.
Qed.

Section SelfMatch.
Variable self : Tree.
Hypothesis self_wf : wf self.
Hypothesis self_pruned :
  ∀ p c, c ∈ children_of self p → 0 < text_count self c.

(** The scan of one child against the children of the same node, with the
    cursor on the child itself: the child is its own best candidate. *)
Lemma scan_self (fuel : nat) (cs pre suf : list nat) (c : nat) (nc : Node.t)
    (mc : Matching) (p : nat) :
  cs = pre ++ c :: suf → children_of self p = cs → self !! c = Some nc →
  length self - c ≤ fuel →
  check_matching fuel self self c c = Ok (text_count self c, mc) →
  for_each (scan_candidate (check_matching fuel self self) self nc c cs)
           (xrange (length pre) (length cs)) ((-1)%Z, 0, [])
  = Ok (Z.of_nat (length pre), text_count self c, mc).
Proof.
  intros Hcs Hp Hnc Hfuel Hself.
  assert (c ∈ children_of self p) as Hc.
  { rewrite Hp, Hcs. apply elem_of_app. right. by left. }
  pose proof (self_pruned p c Hc) as Hpos.
  assert (cs !! length pre = Some c) as Hq.
  { rewrite Hcs. by apply list_lookup_middle. }
  rewrite xrange_cons by (by eapply lookup_lt_Some). simpl.
  unfold scan_candidate at 1.
  rewrite (getitem_lookup _ _ _ Hq). simpl.
  rewrite (getitem_lookup _ _ _ Hnc). simpl.
  rewrite check_tag_match_refl, Hself. simpl.
  rewrite (proj2 (Nat.ltb_lt _ _) Hpos).
  destruct (for_each_Ok (λ b, b = (Z.of_nat (length pre), text_count self c, mc))
              (scan_candidate (check_matching fuel self self) self nc c cs)
              (xrange (S (length pre)) (length cs))
              (Z.of_nat (length pre), text_count self c, mc))
    as (b & Hb & ->); [|done|done].
  intros b x Hx ->. apply elem_of_xrange in Hx.
  destruct (lookup_lt_is_Some_2 cs x) as [ct Hct]; [lia|].
  assert (ct ∈ children_of self p) as Hctp.
  { rewrite Hp. by eapply list_elem_of_lookup_2. }
  destruct (wf_child_lt _ _ _ self_wf Hctp) as [_ Hctlen].
  destruct (lookup_lt_is_Some_2 self ct Hctlen) as [nct Hnct].
  unfold scan_candidate. rewrite (getitem_lookup _ _ _ Hct). simpl.
  rewrite (getitem_lookup _ _ _ Hnct). simpl.
  destruct (check_tag_match nc nct); [|eauto].
  destruct (check_matching_total self self self_wf self_wf fuel c ct)
    as (s & m & Hrun); [by eapply lookup_lt_Some|done|lia|].
  rewrite Hrun. simpl.
  pose proof (check_matching_matches _ _ _ _ _ _ _ Hrun) as Hm.
  destruct (matches_head _ _ _ _ Hm) as [m' ->].
  destruct (matches_entries _ _ _ _ self_wf Hm c s) as (_ & Hle & _);
    [by left|].
  destruct (Nat.ltb_spec (text_count self c) s); [lia|eauto].
Qed.

Lemma match_children_self (fuel : nat) (p : nat) (cs : list nat) :
  children_of self p = cs →
  (∀ c, c ∈ cs → length self - c ≤ fuel
                 ∧ ∃ m, check_matching fuel self self c c
                        = Ok (text_count self c, m)
                        ∧ ∀ k, descendant self c k → k ∈ m.*1) →
  ∀ suf pre total sub, cs = pre ++ suf →
  ∃ st, for_each (match_child (check_matching fuel self self) self self cs)
                 suf (length pre, total, sub) = Ok st
        ∧ st.1.2 = total + sum_list (text_count self <$> suf)
        ∧ (∀ k, k ∈ sub.*1 → k ∈ st.2.*1)
        ∧ (∀ c k, c ∈ suf → descendant self c k → k ∈ st.2.*1).
Proof.
  intros Hp Hrec suf. induction suf as [|c suf IH]; intros pre total sub Hcs.
  - eexists. split; [done|]. simpl. split; [lia|]. split; [done|].
    intros c k Hc. by apply elem_of_nil in Hc.
  - assert (c ∈ cs) as Hc by (rewrite Hcs; apply elem_of_app; right; by left).
    destruct (Hrec c Hc) as [Hfuel (mc & Hself & Hdesc)].
    assert (c ∈ children_of self p) as Hcp by by rewrite Hp.
    destruct (wf_child_lt _ _ _ self_wf Hcp) as [_ Hclen].
    destruct (lookup_lt_is_Some_2 self c Hclen) as [nc Hnc].
    simpl. unfold match_child at 1.
    rewrite (getitem_lookup _ _ _ Hnc). simpl.
    rewrite (scan_self fuel cs pre suf c nc mc p Hcs Hp Hnc Hfuel Hself). simpl.
    replace (-1 <? Z.of_nat (length pre))%Z with true
      by (symmetry; apply Z.ltb_lt; lia).
    replace (Z.to_nat (Z.of_nat (length pre) + 1)) with (length (pre ++ [c]))
      by (rewrite length_app; simpl; lia).
    destruct (IH (pre ++ [c]) (total + text_count self c) (sub ++ mc))
      as (st & Hst & Htot & Hsub & Hsuf).
    { by rewrite <- app_assoc. }
    exists st. split; [done|]. split.
    { rewrite Htot.
      change (list_fmap nat nat (text_count self) suf)
        with (text_count self <$> suf). lia. }
    split.
    + intros k Hk. apply Hsub. rewrite fmap_app. apply elem_of_app. by left.
    + intros c' k Hc' Hk. apply elem_of_cons in Hc' as [->|Hc'].
      * apply Hsub. rewrite fmap_app. apply elem_of_app. right. by apply Hdesc.
      * by eapply Hsuf.
Qed.

(** Matched against itself, a pruned arena scores every text node, and the
    output has an entry for every node of the subtree. *)
Lemma check_matching_self (fuel i : nat) :
  i < length self → length self - i ≤ fuel →
  ∃ m, check_matching fuel self self i i = Ok (text_count self i, m)
       ∧ ∀ k, descendant self i k → k ∈ m.*1.
Proof.
  revert i. induction fuel as [|fuel IH]; intros i Hi Hfuel; [lia|].
  destruct (lookup_lt_is_Some_2 self i Hi) as [n Hn].
  simpl. rewrite (getitem_lookup _ _ _ Hn). simpl.
  rewrite (text_count_unfold _ _ _ self_wf Hn).
  destruct (truthy (Node.text n)) eqn:Htext.
  - rewrite prefix_refl. simpl. eexists. split; [done|].
    intros k Hk. apply descendant_inv in Hk as [->|(n' & c & Hn' & Hc & _)].
    + simpl. by left.
    + rewrite Hn in Hn'. injection Hn' as <-. apply truthy_spec in Htext.
      rewrite (wf_leaf _ self_wf i n Hn Htext) in Hc. by apply elem_of_nil in Hc.
  - destruct (match_children_self fuel i (Node.child_indices n)
                (children_of_lookup _ _ _ Hn)) with
      (suf := Node.child_indices n) (pre := @nil nat) (total := 0)
      (sub := @nil (nat * nat)) as (st & Hst & Htot & _ & Hdesc); [|done|].
    { intros c Hc.
      destruct (wf_lookup_child _ _ _ _ self_wf Hn Hc) as [Hic [nc Hnc]].
      split; [lia|]. apply IH; [by eapply lookup_lt_Some|lia]. }
    simpl in Hst. rewrite Hst. destruct st as [[cursor total] sub]. simpl in *.
    subst total. eexists. split; [done|].
    intros k Hk. apply descendant_inv in Hk as [->|(n' & c & Hn' & Hc & Hk)].
    + simpl. by left.
    + rewrite Hn in Hn'. injection Hn' as <-. simpl. right. by eapply Hdesc.
Qed.
End SelfMatch.

(** ** Unlinking *)

Lemma remove_first_NoDup (k : nat) (l : list nat) :
  NoDup l → k ∈ l →
  remove_first k l = Ok (filter (λ c, negb (c =? k) = true) l).
Proof.
  induction l as [|y l IH]; intros Hnd Hk; [by apply elem_of_nil in Hk|].
  apply NoDup_cons in Hnd as [Hy Hnd]. simpl. case_decide as Hyk.
  - subst y. rewrite filter_cons_False by (rewrite Nat.eqb_refl; auto).
    f_equal. symmetry. apply filter_all, Forall_forall.
    intros c Hc. apply negb_true_iff, Nat.eqb_neq. congruence.
  - apply elem_of_cons in Hk as [->|Hk]; [done|].
    rewrite IH by done. simpl.
    rewrite filter_cons_True; [done|].
    by apply negb_true_iff, Nat.eqb_neq.
Qed.

Lemma set_child_indices_id (n : Node.t) :
  Node.set_child_indices (Node.child_indices n) n = n.
Proof. by destruct n. Qed.

Lemma prune_children_ext (f g : nat → bool) (t : Tree) :
  (∀ c, f c = g c) → prune_children f t = prune_children g t.
Proof.
  intros Hfg. unfold prune_children. apply list_fmap_ext. intros i n _.
  f_equal. apply list_filter_iff. intros c. by rewrite Hfg.
Qed.

Lemma prune_children_compose (f g : nat → bool) (t : Tree) :
  prune_children f (prune_children g t) = prune_children (λ c, g c && f c) t.
Proof.
  unfold prune_children. rewrite <- list_fmap_compose.
  apply list_fmap_ext. intros i n _. simpl. unfold Node.set_child_indices.
  simpl. f_equal. rewrite list_filter_filter. apply list_filter_iff.
  intros c. rewrite andb_true_iff. tauto.
Qed.

(** Removing a node that no list holds changes nothing. *)
Lemma prune_children_unlisted (t : Tree) (k : nat) :
  (∀ p, k ∉ children_of t p) →
  prune_children (λ c, negb (c =? k)) t = t.
Proof.
  intros Hk. unfold prune_children. rewrite <- (list_fmap_id t) at 2.
  apply list_fmap_ext. intros i n Hn. simpl.
  rewrite filter_all; [apply set_child_indices_id|].
  apply Forall_forall. intros c Hc. apply negb_true_iff, Nat.eqb_neq.
  intros ->. apply (Hk i). by erewrite children_of_lookup.
Qed.

(** The index of a parent, read from a node. *)
Lemma wf_parent_lookup (t : Tree) (k : nat) (nk : Node.t) :
  wf t → t !! k = Some nk → (-1 < Node.parent_index nk)%Z →
  ∃ np, getitemZ t (Node.parent_index nk) = Ok np
        ∧ t !! Z.to_nat (Node.parent_index nk) = Some np
        ∧ Z.to_nat (Node.parent_index nk) < k.
Proof.
  intros Hwf Hk Hpar.
  destruct (wf_parent _ Hwf k nk Hk) as [?|[H0 Hlt]]; [lia|].
  assert (Z.to_nat (Node.parent_index nk) < length t) as Hlen.
  { apply lookup_lt_Some in Hk. lia. }
  destruct (lookup_lt_is_Some_2 _ _ Hlen) as [np Hnp].
  exists np. rewrite getitemZ_nonneg by done.
  split; [by apply getitem_lookup|]. split; [done|lia].
Qed.

(** A node is listed, if at all, by the node its [parent_index] names. *)
Lemma wf_listed_by_parent (t : Tree) (k q : nat) (nk : Node.t) :
  wf t → t !! k = Some nk → k ∈ children_of t q →
  Node.parent_index nk = Z.of_nat q.
Proof. intros Hwf Hk Hq. by eapply wf_child_parent. Qed.

Lemma unlink_listed (t : Tree) (k : nat) (nk : Node.t) :
  wf t → t !! k = Some nk → (-1 < Node.parent_index nk)%Z →
  k ∈ children_of t (Z.to_nat (Node.parent_index nk)) →
  unlink t (Node.parent_index nk) k
  = Ok (prune_children (λ c, negb (c =? k)) t).
Proof.
  intros Hwf Hk Hpar Hlisted.
  destruct (wf_parent_lookup _ _ _ Hwf Hk Hpar) as (np & Hget & Hnp & Hlt).
  unfold unlink. rewrite Hget. simpl.
  rewrite (children_of_lookup _ _ _ Hnp) in Hlisted.
  rewrite (remove_first_NoDup _ _ (wf_nodup _ Hwf _ _ Hnp) Hlisted). simpl.
  f_equal. replace (0 <=? Node.parent_index nk)%Z with true
    by (symmetry; apply Z.leb_le; lia).
  apply list_eq. intros i. rewrite prune_children_lookup.
  destruct (decide (i = Z.to_nat (Node.parent_index nk))) as [->|Hne].
  - rewrite list_lookup_insert_eq by (by eapply lookup_lt_Some).
    by rewrite Hnp.
  - rewrite list_lookup_insert_ne by done.
    destruct (t !! i) as [n|] eqn:Hi; [|done]. simpl. f_equal.
    rewrite filter_all; [by rewrite set_child_indices_id|].
    apply Forall_forall. intros c Hc. apply negb_true_iff, Nat.eqb_neq.
    intros ->. apply Hne.
    assert (k ∈ children_of t i) as Hki by by erewrite children_of_lookup.
    pose proof (wf_listed_by_parent _ _ _ _ Hwf Hk Hki). lia.
Qed.

(** A node whose parent does not list it is listed nowhere. *)
Lemma wf_unlisted (t : Tree) (k : nat) (nk : Node.t) :
  wf t → t !! k = Some nk →
  (Node.parent_index nk = (-1)%Z
   ∨ k ∉ children_of t (Z.to_nat (Node.parent_index nk))) →
  ∀ p, k ∉ children_of t p.
Proof.
  intros Hwf Hk Hno p Hp.
  pose proof (wf_listed_by_parent _ _ _ _ Hwf Hk Hp) as Hpar.
  destruct Hno as [?|Hno]; [lia|]. apply Hno. by rewrite Hpar, Nat2Z.id.
Qed.

Section RemovalLoop.
Context {X : Type}.
Variables (step : Tree → X → result Tree) (key : X → nat) (R : X → bool).
Variable dom : X → Prop.
Variable t : Tree.

(** Each step removes the entry's node from the lists when the entry asks
    for it, as long as that node has not been removed before. *)
Hypothesis step_spec :
  ∀ keep x, dom x → keep (key x) = true →
    step (prune_children keep t) x
    = Ok (if R x
          then prune_children (λ c, negb (c =? key x)) (prune_children keep t)
          else prune_children keep t).

Lemma removal_loop_from (xs : list X) (keep : nat → bool) :
  NoDup (key <$> xs) → Forall dom xs →
  (∀ x, x ∈ xs → keep (key x) = true) →
  for_each step xs (prune_children keep t)
  = Ok (prune_children (λ c, keep c && kept key R xs c) t).
Proof.
  revert keep. induction xs as [|x xs IH]; intros keep Hnd Hdom Hkeep; simpl.
  - f_equal. apply prune_children_ext. intros c. by rewrite andb_true_r.
  - rewrite fmap_cons in Hnd. apply NoDup_cons in Hnd as [Hx Hnd].
    apply Forall_cons in Hdom as [Hdx Hdom].
    rewrite step_spec by (done || apply Hkeep; by left). simpl.
    destruct (R x) eqn:HR.
    + rewrite prune_children_compose, IH; [|done|done|].
      * f_equal. apply prune_children_ext. intros c. simpl.
        rewrite ?HR. simpl. rewrite (Nat.eqb_sym (key x) c).
        by rewrite andb_assoc.
      * intros x' Hx'. rewrite Hkeep by (by right). simpl.
        apply negb_true_iff, Nat.eqb_neq. intros Heq. apply Hx.
        rewrite <- Heq. by apply list_elem_of_fmap_2.
    + rewrite IH; [|done|done|].
      * done.
      * intros x' Hx'. apply Hkeep. by right.
Qed.

Lemma removal_loop (xs : list X) :
  NoDup (key <$> xs) → Forall dom xs →
  for_each step xs t = Ok (prune_children (kept key R xs) t).
Proof.
  intros Hnd Hdom. rewrite <- (prune_children_all t) at 1.
  rewrite removal_loop_from; [|done|done|done]. done.
Qed.
End RemovalLoop.

Lemma kept_spec {X} (key : X → nat) (R : X → bool) (xs : list X) (c : nat) :
  kept key R xs c = true ↔ ∀ x, x ∈ xs → key x = c → R x = false.
Proof.
  unfold kept. rewrite forallb_forall. split.
  - intros H x Hx Hkey. specialize (H x). rewrite <- list_elem_of_In in H.
    specialize (H Hx). rewrite Hkey, Nat.eqb_refl, andb_true_r in H.
    by apply negb_true_iff.
  - intros H x Hx. rewrite <- list_elem_of_In in Hx.
    destruct (Nat.eqb_spec (key x) c) as [Heq|Hne].
    + rewrite (H x Hx Heq). done.
    + by rewrite andb_false_r.
Qed.

(** ** The unlinking passes *)

Lemma count_of_lookup (t : Tree) (k : nat) (n : Node.t) :
  t !! k = Some n → count_of t k = Node.text_nodes_count n.
Proof. intros H. unfold count_of. by rewrite H. Qed.

Lemma parent_of_lookup (t : Tree) (k : nat) (n : Node.t) :
  t !! k = Some n → parent_of t k = Node.parent_index n.
Proof. intros H. unfold parent_of. by rewrite H. Qed.

Lemma count_of_prune (keep : nat → bool) (t : Tree) (k : nat) :
  count_of (prune_children keep t) k = count_of t k.
Proof.
  unfold count_of. rewrite prune_children_lookup. by destruct (t !! k).
Qed.

Lemma parent_of_prune (keep : nat → bool) (t : Tree) (k : nat) :
  parent_of (prune_children keep t) k = parent_of t k.
Proof.
  unfold parent_of. rewrite prune_children_lookup. by destruct (t !! k).
Qed.

Lemma length_prune_children (keep : nat → bool) (t : Tree) :
  length (prune_children keep t) = length t.
Proof. unfold prune_children. by rewrite length_fmap. Qed.

Lemma filter_ext_in {A} (P Q : A → Prop) `{!∀ x, Decision (P x)}
    `{!∀ x, Decision (Q x)} (l : list A) :
  (∀ x, x ∈ l → P x ↔ Q x) → filter P l = filter Q l.
Proof.
  induction l as [|x l IH]; intros Hpq; [done|].
  rewrite !filter_cons.
  rewrite IH by (intros y Hy; apply Hpq; by right).
  destruct (decide (P x)) as [HP|HP], (decide (Q x)) as [HQ|HQ]; try done.
  - apply Hpq in HP; [done|by left].
  - apply Hpq in HQ; [done|by left].
Qed.

Lemma prune_children_ext_in (f g : nat → bool) (t : Tree) :
  (∀ p c, c ∈ children_of t p → f c = g c) →
  prune_children f t = prune_children g t.
Proof.
  intros Hfg. unfold prune_children. apply list_fmap_ext. intros i n Hn.
  f_equal. apply filter_ext_in. intros c Hc.
  rewrite (Hfg i c); [done|]. by erewrite children_of_lookup.
Qed.

Lemma contains_spec (x : nat) (l : list nat) : contains x l = true ↔ x ∈ l.
Proof. unfold contains. apply bool_decide_eq_true. Qed.

(** Unlinking a node from the node its [parent_index] names, guarded by the
    membership test: the node leaves every list. *)
Lemma guarded_unlink (t : Tree) (k : nat) (nk : Node.t) :
  wf t → t !! k = Some nk →
  (if (-1 <? Node.parent_index nk)%Z then
     parent ← getitemZ t (Node.parent_index nk);
     if contains k (Node.child_indices parent)
     then unlink t (Node.parent_index nk) k
     else Ok t
   else Ok t)
  = Ok (prune_children (λ c, negb (c =? k)) t).
Proof.
  intros Hwf Hk. destruct (Z.ltb_spec (-1) (Node.parent_index nk)) as [Hpar|Hpar].
  - destruct (wf_parent_lookup _ _ _ Hwf Hk Hpar) as (np & Hget & Hnp & Hlt).
    rewrite Hget. simpl.
    destruct (contains k (Node.child_indices np)) eqn:Hin.
    + apply contains_spec in Hin. apply unlink_listed; [done..|].
      by erewrite children_of_lookup.
    + f_equal. symmetry. apply prune_children_unlisted.
      eapply wf_unlisted; [done..|]. right.
      erewrite children_of_lookup by done. intros Hc.
      apply contains_spec in Hc. congruence.
  - f_equal. symmetry. apply prune_children_unlisted.
    eapply wf_unlisted; [done..|]. left.
    destruct (wf_parent _ Hwf k nk Hk); lia.
Qed.

Lemma unlink_text_free_step_spec (t : Tree) (k : nat) :
  wf t → k < length t →
  unlink_text_free_step t k
  = Ok (if text_free t k then prune_children (λ c, negb (c =? k)) t else t).
Proof.
  intros Hwf Hk. destruct (lookup_lt_is_Some_2 _ _ Hk) as [nk Hnk].
  unfold unlink_text_free_step, text_free.
  rewrite (getitem_lookup _ _ _ Hnk), (count_of_lookup _ _ _ Hnk). simpl.
  pose proof (guarded_unlink t k nk Hwf Hnk) as Hg.
  destruct (Node.text_nodes_count nk =? 0).
  - rewrite <- Hg. destruct (-1 <? Node.parent_index nk)%Z; [|done].
    destruct (getitemZ t (Node.parent_index nk)); [|done..]. simpl.
    by rewrite andb_true_r.
  - destruct (Z.ltb_spec (-1) (Node.parent_index nk)) as [Hpar|Hpar]; [|done].
    destruct (wf_parent_lookup _ _ _ Hwf Hnk Hpar) as (np & -> & _).
    simpl. by rewrite andb_false_r.
Qed.

Lemma cross_step_spec (matched_nodes : gset nat) (t : Tree) (k : nat) :
  wf t → k < length t →
  cross_step matched_nodes t k
  = Ok (if bool_decide (k ∈ matched_nodes) then t
        else prune_children (λ c, negb (c =? k)) t).
Proof.
  intros Hwf Hk. destruct (lookup_lt_is_Some_2 _ _ Hk) as [nk Hnk].
  unfold cross_step. rewrite (getitem_lookup _ _ _ Hnk). simpl.
  destruct (bool_decide (k ∈ matched_nodes)); simpl; [done|].
  apply (guarded_unlink t k nk Hwf Hnk).
Qed.

Lemma substract_step_spec (t : Tree) (k sk : nat) :
  wf t → k < length t → count_of t k ≠ 0 →
  ((-1 < parent_of t k)%Z → k ∈ children_of t (Z.to_nat (parent_of t k))) →
  substract_step true t (k, sk)
  = Ok (if to_substract t (k, sk)
        then prune_children (λ c, negb (c =? k)) t else t).
Proof.
  intros Hwf Hk Hcount Hlisted.
  destruct (lookup_lt_is_Some_2 _ _ Hk) as [nk Hnk].
  unfold substract_step, to_substract, matched_part. cbn -[Nat.mul].
  rewrite (count_of_lookup _ _ _ Hnk) in *.
  rewrite (parent_of_lookup _ _ _ Hnk) in *.
  rewrite (getitem_lookup _ _ _ Hnk). cbn -[Nat.mul].
  rewrite (proj2 (Nat.eqb_neq _ _) Hcount). cbn -[Nat.mul].
  destruct (9 * Node.text_nodes_count nk <=? 10 * sk); cbn -[Nat.mul]; [|done].
  destruct (Z.ltb_spec (-1) (Node.parent_index nk)) as [Hpar|Hpar]; [|done].
  apply unlink_listed; auto.
Qed.

Lemma text_free_prune (keep : nat → bool) (t : Tree) (k : nat) :
  text_free (prune_children keep t) k = text_free t k.
Proof. unfold text_free. by rewrite count_of_prune. Qed.

Lemma to_substract_prune (keep : nat → bool) (t : Tree) (e : nat * nat) :
  to_substract (prune_children keep t) e = to_substract t e.
Proof. unfold to_substract. by rewrite count_of_prune, parent_of_prune. Qed.

(** The prune pass removes the nodes whose counter is 0 from the lists. *)
Lemma unlink_text_free_nodes_spec (t : Tree) :
  wf t →
  unlink_text_free_nodes t
  = Ok (prune_children (λ c, negb (text_free t c)) t).
Proof.
  intros Hwf. unfold unlink_text_free_nodes.
  rewrite (removal_loop unlink_text_free_step (λ k, k) (text_free t)
             (λ k, k < length t) t).
  - f_equal. apply prune_children_ext_in. intros p c Hc.
    destruct (wf_child_lt _ _ _ Hwf Hc) as [_ Hlt].
    destruct (text_free t c) eqn:Hfree; simpl.
    + apply not_true_iff_false. rewrite kept_spec. intros Hall.
      specialize (Hall c). rewrite Hall in Hfree; [done| |done].
      apply elem_of_seq. lia.
    + apply kept_spec. by intros x _ ->.
  - intros keep x Hx _.
    rewrite unlink_text_free_step_spec.
    + by rewrite text_free_prune.
    + by apply prune_children_wf.
    + by rewrite length_prune_children.
  - rewrite list_fmap_id. apply NoDup_seq.
  - apply Forall_forall. intros x Hx. apply elem_of_seq in Hx. lia.
Qed.

(** The cross loop keeps the nodes of [matched_nodes] in the lists. *)
Lemma cross_loop_spec (matched_nodes : gset nat) (t : Tree) :
  wf t →
  for_each (cross_step matched_nodes) (seq 0 (length t)) t
  = Ok (prune_children (λ c, bool_decide (c ∈ matched_nodes)) t).
Proof.
  intros Hwf.
  rewrite (removal_loop (cross_step matched_nodes) (λ k, k)
             (λ k, negb (bool_decide (k ∈ matched_nodes)))
             (λ k, k < length t) t).
  - f_equal. apply prune_children_ext_in. intros p c Hc.
    destruct (wf_child_lt _ _ _ Hwf Hc) as [_ Hlt].
    destruct (bool_decide (c ∈ matched_nodes)) eqn:Hin; simpl.
    + apply kept_spec. intros x _ ->. by rewrite Hin.
    + apply not_true_iff_false. rewrite kept_spec. intros Hall.
      specialize (Hall c). rewrite Hin in Hall. simpl in Hall.
      discriminate Hall; [|done]. apply elem_of_seq. lia.
  - intros keep x Hx _.
    rewrite cross_step_spec.
    + by destruct (bool_decide (x ∈ matched_nodes)).
    + by apply prune_children_wf.
    + by rewrite length_prune_children.
  - rewrite list_fmap_id. apply NoDup_seq.
  - apply Forall_forall. intros x Hx. apply elem_of_seq in Hx. lia.
Qed.

Lemma wf_root_parent (t : Tree) : wf t → parent_of t 0 = (-1)%Z.
Proof.
  intros Hwf. pose proof (wf_root _ Hwf) as Hlen.
  destruct (lookup_lt_is_Some_2 t 0 Hlen) as [n Hn].
  rewrite (parent_of_lookup _ _ _ Hn).
  destruct (wf_parent _ Hwf 0 n Hn); lia.
Qed.

(** A node below the root is listed by the node its [parent_index] names. *)
Lemma reachable_listed (t : Tree) (k : nat) :
  wf t → reachable t k → (-1 < parent_of t k)%Z →
  k ∈ children_of t (Z.to_nat (parent_of t k)).
Proof.
  intros Hwf Hk Hpar. inversion Hk as [|p n c Hp Hn Hc]; subst.
  - rewrite wf_root_parent in Hpar by done. lia.
  - destruct (wf_child _ Hwf p n k Hn Hc) as [_ (m & Hm & Hpk)].
    rewrite (parent_of_lookup _ _ _ Hm), Hpk, Nat2Z.id.
    by erewrite children_of_lookup.
Qed.

(** The subtract loop removes from the lists the entries whose matched part
    reaches nine tenths. *)
Lemma substract_loop_spec (t : Tree) (s : nat) (m : Matching) :
  wf t → matches t 0 s m →
  (∀ k sk, (k, sk) ∈ m → count_of t k ≠ 0) →
  for_each (substract_step true) m t
  = Ok (prune_children (kept fst (to_substract t) m) t).
Proof.
  intros Hwf Hm Hcount.
  apply (removal_loop (substract_step true) fst (to_substract t)
           (λ e, e ∈ m) t).
  - intros keep [k sk] Hin Hkeep. simpl in Hkeep.
    destruct (matches_entries _ _ _ _ Hwf Hm k sk Hin) as (Hdesc & _).
    rewrite substract_step_spec.
    + by rewrite to_substract_prune.
    + by apply prune_children_wf.
    + rewrite length_prune_children.
      eapply descendant_lt_length; [done|by apply wf_root|done].
    + rewrite count_of_prune. by eapply Hcount.
    + rewrite parent_of_prune, prune_children_children_of. intros Hpar.
      apply list_elem_of_filter. split; [done|].
      by apply reachable_listed.
  - by apply (proj1 (matches_NoDup t Hwf) 0 s m).
  - by apply Forall_forall.
Qed.

(** ** The prune pass and the reducer *)

Lemma counts_accurate_all_spec (self : Tree) :
  counts_accurate_all self = true → counts_accurate self.
Proof.
  unfold counts_accurate_all. rewrite forallb_forall.
  intros Hall i n _ Hi. specialize (Hall i). rewrite Hi in Hall.
  apply Nat.eqb_eq, Hall, list_elem_of_In, elem_of_seq.
  apply lookup_lt_Some in Hi. lia.
Qed.

(** C9. On a well-formed arena the prune pass returns the arena with the
    nodes whose counter is 0 removed from their parents' lists, and a second
    pass over that result changes nothing: the arena, and so the set of
    reachable nodes, after two passes is the one after a single pass. *)
Theorem unlink_text_free_nodes_idempotent (self : Tree) :
  well_formed self = true →
  ∃ once,
    unlink_text_free_nodes self = Ok once
    ∧ unlink_text_free_nodes once = Ok once
    ∧ (∀ p c, c ∈ children_of once p ↔
              c ∈ children_of self p ∧ count_of self c ≠ 0)
    ∧ (∀ twice, unlink_text_free_nodes self ≫= unlink_text_free_nodes
                = Ok twice →
         ∀ i, reachable twice i ↔ reachable once i).
Proof.
  intros Hwf%well_formed_wf.
  pose proof (unlink_text_free_nodes_spec self Hwf) as Honce.
  set (once := prune_children (λ c, negb (text_free self c)) self) in *.
  assert (unlink_text_free_nodes once = Ok once) as Htwice.
  { rewrite unlink_text_free_nodes_spec by by apply prune_children_wf.
    f_equal. unfold once. rewrite prune_children_compose.
    apply prune_children_ext. intros c. rewrite text_free_prune.
    by destruct (text_free self c). }
  exists once. split; [done|]. split; [done|]. split.
  - intros p c. unfold once. rewrite prune_children_children_of.
    rewrite list_elem_of_filter. unfold text_free.
    rewrite negb_true_iff, Nat.eqb_neq. tauto.
  - intros twice. rewrite Honce. simpl. rewrite Htwice. by intros [= <-].
Qed.

Lemma unlink_text_free_nodes_idempotent_witness :
  ∃ once,
    unlink_text_free_nodes sparse_tree = Ok once
    ∧ unlink_text_free_nodes once = Ok once
    ∧ (∀ p c, c ∈ children_of once p ↔
              c ∈ children_of sparse_tree p ∧ count_of sparse_tree c ≠ 0)
    ∧ (∀ twice, unlink_text_free_nodes sparse_tree ≫= unlink_text_free_nodes
                = Ok twice →
         ∀ i, reachable twice i ↔ reachable once i).
Proof.
  apply (unlink_text_free_nodes_idempotent sparse_tree). reflexivity.
Defined.

(** Every entry of the matcher's output has a positive counter when the
    counters are accurate and the root has a text node below it. *)
Lemma matching_counts_positive (self : Tree) (s : nat) (m : Matching) :
  wf self → counts_accurate self → matches self 0 s m →
  0 < text_count self 0 →
  ∀ k sk, (k, sk) ∈ m → count_of self k ≠ 0.
Proof.
  intros Hwf Hacc Hm Hroot k sk Hin.
  destruct (matches_entries _ _ _ _ Hwf Hm k sk Hin) as (Hdesc & Hle & _ & Hk).
  assert (k < length self) as Hlt.
  { eapply descendant_lt_length; [done|by apply wf_root|done]. }
  destruct (lookup_lt_is_Some_2 _ _ Hlt) as [nk Hnk].
  rewrite (count_of_lookup _ _ _ Hnk), (Hacc k nk Hdesc Hnk).
  destruct (decide (k = 0)) as [->|Hne]; [lia|].
  destruct (Hk Hne). lia.
Qed.

(** C1. In a subtract run over a well-formed arena with accurate counters
    and a text node below the root, the loop over the matcher's output
    succeeds and removes nodes from the lists only: an entry's node, listed
    by its parent before the loop, is missing from that list afterwards
    exactly when ten times its score reaches nine times its counter (the
    matched part is at least 0.9); a listed node without an entry stays
    listed; and the step for the entry of a node without parent, the root's,
    leaves the arena as it is. *)
Theorem substract_unlinks_matched (fuel : nat) (self tree : Tree) (s : nat)
    (matching : Matching) :
  well_formed self = true → counts_accurate self → 0 < text_count self 0 →
  check_matching fuel self tree 0 0 = Ok (s, matching) →
  ∃ self',
    binary_operation_loop fuel self tree true false = Ok self'
    ∧ (∀ k sk, (k, sk) ∈ matching → (-1 < parent_of self k)%Z →
         k ∈ children_of self (Z.to_nat (parent_of self k))
         ∧ (k ∉ children_of self' (Z.to_nat (parent_of self k)) ↔
            9 * count_of self k ≤ 10 * sk))
    ∧ (∀ p c, c ∈ children_of self' p → c ∈ children_of self p)
    ∧ (∀ p c, c ∈ children_of self p → c ∉ matching.*1 →
              c ∈ children_of self' p)
    ∧ (∀ k sk t, parent_of t k = (-1)%Z → k < length t → count_of t k ≠ 0 →
                 substract_step true t (k, sk) = Ok t)
    ∧ parent_of self 0 = (-1)%Z.
Proof.
  intros Hwf%well_formed_wf Hacc Hroot Hrun.
  pose proof (check_matching_matches _ _ _ _ _ _ _ Hrun) as Hm.
  pose proof (matching_counts_positive _ _ _ Hwf Hacc Hm Hroot) as Hcount.
  exists (prune_children (kept fst (to_substract self) matching) self).
  split; [|split; [|split; [|split; [|split]]]].
  - unfold binary_operation_loop. rewrite Hrun. simpl.
    by eapply substract_loop_spec.
  - intros k sk Hin Hpar.
    destruct (matches_entries _ _ _ _ Hwf Hm k sk Hin) as (Hdesc & _).
    pose proof (reachable_listed _ _ Hwf Hdesc Hpar) as Hlisted.
    split; [done|].
    rewrite prune_children_children_of, list_elem_of_filter.
    rewrite <- Nat.leb_le. split.
    + intros Hnot. destruct (9 * count_of self k <=? 10 * sk) eqn:Hle; [done|].
      exfalso. apply Hnot. split; [|done]. apply kept_spec.
      intros [k' sk'] Hin' Heq. simpl in Heq. subst k'.
      assert (sk' = sk) as ->.
      { pose proof (proj1 (matches_NoDup self Hwf) 0 s matching Hm) as Hnd.
        by eapply (NoDup_fst_functional matching k sk' sk). }
      unfold to_substract. cbn [fst snd]. by rewrite Hle.
    + intros Hle [Hkept _]. rewrite kept_spec in Hkept.
      specialize (Hkept (k, sk) Hin eq_refl). unfold to_substract in Hkept.
      cbn [fst snd] in Hkept. rewrite Hle in Hkept. cbn [andb] in Hkept.
      apply Z.ltb_ge in Hkept. lia.
  - intros p c. rewrite prune_children_children_of, list_elem_of_filter. tauto.
  - intros p c Hc Hnot. rewrite prune_children_children_of, list_elem_of_filter.
    split; [|done]. apply kept_spec. intros [k sk] Hin Heq. simpl in Heq.
    subst k. exfalso. apply Hnot.
    apply list_elem_of_fmap. by exists (c, sk).
  - intros k sk t Hpar Hk Hcnt.
    destruct (lookup_lt_is_Some_2 _ _ Hk) as [nk Hnk].
    unfold substract_step, matched_part.
    rewrite (getitem_lookup _ _ _ Hnk). cbn -[Nat.mul].
    rewrite (count_of_lookup _ _ _ Hnk) in Hcnt.
    rewrite (parent_of_lookup _ _ _ Hnk) in Hpar.
    rewrite (proj2 (Nat.eqb_neq _ _) Hcnt). cbn -[Nat.mul].
    rewrite Hpar. by rewrite andb_false_r.
  - by apply wf_root_parent.
Qed.

Lemma substract_unlinks_matched_witness :
  ∃ self',
    binary_operation_loop 12 list_tree other_tree true false = Ok self'
    ∧ (∀ k sk,
         (k, sk) ∈ [(0, 3); (1, 3); (2, 3); (3, 3); (4, 1); (5, 1); (6, 1);
                    (7, 1); (8, 1); (9, 1)] →
         (-1 < parent_of list_tree k)%Z →
         k ∈ children_of list_tree (Z.to_nat (parent_of list_tree k))
         ∧ (k ∉ children_of self' (Z.to_nat (parent_of list_tree k)) ↔
            9 * count_of list_tree k ≤ 10 * sk))
    ∧ (∀ p c, c ∈ children_of self' p → c ∈ children_of list_tree p)
    ∧ (∀ p c, c ∈ children_of list_tree p →
              c ∉ [(0, 3); (1, 3); (2, 3); (3, 3); (4, 1); (5, 1); (6, 1);
                   (7, 1); (8, 1); (9, 1)].*1 →
              c ∈ children_of self' p)
    ∧ (∀ k sk t, parent_of t k = (-1)%Z → k < length t → count_of t k ≠ 0 →
                 substract_step true t (k, sk) = Ok t)
    ∧ parent_of list_tree 0 = (-1)%Z.
Proof.
  apply (substract_unlinks_matched 12 list_tree other_tree 3
           [(0, 3); (1, 3); (2, 3); (3, 3); (4, 1); (5, 1); (6, 1);
            (7, 1); (8, 1); (9, 1)]).
  - vm_compute; reflexivity.
  - apply counts_accurate_all_spec. vm_compute; reflexivity.
  - vm_compute; lia.
  - vm_compute; reflexivity.
Defined.

(** C10. In a subtract run over a well-formed arena with accurate counters:
    when the root has a text node below it, every node with an entry in the
    matcher's output has a positive counter, so that each division of the
    loop has a result and the loop ends without an exception; when the
    arena holds no reachable text node, the counter of the root is 0, the
    root's entry is the first of the output, and the loop ends at that entry
    with a division by zero. *)
Theorem substract_division_safe (fuel : nat) (self tree : Tree) (s : nat)
    (matching : Matching) :
  well_formed self = true → counts_accurate self →
  check_matching fuel self tree 0 0 = Ok (s, matching) →
  (0 < text_count self 0 →
     (∀ k sk, (k, sk) ∈ matching →
        0 < count_of self k
        ∧ ∃ matched, matched_part sk (count_of self k) = Ok matched)
     ∧ ∃ self', binary_operation_loop fuel self tree true false = Ok self')
  ∧ (text_count self 0 = 0 →
       count_of self 0 = 0
       ∧ (∃ rest, matching = (0, s) :: rest)
       ∧ matched_part s (count_of self 0) = Raise ZeroDivisionError
       ∧ binary_operation_loop fuel self tree true false
         = Raise ZeroDivisionError).
Proof.
  intros Hwf%well_formed_wf Hacc Hrun.
  pose proof (check_matching_matches _ _ _ _ _ _ _ Hrun) as Hm.
  split.
  - intros Hroot.
    pose proof (matching_counts_positive _ _ _ Hwf Hacc Hm Hroot) as Hcount.
    split.
    + intros k sk Hin. specialize (Hcount k sk Hin). split; [lia|].
      unfold matched_part. rewrite (proj2 (Nat.eqb_neq _ _) Hcount). eauto.
    + unfold binary_operation_loop. rewrite Hrun. cbn -[Nat.mul].
      rewrite (substract_loop_spec self s matching); eauto.
  - intros Hroot.
    pose proof (wf_root _ Hwf) as Hlen.
    destruct (lookup_lt_is_Some_2 self 0 Hlen) as [n Hn].
    assert (count_of self 0 = 0) as Hzero.
    { rewrite (count_of_lookup _ _ _ Hn), (Hacc 0 n); [done| |done].
      constructor. }
    destruct (matches_head _ _ _ _ Hm) as [rest ->].
    split; [done|]. split; [by exists rest|].
    assert (matched_part s (count_of self 0) = Raise ZeroDivisionError) as Hdiv.
    { unfold matched_part. by rewrite Hzero. }
    split; [done|].
    unfold binary_operation_loop. rewrite Hrun. cbn -[Nat.mul matched_part].
    unfold substract_step. rewrite (getitem_lookup _ _ _ Hn).
    cbn -[Nat.mul matched_part].
    rewrite (count_of_lookup _ _ _ Hn) in Hdiv. by rewrite Hdiv.
Qed.

Lemma substract_division_safe_witness :
  (0 < text_count list_tree 0 →
     (∀ k sk,
        (k, sk) ∈ [(0, 3); (1, 3); (2, 3); (3, 3); (4, 1); (5, 1); (6, 1);
                   (7, 1); (8, 1); (9, 1)] →
        0 < count_of list_tree k
        ∧ ∃ matched, matched_part sk (count_of list_tree k) = Ok matched)
     ∧ ∃ self', binary_operation_loop 12 list_tree other_tree true false
                = Ok self')
  ∧ (text_count list_tree 0 = 0 →
       count_of list_tree 0 = 0
       ∧ (∃ rest, [(0, 3); (1, 3); (2, 3); (3, 3); (4, 1); (5, 1); (6, 1);
                   (7, 1); (8, 1); (9, 1)] = (0, 3) :: rest)
       ∧ matched_part 3 (count_of list_tree 0) = Raise ZeroDivisionError
       ∧ binary_operation_loop 12 list_tree other_tree true false
         = Raise ZeroDivisionError).
Proof.
  apply (substract_division_safe 12 list_tree other_tree 3
           [(0, 3); (1, 3); (2, 3); (3, 3); (4, 1); (5, 1); (6, 1);
            (7, 1); (8, 1); (9, 1)]).
  - vm_compute; reflexivity.
  - apply counts_accurate_all_spec. vm_compute; reflexivity.
  - vm_compute; reflexivity.
Defined.

(** An arena without text: the subtract loop stops at the root's entry. *)
Example substract_blank_raises :
  well_formed blank_tree = true
  ∧ text_count blank_tree 0 = 0
  ∧ binary_operation_loop 12 blank_tree blank_tree true false
    = Raise ZeroDivisionError.
Proof. repeat split; vm_compute; reflexivity. Qed.

(** ** Counting text nodes *)

Lemma skeleton_lookup (t : Tree) (i : nat) :
  skeleton t !! i = Node.set_text_nodes_count 0 <$> t !! i.
Proof. unfold skeleton. apply list_lookup_fmap. Qed.

Lemma same_shape_length (t t' : Tree) :
  same_shape t t' → length t' = length t.
Proof.
  intros H. apply (f_equal length) in H. unfold skeleton in H.
  by rewrite !length_fmap in H.
Qed.

Lemma same_shape_lookup (t t' : Tree) (i : nat) (n : Node.t) :
  same_shape t t' → t !! i = Some n →
  ∃ n', t' !! i = Some n'
        ∧ Node.parent_index n' = Node.parent_index n
        ∧ Node.child_indices n' = Node.child_indices n
        ∧ Node.text n' = Node.text n.
Proof.
  intros H Hi. apply (f_equal (λ l, l !! i)) in H.
  rewrite !skeleton_lookup, Hi in H.
  destruct (t' !! i) as [n'|]; [|done]. exists n'. split; [done|].
  destruct n, n'. by simplify_eq/=.
Qed.

Lemma same_shape_sym (t t' : Tree) : same_shape t t' → same_shape t' t.
Proof. unfold same_shape. congruence. Qed.

Lemma same_shape_trans (t t' t'' : Tree) :
  same_shape t t' → same_shape t' t'' → same_shape t t''.
Proof. unfold same_shape. congruence. Qed.

Lemma same_shape_children_of (t t' : Tree) (p : nat) :
  same_shape t t' → children_of t' p = children_of t p.
Proof.
  intros H. unfold children_of. destruct (t !! p) as [n|] eqn:Hp.
  - destruct (same_shape_lookup _ _ _ _ H Hp) as (n' & Hn' & _ & Hch & _).
    rewrite Hn'. simpl. done.
  - pose proof Hp as Hp'.
    apply lookup_ge_None in Hp'. rewrite <- (same_shape_length _ _ H) in Hp'.
    apply lookup_ge_None in Hp'. by rewrite Hp'.
Qed.

Lemma same_shape_wf (t t' : Tree) : wf t → same_shape t t' → wf t'.
Proof.
  intros Hwf H. pose proof (same_shape_sym _ _ H) as H'. split.
  - rewrite (same_shape_length _ _ H). by apply wf_root.
  - intros p n' c Hp Hc.
    destruct (same_shape_lookup _ _ _ _ H' Hp) as (n & Hn & _ & Hch & _).
    rewrite <- Hch in Hc.
    destruct (wf_child _ Hwf p n c Hn Hc) as [Hlt (m & Hm & Hpar)].
    split; [done|].
    destruct (same_shape_lookup _ _ _ _ H Hm) as (m' & Hm' & Hpar' & _).
    exists m'. split; [done|]. congruence.
  - intros p n' Hp.
    destruct (same_shape_lookup _ _ _ _ H' Hp) as (n & Hn & _ & Hch & _).
    rewrite <- Hch. by eapply wf_nodup.
  - intros i n' Hi.
    destruct (same_shape_lookup _ _ _ _ H' Hi) as (n & Hn & Hpar & _).
    rewrite <- Hpar. by eapply wf_parent.
  - intros i n' Hi Htext.
    destruct (same_shape_lookup _ _ _ _ H' Hi) as (n & Hn & _ & Hch & Ht).
    rewrite <- Hch. eapply wf_leaf; [done..|]. congruence.
Qed.

Lemma same_shape_descendant (t t' : Tree) (a k : nat) :
  same_shape t t' → descendant t a k → descendant t' a k.
Proof.
  intros H. induction 1 as [|p n c _ IH Hp Hc]; [constructor|].
  destruct (same_shape_lookup _ _ _ _ H Hp) as (n' & Hn' & _ & Hch & _).
  eapply descendant_child; [done..|]. by rewrite Hch.
Qed.

Lemma same_shape_text_count_from (t t' : Tree) (fuel i : nat) :
  same_shape t t' → text_count_from fuel t' i = text_count_from fuel t i.
Proof.
  intros H. revert i. induction fuel as [|fuel IH]; intros i; [done|].
  simpl. destruct (t !! i) as [n|] eqn:Hi.
  - destruct (same_shape_lookup _ _ _ _ H Hi) as (n' & Hn' & _ & Hch & Ht).
    rewrite Hn', Hch, Ht.
    destruct (truthy (Node.text n)); [done|]. f_equal.
    apply list_fmap_ext. intros ???. apply IH.
  - pose proof Hi as Hi'.
    apply lookup_ge_None in Hi'. rewrite <- (same_shape_length _ _ H) in Hi'.
    apply lookup_ge_None in Hi'. by rewrite Hi'.
Qed.

Lemma same_shape_text_count (t t' : Tree) (i : nat) :
  same_shape t t' → text_count t' i = text_count t i.
Proof.
  intros H. unfold text_count. rewrite (same_shape_length _ _ H).
  by apply same_shape_text_count_from.
Qed.

Lemma set_count_lookup_eq (t : Tree) (i v : nat) (n : Node.t) :
  t !! i = Some n →
  set_count t i v !! i = Some (Node.set_text_nodes_count v n).
Proof.
  intros Hi. unfold set_count. rewrite Hi.
  apply list_lookup_insert_eq. by eapply lookup_lt_Some.
Qed.

Lemma set_count_lookup_ne (t : Tree) (i k v : nat) :
  k ≠ i → set_count t i v !! k = t !! k.
Proof.
  intros Hne. unfold set_count. destruct (t !! i); [|done].
  by apply list_lookup_insert_ne.
Qed.

Lemma set_count_same_shape (t : Tree) (i v : nat) :
  same_shape t (set_count t i v).
Proof.
  unfold same_shape. apply list_eq. intros k. rewrite !skeleton_lookup.
  destruct (decide (k = i)) as [->|Hne].
  - destruct (t !! i) as [n|] eqn:Hi.
    + by rewrite (set_count_lookup_eq _ _ _ _ Hi).
    + unfold set_count. by repeat rewrite Hi.
  - by rewrite set_count_lookup_ne.
Qed.

Lemma count_of_set_count_eq (t : Tree) (i v : nat) :
  i < length t → count_of (set_count t i v) i = v.
Proof.
  intros Hi. destruct (lookup_lt_is_Some_2 _ _ Hi) as [n Hn].
  unfold count_of. by rewrite (set_count_lookup_eq _ _ _ _ Hn).
Qed.

Lemma count_of_set_count_ne (t : Tree) (i k v : nat) :
  k ≠ i → count_of (set_count t i v) k = count_of t k.
Proof. intros Hne. unfold count_of. by rewrite set_count_lookup_ne. Qed.

Section CountLoop.
Variables (self : Tree) (fuel i : nat) (n : Node.t).
Hypothesis self_wf : wf self.
Hypothesis self_i : self !! i = Some n.

(** The recursive call, on any arena of the shape of [self]. *)
Hypothesis rec_ok :
  ∀ t c, same_shape self t → c ∈ Node.child_indices n →
    ∃ t', count_texts_in_nodes fuel t c = Ok (t', text_count self c)
          ∧ same_shape t t'
          ∧ (∀ k, descendant self c k → count_of t' k = text_count self k)
          ∧ (∀ k, ¬ descendant self c k → t' !! k = t !! k).

Lemma count_children_loop (suf : list nat) :
  ∀ pre t, Node.child_indices n = pre ++ suf →
  same_shape self t →
  count_of t i = sum_list (text_count self <$> pre) →
  (∀ c k, c ∈ pre → descendant self c k → count_of t k = text_count self k) →
  (∀ k, k ≠ i → (∀ c, c ∈ pre → ¬ descendant self c k) →
        t !! k = self !! k) →
  ∃ t',
    for_each
      (λ (self : Tree) (child_index : nat),
         node ← getitem self i;
         '(self, counted) ← count_texts_in_nodes fuel self child_index;
         Ok (set_count self i (Node.text_nodes_count node + counted)))
      suf t = Ok t'
    ∧ same_shape self t'
    ∧ count_of t' i = sum_list (text_count self <$> Node.child_indices n)
    ∧ (∀ c k, c ∈ Node.child_indices n → descendant self c k →
              count_of t' k = text_count self k)
    ∧ (∀ k, k ≠ i → (∀ c, c ∈ Node.child_indices n → ¬ descendant self c k) →
            t' !! k = self !! k).
Proof.
  induction suf as [|c suf IH]; intros pre t Hcs Hshape Hsum Hdone Hrest.
  - rewrite app_nil_r in Hcs. subst pre. exists t. simpl. done.
  - assert (c ∈ Node.child_indices n) as Hc.
    { rewrite Hcs. apply elem_of_app. right. by left. }
    assert (c ∈ children_of self i) as Hc'
      by by erewrite children_of_lookup.
    destruct (wf_child_lt _ _ _ self_wf Hc') as [Hic Hclt].
    destruct (same_shape_lookup _ _ _ _ Hshape self_i) as (ni & Hni & _).
    destruct (rec_ok t c Hshape Hc) as (t1 & Hrun & Hshape1 & Hsub & Hout).
    simpl. rewrite (getitem_lookup _ _ _ Hni). simpl. rewrite Hrun. simpl.
    assert (i < length t1) as Hilt.
    { rewrite (same_shape_length _ _ Hshape1).
      by eapply lookup_lt_Some. }
    assert (Node.text_nodes_count ni = count_of t i) as Hcnt
      by by rewrite (count_of_lookup _ _ _ Hni).
    pose proof (wf_nodup _ self_wf _ _ self_i) as Hnd. rewrite Hcs in Hnd.
    apply NoDup_app in Hnd as (_ & Hdisj & _).
    apply (IH (pre ++ [c])).
    + by rewrite <- app_assoc.
    + eapply same_shape_trans; [done|].
      eapply same_shape_trans; [done|]. apply set_count_same_shape.
    + rewrite count_of_set_count_eq by done.
      rewrite fmap_app, sum_list_with_app. simpl. rewrite Hcnt, Hsum.
      unfold sum_list. lia.
    + intros c' k Hin Hk.
      assert (c' ∈ children_of self i) as Hc'i.
      { erewrite children_of_lookup by done. rewrite Hcs.
        apply elem_of_app in Hin as [Hin|Hin%list_elem_of_singleton].
        - apply elem_of_app. by left.
        - subst c'. apply elem_of_app. right. by left. }
      destruct (wf_child_lt _ _ _ self_wf Hc'i) as [Hic' _].
      pose proof (descendant_ge _ _ _ self_wf Hk) as Hge.
      rewrite count_of_set_count_ne by lia.
      apply elem_of_app in Hin as [Hin|Hin%list_elem_of_singleton].
      * unfold count_of. rewrite Hout; [by apply Hdone with c'|].
        intros Hck.
        pose proof (sibling_subtrees_disjoint _ _ _ _ _ self_wf Hc' Hc'i
                      Hck Hk) as ->.
        apply (Hdisj c' Hin). by left.
      * subst c'. by apply Hsub.
    + intros k Hki Hnot. rewrite set_count_lookup_ne by done.
      rewrite Hout.
      * apply Hrest; [done|]. intros c' Hin. apply Hnot.
        apply elem_of_app. by left.
      * apply Hnot. apply elem_of_app. right. by left.
Qed.
End CountLoop.

(** The count is total on a well-formed arena: it returns the number of
    text nodes below the node, stores the right counter on every node of
    that subtree, and leaves the rest of the arena as it is. *)
Lemma count_texts_in_nodes_spec (fuel : nat) :
  ∀ self i, wf self → i < length self → length self - i ≤ fuel →
  ∃ self',
    count_texts_in_nodes fuel self i = Ok (self', text_count self i)
    ∧ same_shape self self'
    ∧ (∀ k, descendant self i k → count_of self' k = text_count self k)
    ∧ (∀ k, ¬ descendant self i k → self' !! k = self !! k).
Proof.
  induction fuel as [|fuel IH]; intros self i Hwf Hi Hfuel; [lia|].
  destruct (lookup_lt_is_Some_2 _ _ Hi) as [n Hn].
  simpl. rewrite (getitem_lookup _ _ _ Hn). simpl.
  rewrite (text_count_unfold _ _ _ Hwf Hn).
  destruct (truthy (Node.text n)) eqn:Htext.
  - rewrite (getitem_lookup _ _ _ (set_count_lookup_eq _ _ 1 _ Hn)). simpl.
    eexists. split; [done|]. split; [apply set_count_same_shape|]. split.
    + intros k Hk. apply descendant_inv in Hk as [->|(n' & c & Hn' & Hc & _)].
      * rewrite count_of_set_count_eq by done.
        rewrite (text_count_unfold _ _ _ Hwf Hn). by rewrite Htext.
      * rewrite Hn in Hn'. injection Hn' as <-. apply truthy_spec in Htext.
        rewrite (wf_leaf _ Hwf i n Hn Htext) in Hc. by apply elem_of_nil in Hc.
    + intros k Hk. apply set_count_lookup_ne. intros ->. apply Hk. constructor.
  - destruct (count_children_loop self fuel i n Hwf Hn) with
      (suf := Node.child_indices n) (pre := @nil nat) (t := set_count self i 0)
      as (t' & Hrun & Hshape & Hsum & Hsub & Hout).
    + intros t c Hshape Hc.
      assert (c ∈ children_of self i) as Hc' by by erewrite children_of_lookup.
      destruct (wf_child_lt _ _ _ Hwf Hc') as [Hic Hclt].
      destruct (IH t c) as (t' & Hrun & Hshape' & Hsub & Hout).
      * by eapply same_shape_wf.
      * by rewrite (same_shape_length _ _ Hshape).
      * rewrite (same_shape_length _ _ Hshape). lia.
      * exists t'. rewrite (same_shape_text_count _ _ _ Hshape) in Hrun.
        split; [done|]. split; [done|]. split.
        -- intros k Hk. rewrite Hsub by by apply same_shape_descendant with self.
           by apply same_shape_text_count.
        -- intros k Hk. apply Hout. intros Hk'. apply Hk.
           apply same_shape_descendant with t; [|done].
           by apply same_shape_sym.
    + done.
    + apply set_count_same_shape.
    + by rewrite count_of_set_count_eq.
    + intros c k Hc. by apply elem_of_nil in Hc.
    + intros k Hk _. by apply set_count_lookup_ne.
    + rewrite Hrun. simpl.
      destruct (same_shape_lookup _ _ _ _ Hshape Hn) as (n' & Hn' & _).
      rewrite (getitem_lookup _ _ _ Hn'). simpl.
      rewrite <- (count_of_lookup _ _ _ Hn'), Hsum.
      exists t'. split; [done|]. split; [done|]. split.
      * intros k Hk. apply descendant_inv in Hk as [->|(n1 & c & Hn1 & Hc & Hk)].
        -- rewrite Hsum, (text_count_unfold _ _ _ Hwf Hn). by rewrite Htext.
        -- rewrite Hn in Hn1. injection Hn1 as <-. by apply Hsub with c.
      * intros k Hk. apply Hout.
        -- intros ->. apply Hk. constructor.
        -- intros c Hc Hck. apply Hk. by eapply descendant_of_child.
Qed.

(** ** The cross operation *)

Lemma positive_nodes_spec (matching : Matching) (k : nat) :
  k ∈ positive_nodes matching ↔ ∃ sk, (k, sk) ∈ matching ∧ 0 < sk.
Proof.
  unfold positive_nodes. rewrite elem_of_list_to_set, list_elem_of_fmap.
  split.
  - intros ([k' sk] & -> & Hin). apply list_elem_of_filter in Hin as [Hsk Hin].
    simpl in *. exists sk. split; [done|lia].
  - intros (sk & Hin & Hsk). exists (k, sk). split; [done|].
    apply list_elem_of_filter. split; [simpl; lia|done].
Qed.

Lemma pruned_spec (self : Tree) :
  pruned self = true →
  ∀ p c, c ∈ children_of self p → 0 < text_count self c.
Proof.
  unfold pruned. rewrite forallb_forall. intros Hall p c Hc.
  destruct (decide (p < length self)) as [Hp|Hp].
  - specialize (Hall p). rewrite forallb_forall in Hall.
    apply Nat.ltb_lt, Hall; [|by apply list_elem_of_In].
    apply list_elem_of_In, elem_of_seq. lia.
  - unfold children_of in Hc. rewrite (proj2 (lookup_ge_None _ _)) in Hc by lia.
    by apply elem_of_nil in Hc.
Qed.

Lemma descendant_mono (t t' : Tree) (a k : nat) :
  (∀ p c, c ∈ children_of t p → c ∈ children_of t' p) →
  descendant t a k → descendant t' a k.
Proof.
  intros Hsub. induction 1 as [|p n c _ IH Hp Hc]; [constructor|].
  assert (c ∈ children_of t' p) as Hc'.
  { apply Hsub. by erewrite children_of_lookup. }
  unfold children_of in Hc'. destruct (t' !! p) as [n'|] eqn:Hp'.
  - by eapply descendant_child.
  - by apply elem_of_nil in Hc'.
Qed.

(** The whole operation: the lists of the result hold the nodes with a
    positive score, and the recount and the prune pass remove none of
    them. *)
Lemma cross_tree_spec (fuel : nat) (self tree : Tree) (s : nat)
    (matching : Matching) :
  wf self → length self ≤ fuel →
  check_matching fuel self tree 0 0 = Ok (s, matching) →
  ∃ self',
    cross_tree fuel self tree = Ok self'
    ∧ ∀ p c, c ∈ children_of self' p ↔
             c ∈ children_of self p ∧ ∃ sk, (c, sk) ∈ matching ∧ 0 < sk.
Proof.
  intros Hwf Hfuel Hrun.
  pose proof (check_matching_matches _ _ _ _ _ _ _ Hrun) as Hm.
  set (keep := λ c, bool_decide (c ∈ positive_nodes matching)).
  set (P := prune_children keep self).
  assert (wf P) as HwfP by by apply prune_children_wf.
  assert (length P = length self) as HlenP by apply length_prune_children.
  destruct (count_texts_in_nodes_spec fuel P 0 HwfP) as
    (counted & Hcount & Hshape & Hsub & _).
  { rewrite HlenP. by apply wf_root. }
  { lia. }
  assert (wf counted) as Hwfc by by eapply same_shape_wf.
  destruct (proj1 (matches_shape self Hwf) 0 s matching Hm) as [Hidx Hkeep].
  specialize (Hkeep keep).
  assert (∀ k sk, (k, sk) ∈ matching → k ≠ 0 → keep k = true) as Hpos.
  { intros k sk Hin Hne. apply bool_decide_eq_true, positive_nodes_spec.
    exists sk. split; [done|]. by apply (Hidx k sk Hin). }
  specialize (Hkeep Hpos).
  exists (prune_children (λ c, negb (text_free counted c)) counted).
  split.
  - unfold cross_tree, binary_operation, binary_operation_loop.
    rewrite Hrun. simpl. rewrite (cross_loop_spec _ _ Hwf). simpl.
    fold keep. fold P. rewrite Hcount. simpl.
    by apply unlink_text_free_nodes_spec.
  - intros p c. rewrite prune_children_children_of, list_elem_of_filter.
    rewrite (same_shape_children_of _ _ _ Hshape). unfold P.
    rewrite prune_children_children_of, list_elem_of_filter. unfold keep.
    rewrite bool_decide_eq_true, positive_nodes_spec. split; [tauto|].
    intros (Hc & sk & Hin & Hsk). split; [|eauto].
    destruct (Hkeep c sk Hin) as [Hdesc Hle].
    unfold text_free. rewrite (Hsub c Hdesc).
    apply negb_true_iff, Nat.eqb_neq. fold P in Hle. lia.
Qed.

(** C2. In a cross (intersect) run over a well-formed arena, with fuel for
    the whole arena, the operation succeeds and a node is listed by a node
    afterwards exactly when it was listed by it before and the matcher gave
    it a strictly positive score.  Consequently, when the arena is crossed
    with itself and every listed node has a text node below it, as in the
    arenas the builder returns, the operation succeeds and the set of
    reachable nodes is unchanged. *)
Theorem cross_keeps_positive (fuel : nat) (self : Tree) :
  well_formed self = true → length self ≤ fuel →
  (∀ tree s matching,
     check_matching fuel self tree 0 0 = Ok (s, matching) →
     ∃ self',
       cross_tree fuel self tree = Ok self'
       ∧ ∀ p c, c ∈ children_of self' p ↔
                c ∈ children_of self p ∧ ∃ sk, (c, sk) ∈ matching ∧ 0 < sk)
  ∧ (pruned self = true →
     ∃ self',
       cross_tree fuel self self = Ok self'
       ∧ ∀ i, reachable self' i ↔ reachable self i).
Proof.
  intros Hwf%well_formed_wf Hfuel. split.
  - intros tree s matching Hrun. by eapply cross_tree_spec.
  - intros Hpr. pose proof (pruned_spec _ Hpr) as Hpruned.
    destruct (check_matching_self self Hwf Hpruned fuel 0) as (m & Hrun & Hall).
    { by apply wf_root. }
    { lia. }
    destruct (cross_tree_spec _ _ _ _ _ Hwf Hfuel Hrun) as (self' & Hcross & Hiff).
    exists self'. split; [done|].
    pose proof (check_matching_matches _ _ _ _ _ _ _ Hrun) as Hm.
    intros i. split.
    + apply descendant_mono. intros p c Hc. by apply Hiff in Hc as [Hc _].
    + unfold reachable. induction 1 as [|p n c Hp IH Hn Hc]; [constructor|].
      assert (descendant self 0 c) as Hdc by by eapply descendant_child.
      assert (c ∈ children_of self' p) as Hc'.
      { apply Hiff. split; [by erewrite children_of_lookup|].
        apply Hall in Hdc. apply list_elem_of_fmap in Hdc as ([c' sk] & -> & Hin).
        exists sk. split; [done|].
        destruct (matches_entries _ _ _ _ Hwf Hm _ _ Hin) as (_ & _ & _ & Hne).
        apply Hne. simpl.
        destruct (wf_child _ Hwf p n c' Hn Hc). simpl in *. lia. }
      unfold children_of in Hc'. destruct (self' !! p) as [n'|] eqn:Hp'.
      * by eapply descendant_child.
      * by apply elem_of_nil in Hc'.
Qed.

Lemma cross_keeps_positive_witness :
  (∀ tree s matching,
     check_matching 12 list_tree tree 0 0 = Ok (s, matching) →
     ∃ self',
       cross_tree 12 list_tree tree = Ok self'
       ∧ ∀ p c, c ∈ children_of self' p ↔
                c ∈ children_of list_tree p
                ∧ ∃ sk, (c, sk) ∈ matching ∧ 0 < sk)
  ∧ (pruned list_tree = true →
     ∃ self',
       cross_tree 12 list_tree list_tree = Ok self'
       ∧ ∀ i, reachable self' i ↔ reachable list_tree i).
Proof.
  apply (cross_keeps_positive 12 list_tree).
  - vm_compute; reflexivity.
  - vm_compute; lia.
Defined.

(** ** Sibling runs *)

Lemma index_of_NoDup (x i : nat) (l : list nat) :
  NoDup l → l !! i = Some x → index_of x l = Ok i.
Proof.
  revert i. induction l as [|y l IH]; intros i Hnd Hi; [done|].
  apply NoDup_cons in Hnd as [Hy Hnd]. simpl. case_decide as Hyx.
  - subst y. destruct i as [|i]; [done|]. simpl in Hi.
    exfalso. apply Hy. by eapply list_elem_of_lookup_2.
  - destruct i as [|i]; simpl in Hi; [congruence|].
    by rewrite (IH i Hnd Hi).
Qed.

(** A loop that leaves with [False] at the first element failing a test. *)
Lemma for_break_all {X} (check : X → bool)
    (body : bool → X → result (control bool)) (xs : list X) :
  (∀ ok x, x ∈ xs →
     body ok x = Ok (if check x then Next ok else Break false)) →
  for_break body xs true = Ok (forallb check xs).
Proof.
  induction xs as [|x xs IH]; intros Hbody; [done|].
  simpl. rewrite Hbody by by left. simpl. destruct (check x); simpl; [|done].
  apply IH. intros ok y Hy. apply Hbody. by right.
Qed.

(** The test of [__check_connection], for two nodes at the positions [pa]
    and [pb] of the list of one node. *)
Lemma check_connection_spec (self : Tree) (p a b pa pb : nat) (na : Node.t) :
  wf self →
  children_of self p !! pa = Some a → children_of self p !! pb = Some b →
  self !! a = Some na →
  ∃ equal,
    check_connection self a b = Ok equal
    ∧ (equal = true ↔ run_matches self na p (pa + 1) (pb + 1)).
Proof.
  intros Hwf Hpa Hpb Ha.
  assert (a ∈ children_of self p) as Hin by by eapply list_elem_of_lookup_2.
  pose proof (wf_child_parent _ _ _ _ Hwf Hin Ha) as Hpar.
  destruct (self !! p) as [np|] eqn:Hp; cycle 1.
  { unfold children_of in Hin. rewrite Hp in Hin. by apply elem_of_nil in Hin. }
  rewrite (children_of_lookup _ _ _ Hp) in Hpa, Hpb.
  pose proof (wf_nodup _ Hwf _ _ Hp) as Hnd.
  set (check := λ pos,
         match Node.child_indices np !! pos with
         | Some k => match self !! k with
                     | Some n => check_tag_match na n
                     | None => false
                     end
         | None => false
         end).
  exists (forallb check (xrange (pa + 1) (pb + 1))). split.
  - unfold check_connection. rewrite (getitem_lookup _ _ _ Ha). simpl.
    rewrite Hpar, getitemZ_nonneg by lia. rewrite Nat2Z.id.
    rewrite (getitem_lookup _ _ _ Hp). simpl.
    rewrite (index_of_NoDup _ _ _ Hnd Hpa), (index_of_NoDup _ _ _ Hnd Hpb).
    simpl. apply for_break_all. intros ok pos Hpos.
    apply elem_of_xrange in Hpos.
    assert (pos < length (Node.child_indices np)) as Hlt.
    { apply lookup_lt_Some in Hpb. lia. }
    destruct (lookup_lt_is_Some_2 _ _ Hlt) as [k Hk].
    assert (k ∈ Node.child_indices np) as Hkin
      by by eapply list_elem_of_lookup_2.
    destruct (wf_lookup_child _ _ _ _ Hwf Hp Hkin) as [_ [n Hn]].
    cbv beta. rewrite (getitem_lookup _ _ _ Hk). simpl.
    rewrite (getitem_lookup _ _ _ Hn). simpl.
    unfold check. rewrite Hk, Hn. by destruct (check_tag_match na n).
  - rewrite forallb_forall. unfold run_matches.
    rewrite (children_of_lookup _ _ _ Hp). split.
    + intros Hall pos k n Hpos Hk Hn.
      specialize (Hall pos). unfold check in Hall. rewrite Hk, Hn in Hall.
      apply Hall, list_elem_of_In, elem_of_xrange. lia.
    + intros Hall pos Hpos%list_elem_of_In%elem_of_xrange.
      assert (pos < length (Node.child_indices np)) as Hlt.
      { apply lookup_lt_Some in Hpb. lia. }
      destruct (lookup_lt_is_Some_2 _ _ Hlt) as [k Hk].
      assert (k ∈ Node.child_indices np) as Hkin
        by by eapply list_elem_of_lookup_2.
      destruct (wf_lookup_child _ _ _ _ Hwf Hp Hkin) as [_ [n Hn]].
      unfold check. rewrite Hk, Hn. apply (Hall pos k n); [lia|done..].
Qed.

(** C6, as the code has it.  In the path-equality test, two distinct
    ancestors that share a parent, the first before the second in the
    parent's list, are judged equal exactly when every sibling strictly
    between them and the second ancestor itself tag-match the first
    ancestor; the step of the test for that depth records a negative
    verdict in the memo and leaves the loop, and goes on otherwise. *)
Theorem check_connection_run (self : Tree) (p a b pa pb : nat)
    (na nb : Node.t) :
  well_formed self = true →
  children_of self p !! pa = Some a → children_of self p !! pb = Some b →
  self !! a = Some na → self !! b = Some nb → pa < pb →
  ∃ equal,
    check_connection self a b = Ok equal
    ∧ (equal = true ↔
       run_matches self na p (pa + 1) pb ∧ check_tag_match na nb = true)
    ∧ ∀ first_path second_path depth q memo verdict,
        first_path !! depth = Some a → second_path !! depth = Some b →
        first_path !! (depth - 1) = Some q →
        second_path !! (depth - 1) = Some q →
        memo !! (a `min` b, a `max` b) = None →
        check_paths_step self first_path second_path (verdict, memo) depth
        = Ok (if equal then Next (true, memo)
              else Break (false, <[(a `min` b, a `max` b) := false]> memo)).
Proof.
  intros Hwf%well_formed_wf Hpa Hpb Ha Hb Hlt.
  destruct (check_connection_spec self p a b pa pb na Hwf Hpa Hpb Ha)
    as (equal & Hrun & Hiff).
  exists equal. split; [done|]. split.
  - rewrite Hiff. unfold run_matches. split.
    + intros Hall. split.
      * intros pos k n Hpos. apply Hall. lia.
      * apply (Hall pb b nb); [lia|done..].
    + intros [Hall Hnb] pos k n Hpos Hk Hn.
      destruct (decide (pos = pb)) as [->|Hne].
      * rewrite Hpb in Hk. injection Hk as <-. rewrite Hb in Hn.
        by injection Hn as <-.
      * apply (Hall pos k n); [lia|done..].
  - intros first_path second_path depth q memo verdict Hfa Hsb Hfq Hsq Hmemo.
    assert (a ≠ b) as Hab.
    { intros ->. pose proof (NoDup_lookup (children_of self p) pa pb b) as Hnd.
      assert (pa = pb); [|lia]. apply Hnd; [|done..].
      unfold children_of. destruct (self !! p) as [np|] eqn:Hp; simpl.
      - by eapply wf_nodup.
      - constructor. }
    unfold check_paths_step.
    rewrite (getitem_lookup _ _ _ Hfa), (getitem_lookup _ _ _ Hsb). simpl.
    rewrite decide_False by done. rewrite Hmemo.
    rewrite (getitem_lookup _ _ _ Hfq), (getitem_lookup _ _ _ Hsq). simpl.
    rewrite decide_True by done. rewrite Hrun. simpl. by destruct equal.
Qed.

Lemma check_connection_run_witness :
  ∃ equal,
    check_connection list_tree 4 8 = Ok equal
    ∧ (equal = true ↔
       run_matches list_tree (Node.mk 3 "li" [] [5] "" [] 1) 3 (0 + 1) 2
       ∧ check_tag_match (Node.mk 3 "li" [] [5] "" [] 1)
                         (Node.mk 3 "li" [] [9] "" [] 1) = true)
    ∧ ∀ first_path second_path depth q memo verdict,
        first_path !! depth = Some 4 → second_path !! depth = Some 8 →
        first_path !! (depth - 1) = Some q →
        second_path !! (depth - 1) = Some q →
        memo !! (4 `min` 8, 4 `max` 8) = None →
        check_paths_step list_tree first_path second_path (verdict, memo) depth
        = Ok (if equal then Next (true, memo)
              else Break (false, <[(4 `min` 8, 4 `max` 8) := false]> memo)).
Proof.
  apply (check_connection_run list_tree 3 4 8 0 2
           (Node.mk 3 "li" [] [5] "" [] 1) (Node.mk 3 "li" [] [9] "" [] 1));
    [vm_compute; reflexivity..|lia].
Defined.

(** C6, as the specification words it, fails on two adjacent blocks of
    different tags: no sibling lies strictly between [div] and [p], so
    every such sibling tag-matches [div], yet the test compares [p] itself
    with [div] and judges the pair not equal; the path-equality test of the
    two text leaves fails for it. *)
Lemma check_connection_adjacent_counterexample :
  children_of mixed_tree 2 = [3; 5]
  ∧ run_matches mixed_tree (Node.mk 2 "div" [] [4] "" [] 1) 2 (0 + 1) 1
  ∧ check_connection mixed_tree 3 5 = Ok false
  ∧ (∃ memo, check_paths_equality 12 mixed_tree 4 6 ∅ = Ok (false, memo))
  ∧ ¬ (check_connection mixed_tree 3 5 = Ok true ↔
       run_matches mixed_tree (Node.mk 2 "div" [] [4] "" [] 1) 2 (0 + 1) 1).
Proof.
  assert (run_matches mixed_tree (Node.mk 2 "div" [] [4] "" [] 1) 2 (0 + 1) 1)
    as Hrun by (intros pos k n Hpos; lia).
  split; [vm_compute; reflexivity|]. split; [done|].
  split; [vm_compute; reflexivity|]. split.
  - eexists. vm_compute. reflexivity.
  - intros [_ Hiff]. specialize (Hiff Hrun). vm_compute in Hiff. discriminate.
Qed.

(** ** The greedy scan of the matcher *)

Section GreedyScan.
Variables (rec : nat → nat → result (nat * Matching)) (score : nat → nat → nat).
Variables (self tree : Tree).

Hypothesis rec_score : ∀ c k s m, rec c k = Ok (s, m) → s = score c k.

(** The state of the source's scan against the best candidate so far. *)
Lemma scan_candidate_pick (self_child : Node.t) (c : nat)
    (tree_childs : list nat) (positions : list nat) :
  ∀ (best : Best) (chosen : option (nat * nat)) (best' : Best),
  best.1.1 = from_option (λ b, Z.of_nat b.1) (-1)%Z chosen →
  best.1.2 = from_option snd 0 chosen →
  for_each (scan_candidate rec tree self_child c tree_childs) positions best
  = Ok best' →
  let chosen' :=
    foldl (λ best cand,
             match best with
             | None => if positive_score cand.2 then Some cand else None
             | Some b => if b.2 <? cand.2 then Some cand else best
             end)
          chosen
          (omap (λ pos,
                   k ← tree_childs !! pos;
                   m ← tree !! k;
                   if check_tag_match self_child m
                   then Some (pos, score c k) else None)
                positions) in
  best'.1.1 = from_option (λ b, Z.of_nat b.1) (-1)%Z chosen'
  ∧ best'.1.2 = from_option snd 0 chosen'.
Proof.
  induction positions as [|pos positions IH];
    intros best chosen best' Hpos Hscore Hrun.
  - simpl in Hrun. inv_ok Hrun. done.
  - simpl in Hrun. inv_ok Hrun. rename x into best1.
    destruct best as [[bpos bscore] bm]. simpl in Hpos, Hscore.
    unfold scan_candidate in Hx. inv_ok Hx. rename x into k, x0 into m.
    apply getitem_Ok in Hx0, Hx1.
    simpl. rewrite Hx0. simpl. rewrite Hx1. simpl.
    destruct (check_tag_match self_child m).
    + inv_ok Hx. destruct x as [matched matching].
      pose proof (rec_score _ _ _ _ Hx2) as ->.
      simpl. eapply (IH best1); [| |exact Hrun].
      * destruct chosen as [[p s]|]; simpl in *; subst.
        -- destruct (s <? score c k); by inv_ok Hx.
        -- unfold positive_score. destruct (0 <? score c k); by inv_ok Hx.
      * destruct chosen as [[p s]|]; simpl in *; subst.
        -- destruct (s <? score c k); by inv_ok Hx.
        -- unfold positive_score. destruct (0 <? score c k); by inv_ok Hx.
    + inv_ok Hx. eapply IH; [| |exact Hrun]; done.
Qed.

Lemma match_child_greedy (tree_childs : list nat) (self_childs : list nat) :
  ∀ (st st' : Scan),
  for_each (match_child rec self tree tree_childs) self_childs st = Ok st' →
  st'.1.2 = greedy_children positive_score score self tree tree_childs
                            self_childs st.1.1 st.1.2.
Proof.
  induction self_childs as [|c cs IH]; intros st st' Hrun.
  - simpl in Hrun. by inv_ok Hrun.
  - simpl in Hrun. inv_ok Hrun. rename x into st1.
    destruct st as [[cursor total] sub].
    unfold match_child in Hx. inv_ok Hx. rename x into self_child.
    apply getitem_Ok in Hx0. destruct x0 as [[bpos bscore] bm].
    destruct (scan_candidate_pick self_child c tree_childs
                (xrange cursor (length tree_childs)) ((-1)%Z, 0, []) None
                (bpos, bscore, bm) eq_refl eq_refl Hx1) as [Hpos Hscore].
    simpl in Hpos, Hscore. simpl. rewrite Hx0.
    unfold pick, candidates, xrange in *.
    destruct (foldl _ None _) as [[p s]|]; simpl in Hpos, Hscore; subst.
    + rewrite (proj2 (Z.ltb_lt _ _)) in Hx by lia. inv_ok Hx.
      rewrite (IH _ _ Hrun). simpl. f_equal. lia.
    + simpl in Hx. inv_ok Hx. by rewrite (IH _ _ Hrun).
Qed.
End GreedyScan.

(** The score the matcher returns is the score of the greedy scan that
    chooses among the candidates of positive score. *)
Lemma check_matching_greedy_score (fuel : nat) (self tree : Tree) :
  ∀ i j s m, check_matching fuel self tree i j = Ok (s, m) →
             s = greedy_score positive_score fuel self tree i j.
Proof.
  induction fuel as [|fuel IH]; intros i j s m Hrun; [done|].
  simpl in Hrun. inv_ok Hrun. rename x into n, x0 into nt.
  apply getitem_Ok in Hx, Hx0. simpl. rewrite Hx, Hx0.
  destruct (truthy (Node.text n)).
  - destruct (_ && _); by inv_ok Hrun.
  - inv_ok Hrun. destruct x as [[cursor total] sub]. inv_ok Hrun.
    exact (match_child_greedy _ _ self tree IH _ _ _ _ Hx1).
Qed.

(** What the choice among the candidates of positive score is: the first
    candidate of the highest score, if that score is positive. *)
Lemma pick_from (cands : list (nat * nat)) :
  ∀ best : option (nat * nat),
  let r := foldl (λ best cand,
                    match best with
                    | None => if positive_score cand.2 then Some cand else None
                    | Some b => if b.2 <? cand.2 then Some cand else best
                    end) best cands in
  (r = best ∧ ∀ x, x ∈ cands → x.2 ≤ from_option snd 0 best)
  ∨ (∃ b before after,
       r = Some b ∧ cands = before ++ b :: after
       ∧ from_option snd 0 best < b.2
       ∧ (∀ x, x ∈ before → x.2 < b.2) ∧ (∀ x, x ∈ after → x.2 ≤ b.2)).
Proof.
  induction cands as [|c cs IH]; intros best; simpl.
  { left. split; [done|]. intros x Hx. by apply elem_of_nil in Hx. }
  set (t := from_option snd 0 best).
  assert (match best with
          | None => if positive_score c.2 then Some c else None
          | Some b => if b.2 <? c.2 then Some c else best
          end = if t <? c.2 then Some c else best) as ->.
  { unfold t. by destruct best as [[p s]|]. }
  destruct (Nat.ltb_spec t c.2) as [Hlt|Hge].
  - right. destruct (IH (Some c)) as [[Hr Hall]|Hnew].
    + exists c, [], cs. simpl in *. split; [done|]. split; [done|].
      split; [done|]. split; [|done]. intros x Hx. by apply elem_of_nil in Hx.
    + destruct Hnew as (b & before & after & Hr & -> & Hb & Hbefore & Hafter).
      exists b, (c :: before), after. simpl in *. split; [done|].
      split; [done|]. split; [lia|]. split; [|done].
      intros x [->|Hx]%elem_of_cons; [done|]. by apply Hbefore.
  - destruct (IH best) as [[Hr Hall]|Hnew].
    + left. split; [done|]. intros x [->|Hx]%elem_of_cons; [done|].
      by apply Hall.
    + right.
      destruct Hnew as (b & before & after & Hr & -> & Hb & Hbefore & Hafter).
      exists b, (c :: before), after. fold t in Hb. split; [done|].
      split; [done|]. split; [done|]. split; [|done].
      intros x [->|Hx]%elem_of_cons; [lia|]. by apply Hbefore.
Qed.

Lemma pick_positive (cands : list (nat * nat)) :
  match pick positive_score cands with
  | Some b =>
    ∃ before after,
      cands = before ++ b :: after ∧ 0 < b.2
      ∧ (∀ x, x ∈ before → x.2 < b.2) ∧ (∀ x, x ∈ after → x.2 ≤ b.2)
  | None => ∀ x, x ∈ cands → x.2 = 0
  end.
Proof.
  unfold pick. destruct (pick_from cands None) as [[-> Hall]|Hnew].
  - intros x Hx. specialize (Hall x Hx). simpl in Hall. lia.
  - destruct Hnew as (b & before & after & -> & -> & Hb & Hbefore & Hafter).
    exists before, after. done.
Qed.

(** C3, as the code has it.  On well-formed arenas, with fuel for the
    subtree, the matcher returns, and its score is the score of the greedy
    scan: for a pair of non-text nodes a cursor into the other node's
    children starts at 0; each self-child in order considers the candidates
    at or after the cursor whose tag-match holds and takes the first one of
    the highest recursive score, provided that score is strictly positive;
    the cursor then moves past the chosen candidate; a self-child without a
    candidate of positive score contributes 0 and leaves the cursor in
    place; the score of the node is the sum of the chosen scores. *)
Theorem check_matching_greedy (fuel : nat) (self tree : Tree) (i j : nat) :
  well_formed self = true → well_formed tree = true →
  i < length self → j < length tree → length self - i ≤ fuel →
  (∃ s m, check_matching fuel self tree i j = Ok (s, m)
          ∧ s = greedy_score positive_score fuel self tree i j)
  ∧ ∀ cands,
      match pick positive_score cands with
      | Some b =>
        ∃ before after,
          cands = before ++ b :: after ∧ 0 < b.2
          ∧ (∀ x, x ∈ before → x.2 < b.2) ∧ (∀ x, x ∈ after → x.2 ≤ b.2)
      | None => ∀ x, x ∈ cands → x.2 = 0
      end.
Proof.
  intros Hwf%well_formed_wf Hwft%well_formed_wf Hi Hj Hfuel.
  split; [|apply pick_positive].
  destruct (check_matching_total self tree Hwf Hwft fuel i j Hi Hj Hfuel)
    as (s & m & Hrun).
  exists s, m. split; [done|]. by eapply check_matching_greedy_score.
Qed.

Lemma check_matching_greedy_witness :
  (∃ s m, check_matching 12 two_paragraphs one_paragraph 0 0 = Ok (s, m)
          ∧ s = greedy_score positive_score 12 two_paragraphs one_paragraph
                             0 0)
  ∧ ∀ cands,
      match pick positive_score cands with
      | Some b =>
        ∃ before after,
          cands = before ++ b :: after ∧ 0 < b.2
          ∧ (∀ x, x ∈ before → x.2 < b.2) ∧ (∀ x, x ∈ after → x.2 ≤ b.2)
      | None => ∀ x, x ∈ cands → x.2 = 0
      end.
Proof.
  apply (check_matching_greedy 12 two_paragraphs one_paragraph 0 0);
    [vm_compute; reflexivity..|vm_compute; lia|vm_compute; lia|vm_compute; lia].
Defined.

(** C3, as the specification words it, fails when the only candidate of a
    self-child scores 0.  Against [<p>bar</p>], the first paragraph of
    [<p>foo</p><p>bar</p>] has one tag-matching candidate, of score 0: the
    scan of the specification chooses it and moves the cursor past it, so
    that the second paragraph finds no candidate and the score is 0; the
    matcher leaves the cursor in place, matches the second paragraph and
    returns 1. *)
Lemma check_matching_zero_candidate_counterexample :
  check_matching 12 two_paragraphs one_paragraph 0 0
  = Ok (1, [(0, 1); (1, 1); (2, 1); (5, 1); (6, 1)])
  ∧ greedy_score any_score 12 two_paragraphs one_paragraph 0 0 = 0
  ∧ greedy_score positive_score 12 two_paragraphs one_paragraph 0 0 = 1.
Proof. repeat split; vm_compute; reflexivity. Qed.

(** ** Stripped texts *)

Lemma append_cons (c : ascii) (a b : string) :
  String c a +:+ b = String c (a +:+ b).
Proof. done. Qed.

Lemma append_nil (b : string) : EmptyString +:+ b = b.
Proof. done. Qed.

Lemma length_lstrip (s : string) :
  String.length (lstrip s) ≤ String.length s.
Proof.
  induction s as [|c s IH]; [done|]. simpl.
  destruct (is_space c); simpl; lia.
Qed.

Lemma lstrip_head (c : ascii) (s : string) :
  lstrip (String c s) = String c s → is_space c = false.
Proof.
  simpl. destruct (is_space c); [|done]. intros Heq.
  pose proof (length_lstrip s) as Hlen. rewrite Heq in Hlen. simpl in Hlen. lia.
Qed.

Lemma lstrip_idemp (s : string) : lstrip (lstrip s) = lstrip s.
Proof.
  induction s as [|c s IH]; [done|]. simpl.
  destruct (is_space c) eqn:Hc; [done|]. simpl. by rewrite Hc.
Qed.

Lemma rstrip_idemp (s : string) : rstrip (rstrip s) = rstrip s.
Proof.
  induction s as [|c s IH]; [done|]. simpl.
  destruct (is_space c && negb (truthy (rstrip s))) eqn:Hc; [done|].
  simpl. rewrite IH. by rewrite Hc.
Qed.

Lemma stripped_empty : stripped EmptyString.
Proof. done. Qed.

Lemma stripped_strip (s : string) : stripped (strip s).
Proof.
  unfold stripped, strip. split; [|apply rstrip_idemp].
  pose proof (lstrip_idemp s) as Hl.
  destruct (lstrip s) as [|c t]; [done|].
  apply lstrip_head in Hl. simpl. rewrite Hl. simpl. by rewrite Hl.
Qed.

Lemma stripped_stripped_or_empty (s : option string) :
  stripped (stripped_or_empty s).
Proof. destruct s; [apply stripped_strip|apply stripped_empty]. Qed.

Lemma rstrip_app_ge (a x : string) :
  rstrip a = a → String.length a ≤ String.length (rstrip (a +:+ x)).
Proof.
  induction a as [|c a IH]; intros Ha; [simpl; lia|].
  rewrite append_cons. simpl in *.
  destruct (is_space c && negb (truthy (rstrip a))) eqn:Hc; [done|].
  injection Ha as Ha. specialize (IH Ha). rewrite Ha in Hc.
  destruct (is_space c && negb (truthy (rstrip (a +:+ x)))) eqn:Hc'.
  - exfalso. apply andb_true_iff in Hc' as [Hsp Hr]. rewrite Hsp in Hc.
    simpl in Hc. apply negb_false_iff in Hc. apply negb_true_iff in Hr.
    destruct a; [done|]. destruct (rstrip _); [simpl in IH; lia|done].
  - simpl. lia.
Qed.

(** Joining more text to a stripped text never shortens it. *)
Lemma stripped_grows (a b : string) :
  stripped a → (len a ≤ len (strip (join_space a b)))%Z.
Proof.
  intros [Hl Hr]. unfold len, strip, join_space. apply inj_le.
  destruct a as [|c a]; [simpl; lia|].
  pose proof (lstrip_head _ _ Hl) as Hc.
  rewrite append_cons.
  change (lstrip (String c ?s)) with (if is_space c then lstrip s else String c s).
  rewrite Hc. rewrite <- append_cons. by apply rstrip_app_ge.
Qed.

(** ** The zone store *)

Lemma zlength_set_length (v : Z) (z : MarkZone.t) :
  MarkZone.length (MarkZone.set_length v z) = v.
Proof. done. Qed.

Lemma zstart_set_length (v : Z) (z : MarkZone.t) :
  MarkZone.start (MarkZone.set_length v z) = MarkZone.start z.
Proof. done. Qed.

Lemma is_open_ext (S S' : ZoneStore) (z : zref) :
  S' !!! z = S !!! z → is_open S' z = is_open S z.
Proof. unfold is_open, zlength. by intros ->. Qed.

Lemma opens_of_ext (S S' : ZoneStore) (zones : list zref) :
  (∀ z, z ∈ zones → S' !!! z = S !!! z) → opens_of S' zones = opens_of S zones.
Proof.
  intros Heq. unfold opens_of. apply filter_ext_in. intros z Hz.
  by rewrite (is_open_ext S S' z (Heq z Hz)).
Qed.

Lemma store_extends_refl (S : ZoneStore) : store_extends S S.
Proof. split; [done|]. done. Qed.

Lemma store_extends_trans (S1 S2 S3 : ZoneStore) :
  store_extends S1 S2 → store_extends S2 S3 → store_extends S1 S3.
Proof.
  intros [Hlen1 Hsame1] [Hlen2 Hsame2]. split; [lia|].
  intros z Hz Hclosed. rewrite Hsame2; [by apply Hsame1|lia|].
  rewrite (is_open_ext S1 S2 z); [done|by apply Hsame1].
Qed.

Lemma store_extends_alloc (S : ZoneStore) (zone : MarkZone.t) :
  store_extends S (S ++ [zone]).
Proof.
  split; [rewrite length_app; simpl; lia|].
  intros z Hz _. by apply lookup_total_app_l.
Qed.

(** Writing to an open zone extends the store. *)
Lemma store_extends_insert (S : ZoneStore) (z : zref) (zone : MarkZone.t) :
  is_open S z = true → store_extends S (<[z := zone]> S).
Proof.
  intros Hopen. split; [by rewrite length_insert|].
  intros z' Hz' Hclosed. apply list_lookup_total_insert_ne. congruence.
Qed.

Lemma zone_valid_extends (S S' : ZoneStore) (text : string) (z : zref) :
  store_extends S S' → zone_valid S text z → zone_valid S' text z.
Proof.
  intros [Hlen Hsame] (Hz & Hstart & Hlength & Hend).
  assert (S' !!! z = S !!! z) as Heq.
  { apply Hsame; [done|]. unfold is_open. apply Z.eqb_neq. lia. }
  unfold zone_valid, zstart, zlength in *. rewrite Heq.
  split; [lia|done].
Qed.

Lemma zones_valid_extends (self : Tree) (S S' : ZoneStore) :
  store_extends S S' → zones_valid self S → zones_valid self S'.
Proof.
  intros Hext Hvalid i n z Hi Hz. eapply zone_valid_extends; [done|].
  by eapply Hvalid.
Qed.

Lemma pending_ok_grows (S : ZoneStore) (text text' : string) (z : zref) :
  (len text ≤ len text')%Z → pending_ok S text z → pending_ok S text' z.
Proof. unfold pending_ok. intros Hlen (Hz & Hstart & Hlength). lia. Qed.

Lemma pending_ok_ext (S S' : ZoneStore) (text : string) (z : zref) :
  length S ≤ length S' → S' !!! z = S !!! z →
  pending_ok S text z → pending_ok S' text z.
Proof.
  unfold pending_ok, zstart, zlength. intros Hlen -> (Hz & Hstart & Hlength).
  split; [lia|done].
Qed.

(** ** Splitting the zones: [__split_mark_zones] *)

Lemma split_zone_open (tl : Z) (S : ZoneStore) (fn ff : list zref) (z : zref) :
  z < length S → is_open S z = true →
  split_zone tl (S, fn, ff) z
  = (<[z := MarkZone.set_length (tl - zstart S z) (S !!! z)]>
       (S ++ [MarkZone.set_start 0 (S !!! z)]),
     if (tl - zstart S z =? 0)%Z then fn else fn ++ [z],
     ff ++ [length S]).
Proof.
  intros Hz Hopen. unfold is_open, zlength in Hopen.
  unfold split_zone, alloc. rewrite Hopen.
  assert (<[length S := MarkZone.set_start 0 ((S ++ [S !!! z]) !!! length S)]>
            (S ++ [S !!! z]) = S ++ [MarkZone.set_start 0 (S !!! z)]) as ->.
  { rewrite list_lookup_total_middle by done.
    replace (length S) with (length S + 0) at 1 by lia.
    by rewrite insert_app_r. }
  rewrite lookup_total_app_l by done.
  rewrite list_lookup_total_insert_eq
    by (rewrite length_app; simpl; lia).
  rewrite zlength_set_length. unfold zstart.
  by destruct (tl - MarkZone.start (S !!! z) =? 0)%Z.
Qed.

Lemma split_zone_closed (tl : Z) (S : ZoneStore) (fn ff : list zref)
    (z : zref) :
  is_open S z = false →
  split_zone tl (S, fn, ff) z
  = (S, if (zlength S z =? 0)%Z then fn else fn ++ [z], ff).
Proof.
  intros Hopen. unfold is_open, zlength in *. unfold split_zone.
  rewrite Hopen. by destruct (MarkZone.length (S !!! z) =? 0)%Z.
Qed.

Lemma split_loop (tl : Z) (zones : list zref) :
  ∀ (sto : ZoneStore) (fn ff : list zref),
  NoDup zones → (∀ z, z ∈ zones → z < length sto) →
  ∃ sto' fn1 ff1,
    foldl (split_zone tl) (sto, fn, ff) zones = (sto', fn ++ fn1, ff ++ ff1)
    ∧ length sto ≤ length sto'
    ∧ (∀ z, z < length sto → z ∉ zones ∨ is_open sto z = false →
            sto' !!! z = sto !!! z)
    ∧ (∀ z, z ∈ zones → is_open sto z = true →
            sto' !!! z = MarkZone.set_length (tl - zstart sto z) (sto !!! z))
    ∧ (∀ z, z ∈ fn1 → z ∈ zones ∧ zlength sto' z ≠ 0%Z)
    ∧ length ff1 = length (opens_of sto zones)
    ∧ NoDup ff1
    ∧ Forall (λ z', length sto ≤ z' < length sto'
                    ∧ zstart sto' z' = 0%Z ∧ zlength sto' z' = (-1)%Z) ff1.
Proof.
  induction zones as [|z zs IH]; intros sto fn ff Hnd Hlt.
  { exists sto, [], []. rewrite !app_nil_r. simpl.
    split; [done|]. split; [done|]. split; [done|]. split.
    { intros z0 Hz0. by apply elem_of_nil in Hz0. }
    split.
    { intros z0 Hz0. by apply elem_of_nil in Hz0. }
    split; [done|]. split; constructor. }
  apply NoDup_cons in Hnd as [Hz Hnd].
  assert (z < length sto) as Hzlt by (apply Hlt; by left).
  cbn [foldl]. destruct (is_open sto z) eqn:Hopen.
  - rewrite split_zone_open by done.
    set (sto1 := <[z := MarkZone.set_length (tl - zstart sto z) (sto !!! z)]>
                 (sto ++ [MarkZone.set_start 0 (sto !!! z)])).
    set (fa := if (tl - zstart sto z =? 0)%Z then [] else [z]).
    assert ((if (tl - zstart sto z =? 0)%Z then fn else fn ++ [z]) = fn ++ fa)
      as ->.
    { unfold fa. destruct (tl - zstart sto z =? 0)%Z; [by rewrite app_nil_r|done]. }
    assert (length sto1 = S (length sto)) as Hlen1.
    { unfold sto1. rewrite length_insert, length_app. simpl. lia. }
    assert (sto1 !!! z = MarkZone.set_length (tl - zstart sto z) (sto !!! z)) as Hz1.
    { unfold sto1. apply list_lookup_total_insert_eq.
      rewrite length_app. simpl. lia. }
    assert (∀ z0, z0 < length sto → z0 ≠ z → sto1 !!! z0 = sto !!! z0) as Hother.
    { intros z0 Hz0 Hne. unfold sto1.
      rewrite list_lookup_total_insert_ne by done.
      by apply lookup_total_app_l. }
    assert (sto1 !!! length sto = MarkZone.set_start 0 (sto !!! z)) as Hcopy.
    { unfold sto1. rewrite list_lookup_total_insert_ne by lia.
      by apply list_lookup_total_middle. }
    destruct (IH sto1 (fn ++ fa) (ff ++ [length sto]) Hnd) as
      (sto' & fn1 & ff1 & Hrun & Hlen & Hsame & Hclosed & Hfn & Hff & Hnd' & Hall).
    { intros z0 Hz0. rewrite Hlen1. specialize (Hlt z0). 
      assert (z0 < length sto) by (apply Hlt; by right). lia. }
    exists sto', (fa ++ fn1), ([length sto] ++ ff1).
    rewrite !app_assoc. split; [done|]. split; [lia|].
    assert (∀ z0, z0 ∈ zs → sto1 !!! z0 = sto !!! z0) as Hzs.
    { intros z0 Hz0. apply Hother; [apply Hlt; by right|]. by intros ->. }
    split; [|split; [|split; [|split; [|split]]]].
    + intros z0 Hz0 Hcase.
      assert (z0 ≠ z) as Hne.
      { destruct Hcase as [Hnot|Hcl]; [|congruence].
        intros ->. apply Hnot. by left. }
      rewrite Hsame; [by apply Hother|lia|].
      destruct Hcase as [Hnot|Hcl].
      * left. intros Hin. apply Hnot. by right.
      * right. rewrite (is_open_ext sto sto1 z0); [done|by apply Hother].
    + intros z0 [->|Hin]%elem_of_cons Hopen0.
      * rewrite Hsame; [done|lia|by left].
      * rewrite Hclosed; [|done|].
        -- unfold zstart. by rewrite (Hzs z0 Hin).
        -- by rewrite (is_open_ext sto sto1 z0 (Hzs z0 Hin)).
    + intros z0 [Hin|Hin]%elem_of_app.
      * unfold fa in Hin. destruct (tl - zstart sto z =? 0)%Z eqn:Hnz;
          [by apply elem_of_nil in Hin|].
        apply list_elem_of_singleton in Hin as ->. split; [by left|].
        unfold zlength. rewrite Hsame; [|lia|by left].
        rewrite Hz1, zlength_set_length. by apply Z.eqb_neq.
      * destruct (Hfn z0 Hin). split; [by right|done].
    + simpl. unfold opens_of at 1. rewrite filter_cons_True by done.
      simpl. f_equal. rewrite Hff. f_equal. by apply opens_of_ext.
    + simpl. apply NoDup_cons. split; [|done]. intros Hin.
      rewrite Forall_forall in Hall. specialize (Hall _ Hin). lia.
    + simpl. constructor.
      * split; [lia|].
        assert (sto' !!! length sto = MarkZone.set_start 0 (sto !!! z)) as Heq.
        { rewrite Hsame; [done|lia|]. left. intros Hin.
          assert (length sto < length sto) by (apply Hlt; by right). lia. }
        unfold zstart, zlength. rewrite Heq. simpl. split; [done|].
        unfold is_open, zlength in Hopen. by apply Z.eqb_eq.
      * eapply Forall_impl; [done|]. simpl. intros z' ?. lia.
  - rewrite split_zone_closed by done.
    set (fa := if (zlength sto z =? 0)%Z then [] else [z]).
    assert ((if (zlength sto z =? 0)%Z then fn else fn ++ [z]) = fn ++ fa) as ->.
    { unfold fa. destruct (zlength sto z =? 0)%Z; [by rewrite app_nil_r|done]. }
    destruct (IH sto (fn ++ fa) ff Hnd) as
      (sto' & fn1 & ff1 & Hrun & Hlen & Hsame & Hclosed & Hfn & Hff & Hnd' & Hall).
    { intros z0 Hz0. apply Hlt. by right. }
    exists sto', (fa ++ fn1), ff1.
    rewrite !app_assoc. split; [done|]. split; [lia|].
    split; [|split; [|split; [|split; [|split]]]].
    + intros z0 Hz0 Hcase. apply Hsame; [done|].
      destruct Hcase as [Hnot|Hcl]; [|by right].
      left. intros Hin. apply Hnot. by right.
    + intros z0 [->|Hin]%elem_of_cons Hopen0; [congruence|].
      by apply Hclosed.
    + intros z0 [Hin|Hin]%elem_of_app.
      * unfold fa in Hin. destruct (zlength sto z =? 0)%Z eqn:Hnz;
          [by apply elem_of_nil in Hin|].
        apply list_elem_of_singleton in Hin as ->. split; [by left|].
        unfold zlength. rewrite Hsame; [|done|by right].
        by apply Z.eqb_neq.
      * destruct (Hfn z0 Hin). split; [by right|done].
    + unfold opens_of at 1. rewrite filter_cons_False by congruence. done.
    + done.
    + done.
Qed.

Lemma Forall2_of_Forall {A B} (P : A → Prop) (Q : B → Prop)
    (R : A → B → Prop) (l : list A) (k : list B) :
  length l = length k → Forall P l → Forall Q k →
  (∀ x y, P x → Q y → R x y) → Forall2 R l k.
Proof.
  intros Hlen Hl Hk HR. revert k Hlen Hk.
  induction Hl as [|x l Hx Hl IH]; intros [|y k] Hlen Hk; simplify_eq/=.
  - constructor.
  - apply Forall_cons in Hk as [Hy Hk]. constructor; [by apply HR|].
    by apply IH.
Qed.

Lemma split_mark_zones_spec (sto : ZoneStore) (zones : list zref) (tl : Z)
    (text : string) :
  NoDup zones → Forall (pending_ok sto text) zones → (tl ≤ len text)%Z →
  (∀ z, z ∈ zones → is_open sto z = true → (zstart sto z ≤ tl)%Z) →
  ∃ sto' fn ff,
    split_mark_zones sto zones tl = (sto', fn, ff)
    ∧ store_extends sto sto'
    ∧ Forall (zone_valid sto' text) fn
    ∧ followers_ok sto' ff
    ∧ length ff = length (opens_of sto zones).
Proof.
  intros Hnd Hok Htl Hopen. rewrite Forall_forall in Hok.
  destruct (split_loop tl zones sto [] [] Hnd) as
    (sto' & fn & ff & Hrun & Hlen & Hsame & Hclosed & Hfn & Hff & Hnd' & Hall).
  { intros z Hz. by destruct (Hok z Hz). }
  exists sto', fn, ff. split; [done|]. split; [|split; [|split]].
  - split; [done|]. intros z Hz Hcl. apply Hsame; [done|by right].
  - apply Forall_forall. intros z Hz. destruct (Hfn z Hz) as [Hin Hnz].
    destruct (Hok z Hin) as (Hzlt & Hstart & Hlength).
    destruct (is_open sto z) eqn:Ho.
    + specialize (Hopen z Hin Ho).
      unfold zone_valid, zstart, zlength in *.
      rewrite (Hclosed z Hin Ho) in *.
      rewrite zlength_set_length, zstart_set_length in *.
      fold (zstart sto z) in *. split; [lia|]. lia.
    + unfold zone_valid, zstart, zlength in *.
      rewrite (Hsame z Hzlt (or_intror Ho)) in *.
      unfold is_open, zlength in Ho. apply Z.eqb_neq in Ho.
      split; [lia|]. lia.
  - split; [done|]. eapply Forall_impl; [done|]. simpl.
    intros z' (Hz' & Hs & Hl). split; [lia|]. split; [done|].
    unfold is_open. by apply Z.eqb_eq.
  - done.
Qed.

Lemma followers_pending (sto : ZoneStore) (ff : list zref) (text : string) :
  followers_ok sto ff →
  Forall (pending_ok sto text) ff ∧ opens_of sto ff = ff.
Proof.
  intros [_ Hall]. split.
  - eapply Forall_impl; [done|]. simpl. intros z (Hz & Hs & Ho).
    unfold pending_ok. rewrite Hs. unfold is_open in Ho.
    apply Z.eqb_eq in Ho. split; [done|]. split; [|by left].
    unfold len. lia.
  - unfold opens_of. apply filter_all. eapply Forall_impl; [done|].
    simpl. tauto.
Qed.

Lemma followers_follow (sto sto' : ZoneStore) (zones ff : list zref)
    (text : string) :
  Forall (pending_ok sto text) zones → followers_ok sto' ff →
  length ff = length (opens_of sto zones) →
  opens_follow sto sto' zones ff.
Proof.
  intros Hok Hff Hlen. unfold opens_follow.
  rewrite (proj2 (followers_pending _ _ text Hff)).
  eapply (Forall2_of_Forall
            (λ z', zstart sto' z' = 0%Z) (λ z, 0 ≤ zstart sto z)%Z);
    [done| | |].
  - destruct Hff as [_ Hall]. eapply Forall_impl; [done|]. simpl. tauto.
  - unfold opens_of. apply Forall_forall. intros z Hz.
    apply list_elem_of_filter in Hz as [_ Hz].
    rewrite Forall_forall in Hok. destruct (Hok z Hz) as (_ & Hs & _). lia.
  - simpl. intros x y Hx Hy. lia.
Qed.

(** ** Appending a node *)

Lemma append_child_marks (self self' : Tree) (p k : nat) (child : Node.t) :
  append_child self p child = Ok (self', k) →
  k = length self ∧ length self' = S (length self)
  ∧ ∀ i n', self' !! i = Some n' →
      (∃ n, self !! i = Some n ∧ Node.text n' = Node.text n
            ∧ Node.mark_zones n' = Node.mark_zones n)
      ∨ (i = length self ∧ Node.text n' = Node.text child
         ∧ Node.mark_zones n' = Node.mark_zones child).
Proof.
  unfold append_child. intros Hrun. inv_ok Hrun. rename x into parent.
  apply getitem_Ok in Hx.
  split; [rewrite length_app; simpl; lia|].
  split; [rewrite length_insert, length_app; simpl; lia|].
  assert (∀ i n, (self ++ [child]) !! i = Some n →
            (self !! i = Some n) ∨ (i = length self ∧ n = child)) as Hcases.
  { intros i n Hi. apply lookup_app_Some in Hi as [Hi|[Hge Hi]]; [by left|].
    right. apply list_lookup_singleton_Some in Hi as [Hi ->].
    split; [lia|done]. }
  intros i n' Hi. destruct (decide (i = p)) as [->|Hne].
  - rewrite list_lookup_insert_eq in Hi by by eapply lookup_lt_Some.
    injection Hi as <-. simpl.
    destruct (Hcases p parent Hx) as [Hp|[Hp ->]]; [left; eauto|by right].
  - rewrite list_lookup_insert_ne in Hi by done.
    destruct (Hcases i n' Hi) as [Hp|[Hp ->]]; [left; eauto|by right].
Qed.

Lemma append_child_zones_valid (self self' : Tree) (p k : nat)
    (child : Node.t) (sto : ZoneStore) :
  append_child self p child = Ok (self', k) →
  zones_valid self sto →
  Forall (zone_valid sto (Node.text child)) (Node.mark_zones child) →
  zones_valid self' sto.
Proof.
  intros Hrun Hvalid Hchild i n' z Hi Hz.
  destruct (append_child_marks _ _ _ _ _ Hrun) as (_ & _ & Hcases).
  destruct (Hcases i n' Hi) as [(n & Hn & -> & Hmz)|(_ & -> & Hmz)];
    rewrite Hmz in Hz.
  - by eapply Hvalid.
  - rewrite Forall_forall in Hchild. by apply Hchild.
Qed.

(** ** Flushing the pending text *)

Lemma flush_spec (b b' : Builder) (p : nat) (text : string)
    (zones ff : list zref) (tl : Z) :
  flush b p text zones tl = Ok (b', ff) →
  zones_valid (nodes b) (store b) → NoDup zones →
  Forall (pending_ok (store b) text) zones → (tl ≤ len text)%Z →
  (∀ z, z ∈ zones → is_open (store b) z = true → (zstart (store b) z ≤ tl)%Z) →
  zones_valid (nodes b') (store b')
  ∧ store_extends (store b) (store b')
  ∧ followers_ok (store b') ff
  ∧ opens_follow (store b) (store b') zones ff.
Proof.
  intros Hrun Hvalid Hnd Hok Htl Hopen. unfold flush in Hrun.
  destruct (split_mark_zones_spec _ _ _ _ Hnd Hok Htl Hopen) as
    (sto' & fn & ff' & Hsplit & Hext & Hfn & Hff & Hlen).
  rewrite Hsplit in Hrun. inv_ok Hrun. destruct x as [self' k].
  inv_ok Hrun. simpl. split; [|split; [done|split; [done|]]].
  - eapply append_child_zones_valid; [done| |done].
    by eapply zones_valid_extends.
  - by eapply followers_follow.
Qed.

(** ** Closing the zone of an inline element *)

Lemma close_loop (zs : list zref) (text : string) (sto : ZoneStore) (k : nat) :
  k ≤ length zs →
  for_break (close_zone zs text) (reverse (seq 0 k)) (sto, 1%Z)
  = Ok (match last (opens_of sto (take k zs)) with
        | Some z =>
          (<[z := MarkZone.set_length (len text - zstart sto z) (sto !!! z)]>
             sto, 0%Z)
        | None => (sto, 1%Z)
        end).
Proof.
  induction k as [|k IH]; intros Hk; [done|].
  rewrite seq_S, reverse_snoc. simpl.
  destruct (lookup_lt_is_Some_2 zs k) as [z Hz]; [lia|].
  rewrite (take_S_r _ _ _ Hz). unfold opens_of. rewrite filter_app.
  unfold close_zone at 1. rewrite (getitem_lookup _ _ _ Hz). simpl.
  fold (zlength sto z). fold (is_open sto z).
  destruct (is_open sto z) eqn:Hopen.
  - rewrite filter_cons_True by done. rewrite filter_nil, last_snoc. done.
  - rewrite filter_cons_False by congruence. rewrite filter_nil, app_nil_r.
    apply IH. lia.
Qed.

Lemma Forall2_snoc_inv {A B} (R : A → B → Prop) (l : list A) (k : list B)
    (y : B) :
  Forall2 R l (k ++ [y]) → ∃ l' x, l = l' ++ [x] ∧ Forall2 R l' k ∧ R x y.
Proof.
  intros H. apply Forall2_app_inv_r in H as (l1 & l2 & H1 & H2 & ->).
  inversion H2 as [|x y' l2' k' Hxy Hnil]; subst.
  inversion Hnil; subst. by exists l1, x.
Qed.

(** Closing the last open zone of the pending list at the end of the
    text. *)
Lemma close_last_open (sto : ZoneStore) (text : string) (zs os : list zref)
    (z : zref) :
  NoDup zs → Forall (pending_ok sto text) zs → opens_of sto zs = os ++ [z] →
  let sto1 :=
    <[z := MarkZone.set_length (len text - zstart sto z) (sto !!! z)]> sto in
  for_break (close_zone zs text) (reverse (seq 0 (length zs))) (sto, 1%Z)
  = Ok (sto1, 0%Z)
  ∧ store_extends sto sto1
  ∧ Forall (pending_ok sto1 text) zs
  ∧ opens_of sto1 zs = os
  ∧ ∀ z', zstart sto1 z' = zstart sto z'.
Proof.
  intros Hnd Hok Hopens sto1.
  assert (z ∈ opens_of sto zs) as Hz.
  { rewrite Hopens. apply elem_of_app. right. by left. }
  apply list_elem_of_filter in Hz as [Hopen Hin].
  rewrite Forall_forall in Hok.
  destruct (Hok z Hin) as (Hzlt & Hstart & _).
  assert (sto1 !!! z
          = MarkZone.set_length (len text - zstart sto z) (sto !!! z)) as Hz1
    by by apply list_lookup_total_insert_eq.
  assert (∀ z', z' ≠ z → sto1 !!! z' = sto !!! z') as Hother.
  { intros z' Hne. by apply list_lookup_total_insert_ne. }
  assert (∀ z', zstart sto1 z' = zstart sto z') as Hstarts.
  { intros z'. unfold zstart. destruct (decide (z' = z)) as [->|Hne].
    - by rewrite Hz1.
    - by rewrite Hother. }
  split; [|split; [|split; [|split]]].
  - rewrite close_loop by done. rewrite firstn_all, Hopens, last_snoc. done.
  - by apply store_extends_insert.
  - apply Forall_forall. intros z' Hz'.
    destruct (Hok z' Hz') as (Hlt' & Hstart' & Hlength').
    destruct (decide (z' = z)) as [->|Hne].
    + unfold pending_ok. rewrite Hstarts. unfold zlength. rewrite Hz1.
      rewrite zlength_set_length. unfold sto1. rewrite length_insert.
      split; [done|]. split; [done|]. right. lia.
    + apply (pending_ok_ext sto); [|by apply Hother|done].
      unfold sto1. by rewrite length_insert.
  - assert (opens_of sto1 zs = filter (λ z', z' ≠ z) (opens_of sto zs)) as ->.
    { unfold opens_of. rewrite list_filter_filter. apply filter_ext_in.
      intros z' Hz'. destruct (decide (z' = z)) as [->|Hne].
      - unfold is_open at 1. unfold zlength. rewrite Hz1, zlength_set_length.
        split; [|tauto]. intros Heq%Z.eqb_eq. lia.
      - rewrite (is_open_ext sto sto1 z' (Hother z' Hne)). tauto. }
    rewrite Hopens, filter_app.
    rewrite filter_cons_False by (intros Hne; by apply Hne).
    rewrite filter_nil, app_nil_r. apply filter_all.
    assert (NoDup (os ++ [z])) as Hnd'.
    { rewrite <- Hopens. by apply NoDup_filter. }
    apply NoDup_app in Hnd' as (_ & Hdisj & _).
    apply Forall_forall. intros z' Hz' ->. apply (Hdisj z Hz'). by left.
  - done.
Qed.

(** ** The steps of the builder *)

Lemma opens_follow_refl (sto : ZoneStore) (zones : list zref) :
  opens_follow sto sto zones zones.
Proof.
  unfold opens_follow. apply Forall_Forall2_diag, Forall_forall.
  intros z _. lia.
Qed.

Lemma opens_follow_trans (s1 s2 s3 : ZoneStore) (z1 z2 z3 : list zref) :
  opens_follow s1 s2 z1 z2 → opens_follow s2 s3 z2 z3 →
  opens_follow s1 s3 z1 z3.
Proof.
  unfold opens_follow. intros H12 H23.
  eapply Forall2_trans; [|exact H23|exact H12].
  simpl. intros x y z Hxy Hyz. lia.
Qed.

Lemma zones_step_refl (st : Pending) : zones_inv st → zones_step st st.
Proof.
  intros Hinv. split; [done|]. split; [apply store_extends_refl|].
  apply opens_follow_refl.
Qed.

Lemma zones_step_trans (st1 st2 st3 : Pending) :
  zones_step st1 st2 → zones_step st2 st3 → zones_step st1 st3.
Proof.
  intros (_ & Hext12 & Hfol12) (Hinv & Hext23 & Hfol23).
  split; [done|]. split; [by eapply store_extends_trans|].
  by eapply opens_follow_trans.
Qed.

Lemma truthy_false (s : string) : truthy s = false → s = EmptyString.
Proof. by destruct s. Qed.

Lemma flush_pending_zones (is_block to_skip : bool) (p : nat)
    (st st' : Pending) :
  flush_pending is_block to_skip p st = Ok st' → zones_inv st →
  zones_step st st' ∧ (is_block || to_skip = true → st'.1.2 = EmptyString).
Proof.
  destruct st as [[b text] zones]. intros Hrun (Hstr & Hnd & Hok & Hvalid).
  simpl in *. destruct (truthy text && (is_block || to_skip)) eqn:Hcond.
  - inv_ok Hrun. destruct x as [b' ff]. inv_ok Hrun.
    destruct (flush_spec _ _ _ _ _ _ _ Hx Hvalid Hnd Hok) as
      (Hvalid' & Hext & Hff & Hfol); [lia| |].
    { intros z Hz _. rewrite Forall_forall in Hok.
      destruct (Hok z Hz) as (_ & Hs & _). lia. }
    split; [|done]. split; [|done].
    split; [apply stripped_empty|]. split; [by destruct Hff|].
    split; [|done]. by apply followers_pending.
  - inv_ok Hrun. split; [by apply zones_step_refl|].
    intros Hbs. rewrite Hbs, andb_true_r in Hcond. by apply truthy_false.
Qed.

Lemma join_tail_zones (node : lxml) (st st1 : Pending) :
  zones_step st st1 →
  ∃ st', join_tail node (Next st1) = Next st' ∧ zones_step st st'.
Proof.
  destruct st1 as [[b1 text1] zones1].
  intros ((Hstr & Hnd & Hok & Hvalid) & Hext & Hfol). simpl in *.
  eexists. split; [done|]. split; [|done].
  split; [apply stripped_strip|]. split; [done|]. split; [|done]. simpl.
  eapply Forall_impl; [done|]. intros z. apply pending_ok_grows.
  by apply stripped_grows.
Qed.

Lemma Forall2_impl_in {A B} (R R' : A → B → Prop) (l : list A)
    (k : list B) :
  Forall2 R l k → (∀ x y, y ∈ k → R x y → R' x y) → Forall2 R' l k.
Proof.
  induction 1 as [|x y l k Hxy Hlk IH]; intros Himpl; constructor.
  - apply Himpl; [by left|done].
  - apply IH. intros x' y' Hy'. apply Himpl. by right.
Qed.

Section Recursion.
Variables (translate : Translate) (children : list lxml).

Hypothesis translate_zones :
  ∀ p b t z st', translate children p b t z = Ok st' →
    zones_inv (b, t, z) → zones_step (b, t, z) st'.

Lemma translate_block_zones (tag : string) (child_classes : list string)
    (text : string) (p : nat) (st : Pending) (c : control Pending) :
  translate_block translate tag child_classes text children p st = Ok c →
  stripped text → zones_inv st → st.1.2 = EmptyString →
  ∃ st', c = Next st' ∧ zones_step st st'.
Proof.
  destruct st as [[b text_before] zones].
  intros Hrun Htext (Hstr & Hnd & Hok & Hvalid) Hempty. simpl in *.
  subst text_before. inv_ok Hrun. destruct x as [self node_index].
  inv_ok Hrun. destruct x as [[b2 text_left] zones2].
  assert (zones_inv (mkBuilder self (store b), text, zones)) as Hinv.
  { split; [done|]. split; [done|]. simpl. split.
    - eapply Forall_impl; [done|]. intros z. apply pending_ok_grows.
      unfold len. simpl. lia.
    - eapply append_child_zones_valid; [done..|]. constructor. }
  destruct (translate_zones _ _ _ _ _ Hx0 Hinv) as (Hinv2 & Hext & Hfol).
  simpl in Hext, Hfol. destruct Hinv2 as (Hstr2 & Hnd2 & Hok2 & Hvalid2).
  simpl in *. destruct (truthy text_left) eqn:Hleft.
  - inv_ok Hrun. destruct x as [b3 ff]. inv_ok Hrun.
    destruct (flush_spec _ _ _ _ _ _ _ Hx1 Hvalid2 Hnd2 Hok2) as
      (Hvalid3 & Hext3 & Hff & Hfol3).
    { unfold len. simpl. lia. }
    { intros z Hz Hopen.
      assert (Forall (λ z', zstart (store b2) z' ≤ 0)%Z
                     (opens_of (store b2) zones2)) as Hzero.
      { eapply Forall2_Forall_l; [exact Hfol|].
        apply Forall_forall. intros y Hy z' Hle.
        apply list_elem_of_filter in Hy as [_ Hy].
        rewrite Forall_forall in Hok. destruct (Hok y Hy) as (_ & Hs & _).
        unfold len in Hs. simpl in Hs. lia. }
      rewrite Forall_forall in Hzero. apply Hzero.
      by apply list_elem_of_filter. }
    eexists. split; [done|]. split; [|split]; simpl.
    + split; [apply stripped_empty|]. split; [by destruct Hff|].
      split; [|done]. by apply followers_pending.
    + by eapply store_extends_trans.
    + by eapply opens_follow_trans.
  - inv_ok Hrun. apply truthy_false in Hleft. subst text_left.
    eexists. split; [done|]. split; [|split]; simpl; done.
Qed.

Lemma translate_inline_zones (tag : string) (child_classes : list string)
    (link text : string) (p : nat) (st : Pending) (c : control Pending) :
  translate_inline translate tag child_classes link text children p st
  = Ok c →
  zones_inv st → ∃ st', c = Next st' ∧ zones_step st st'.
Proof.
  destruct st as [[b text_before] zones].
  intros Hrun (Hstr & Hnd & Hok & Hvalid). simpl in *.
  set (zone := MarkZone.mk (len text_before) (-1) tag child_classes link) in *.
  set (sto0 := store b ++ [zone]) in *.
  set (new := length (store b)) in *.
  set (text1 := strip (join_space text_before text)) in *.
  inv_ok Hrun. destruct x as [[b2 text2] zs]. inv_ok Hrun.
  destruct x as [sto1 add_len].
  rewrite Forall_forall in Hok.
  assert (∀ z, z ∈ zones → sto0 !!! z = store b !!! z) as Hold.
  { intros z Hz. destruct (Hok z Hz) as (Hlt & _).
    by apply lookup_total_app_l. }
  assert (sto0 !!! new = zone) as Hnew by by apply list_lookup_total_middle.
  assert (is_open sto0 new = true) as Hopen_new.
  { unfold is_open, zlength. by rewrite Hnew. }
  assert (zones_inv (mkBuilder (nodes b) sto0, text1, zones ++ [new])) as Hinv.
  { split; [apply stripped_strip|]. simpl. split; [|split].
    - apply NoDup_app. split; [done|]. split; [|apply NoDup_singleton].
      intros z Hz ->%list_elem_of_singleton.
      destruct (Hok _ Hz) as (Hlt & _). unfold new in Hlt. lia.
    - apply Forall_app. split.
      + apply Forall_forall. intros z Hz.
        apply (pending_ok_ext (store b)); [|by apply Hold|].
        * unfold sto0. rewrite length_app. simpl. lia.
        * eapply pending_ok_grows; [|by apply Hok].
          by apply stripped_grows.
      + constructor; [|constructor]. unfold pending_ok, zstart, zlength.
        rewrite Hnew. simpl. split.
        * unfold sto0, new. rewrite length_app. simpl. lia.
        * split; [|by left]. split; [unfold len; lia|].
          by apply stripped_grows.
    - eapply zones_valid_extends; [|done]. apply store_extends_alloc. }
  destruct (translate_zones _ _ _ _ _ Hx Hinv) as (Hinv2 & Hext & Hfol).
  simpl in Hext, Hfol. destruct Hinv2 as (Hstr2 & Hnd2 & Hok2 & Hvalid2).
  simpl in *.
  assert (opens_of sto0 (zones ++ [new]) = opens_of (store b) zones ++ [new])
    as Hopens0.
  { unfold opens_of. rewrite filter_app. f_equal.
    - apply filter_ext_in. intros z Hz.
      by rewrite (is_open_ext (store b) sto0 z (Hold z Hz)).
    - by rewrite filter_cons_True, filter_nil. }
  unfold opens_follow in Hfol. rewrite Hopens0 in Hfol.
  apply Forall2_snoc_inv in Hfol as (os & zl & Hopens2 & Hfol & Hlast).
  destruct (close_last_open _ _ _ _ _ Hnd2 Hok2 Hopens2) as
    (Hloop & Hext1 & Hok1 & Hopens1 & Hstarts).
  rewrite Hloop in Hx0. injection Hx0 as <- <-. simpl in Hrun.
  injection Hrun as <-.
  eexists. split; [done|]. split; [|split]; simpl.
  - split; [done|]. split; [done|]. split; [done|].
    by eapply zones_valid_extends.
  - eapply store_extends_trans; [apply store_extends_alloc|].
    by eapply store_extends_trans.
  - unfold opens_follow. rewrite Hopens1.
    eapply Forall2_impl_in; [exact Hfol|]. simpl.
    intros z' z Hz Hle. rewrite Hstarts.
    apply list_elem_of_filter in Hz as [_ Hz].
    unfold zstart in *. by rewrite <- (Hold z Hz).
Qed.
End Recursion.

(** ** The builder keeps the zones valid *)

Lemma translate_node_unfold (parent_index : nat) (st : Pending)
    (lxml_node : lxml) :
  translate_node parent_index st lxml_node
  = let tag := get_tag_name lxml_node in
    let child_classes := get_classes lxml_node in
    let text := stripped_or_empty (lxml_text lxml_node) in
    let link := get_link_url lxml_node tag in
    let is_block := bool_decide (tag ∈ BLOCK_TAGS) in
    let to_skip := bool_decide (tag ∈ TAGS_TO_SKIP) in
    st ← flush_pending is_block to_skip parent_index st;
    step ←
      (if is_block && negb to_skip then
         translate_block translate_tree tag child_classes text
                         (lxml_children lxml_node) parent_index st
       else if negb to_skip then
         translate_inline translate_tree tag child_classes link text
                          (lxml_children lxml_node) parent_index st
       else Ok (Next st));
    Ok (join_tail lxml_node step).
Proof. by destruct lxml_node. Qed.

Lemma translate_tree_zones (children : list lxml) :
  Forall (λ node, ∀ p st c, translate_node p st node = Ok c → zones_inv st →
                            ∃ st', c = Next st' ∧ zones_step st st')
         children →
  ∀ p b t z st', translate_tree children p b t z = Ok st' →
    zones_inv (b, t, z) → zones_step (b, t, z) st'.
Proof.
  unfold translate_tree. intros Hall p b t z.
  generalize (b, t, z). clear b t z.
  induction Hall as [|node children Hnode _ IH]; intros st st' Hrun Hinv.
  - simpl in Hrun. inv_ok Hrun. by apply zones_step_refl.
  - simpl in Hrun. inv_ok Hrun.
    destruct (Hnode _ _ _ Hx Hinv) as (st1 & -> & Hstep).
    eapply zones_step_trans; [done|]. apply IH; [done|]. by destruct Hstep.
Qed.

Lemma translate_node_zones (node : lxml) :
  ∀ p st c, translate_node p st node = Ok c → zones_inv st →
            ∃ st', c = Next st' ∧ zones_step st st'.
Proof.
  induction node as [tag attrib text tail children IH] using lxml_children_ind.
  intros p st c Hrun Hinv. rewrite translate_node_unfold in Hrun.
  set (node := Element tag attrib text tail children) in *.
  cbv zeta in Hrun. inv_ok Hrun. rename x into st1, x0 into step.
  destruct (flush_pending_zones _ _ _ _ _ Hx Hinv) as [Hstep1 Hempty].
  pose proof (translate_tree_zones children IH) as Hrec.
  assert (∃ st2, step = Next st2 ∧ zones_step st1 st2) as (st2 & -> & Hstep2).
  { destruct (bool_decide (get_tag_name node ∈ BLOCK_TAGS)) eqn:Hblock;
      destruct (bool_decide (get_tag_name node ∈ TAGS_TO_SKIP)) eqn:Hskip;
      simpl in Hx0.
    - inv_ok Hx0. eexists. split; [done|]. apply zones_step_refl.
      by destruct Hstep1.
    - eapply translate_block_zones; [exact Hrec|exact Hx0| | |].
      + apply stripped_stripped_or_empty.
      + by destruct Hstep1.
      + by apply Hempty.
    - inv_ok Hx0. eexists. split; [done|]. apply zones_step_refl.
      by destruct Hstep1.
    - eapply translate_inline_zones; [exact Hrec|exact Hx0|].
      by destruct Hstep1. }
  destruct (join_tail_zones node st1 st2 Hstep2) as (st' & Hjoin & Hstep').
  exists st'. split; [by rewrite Hjoin|].
  by eapply zones_step_trans.
Qed.

(** ** The passes after the builder keep texts and zones *)

Lemma same_marks_refl (t : Tree) : same_marks t t.
Proof. done. Qed.

Lemma same_marks_trans (t1 t2 t3 : Tree) :
  same_marks t1 t2 → same_marks t2 t3 → same_marks t1 t3.
Proof. unfold same_marks. congruence. Qed.

Lemma same_marks_insert (t : Tree) (i : nat) (n n' : Node.t) :
  t !! i = Some n → Node.text n' = Node.text n →
  Node.mark_zones n' = Node.mark_zones n → same_marks t (<[i := n']> t).
Proof.
  intros Hi Ht Hz. unfold same_marks. rewrite list_fmap_insert.
  rewrite Ht, Hz. symmetry. apply list_insert_id.
  by rewrite list_lookup_fmap, Hi.
Qed.

Lemma same_marks_set_count (t : Tree) (i v : nat) :
  same_marks t (set_count t i v).
Proof.
  unfold set_count. destruct (t !! i) as [n|] eqn:Hi; [|done].
  by eapply same_marks_insert.
Qed.

Lemma same_marks_lookup (t t' : Tree) (i : nat) (n' : Node.t) :
  same_marks t t' → t' !! i = Some n' →
  ∃ n, t !! i = Some n ∧ Node.text n' = Node.text n
       ∧ Node.mark_zones n' = Node.mark_zones n.
Proof.
  intros H Hi. apply (f_equal (λ l, l !! i)) in H.
  rewrite !list_lookup_fmap, Hi in H.
  destruct (t !! i) as [n|]; [|done]. exists n. by simplify_eq/=.
Qed.

Lemma zones_valid_same_marks (t t' : Tree) (sto : ZoneStore) :
  same_marks t t' → zones_valid t sto → zones_valid t' sto.
Proof.
  intros Hsame Hvalid i n' z Hi Hz.
  destruct (same_marks_lookup _ _ _ _ Hsame Hi) as (n & Hn & -> & Hmz).
  rewrite Hmz in Hz. by eapply Hvalid.
Qed.

Lemma count_texts_in_nodes_marks (fuel : nat) :
  ∀ t i t' c, count_texts_in_nodes fuel t i = Ok (t', c) → same_marks t t'.
Proof.
  induction fuel as [|fuel IH]; intros t i t' c Hrun; [done|].
  simpl in Hrun. inv_ok Hrun. rename x into n.
  destruct (truthy (Node.text n)).
  - inv_ok Hrun. apply same_marks_set_count.
  - inv_ok Hrun.
    eapply (for_each_inv (same_marks t)); [| |exact Hx0].
    + intros s c' s' _ Hs Hstep. cbv beta in Hstep. inv_ok Hstep.
      match goal with
      | H : count_texts_in_nodes _ _ _ = Ok ?r |- _ =>
          destruct r as [s1 counted]; inv_ok Hstep;
          pose proof (IH _ _ _ _ H) as Hrec
      end.
      eapply same_marks_trans; [done|].
      eapply same_marks_trans; [done|]. apply same_marks_set_count.
    + apply same_marks_set_count.
Qed.

Lemma unlink_marks (t t' : Tree) (p : Z) (i : nat) :
  unlink t p i = Ok t' → same_marks t t'.
Proof.
  unfold unlink, getitemZ. intros Hrun. inv_ok Hrun. rename x into parent.
  destruct (0 <=? p)%Z.
  - apply getitem_Ok in Hx. by eapply same_marks_insert.
  - destruct (0 <=? Z.of_nat (length t) + p)%Z; [|done].
    apply getitem_Ok in Hx. by eapply same_marks_insert.
Qed.

Lemma unlink_text_free_nodes_marks (t t' : Tree) :
  unlink_text_free_nodes t = Ok t' → same_marks t t'.
Proof.
  unfold unlink_text_free_nodes. intros Hrun.
  eapply (for_each_inv (same_marks t)); [| |exact Hrun]; [|done].
  intros s k s' _ Hs Hstep. unfold unlink_text_free_step in Hstep.
  inv_ok Hstep. destruct (-1 <? Node.parent_index x)%Z; [|by inv_ok Hstep].
  inv_ok Hstep. destruct (_ && _); [|by inv_ok Hstep].
  eapply same_marks_trans; [done|]. by eapply unlink_marks.
Qed.



(** The sample with nested inline elements: one text node with the zones of
    [b] and [i]. *)
Example inline_tree_zones :
  (λ n, (Node.text n, Node.mark_zones n)) <$> inline_tree !! 4
  = Some ("x y q r z", [0; 1])
  ∧ (λ z, (MarkZone.start z, MarkZone.length z, MarkZone.tag z))
      <$> inline_zones
    = [(1, 6, "b"); (3, 2, "i")]%Z.
Proof. split; vm_compute; reflexivity. Qed.

(** ** The builder keeps the arena well formed *)

Lemma arena_grows_refl (t : Tree) : arena_grows t t.
Proof. split; [done|]. eauto. Qed.

Lemma arena_grows_trans (t1 t2 t3 : Tree) :
  arena_grows t1 t2 → arena_grows t2 t3 → arena_grows t1 t3.
Proof.
  intros [Hlen1 Hkeep1] [Hlen2 Hkeep2]. split; [lia|].
  intros i n Hi. destruct (Hkeep1 i n Hi) as (n' & Hi' & Ht').
  destruct (Hkeep2 i n' Hi') as (n'' & Hi'' & Ht'').
  exists n''. split; [done|]. congruence.
Qed.

Lemma block_at_grows (t t' : Tree) (p : nat) :
  arena_grows t t' → block_at t p → block_at t' p.
Proof.
  intros [_ Hkeep] (n & Hn & Htext).
  destruct (Hkeep p n Hn) as (n' & Hn' & Ht'). exists n'. split; [done|].
  congruence.
Qed.

(** All the nodes of a linked arena are reachable. *)
Lemma built_ok_reachable (t : Tree) :
  built_ok t → ∀ i, i < length t → reachable t i.
Proof.
  intros [Hwf Hlinked] i. induction (lt_wf i) as [i _ IH]. intros Hi.
  destruct (lookup_lt_is_Some_2 _ _ Hi) as [n Hn].
  specialize (Hlinked i n Hn).
  destruct (Z.ltb_spec (-1) (Node.parent_index n)) as [Hpar|Hpar].
  - destruct (wf_parent _ Hwf i n Hn) as [?|[H0 Hlt]]; [lia|].
    set (p := Z.to_nat (Node.parent_index n)) in *.
    assert (p < i) as Hpi by (unfold p; lia).
    assert (reachable t p) as Hp by (apply IH; [done|lia]).
    unfold children_of in Hlinked. destruct (t !! p) as [np|] eqn:Hnp.
    + by eapply descendant_child.
    + by apply elem_of_nil in Hlinked.
  - subst i. constructor.
Qed.

Section AppendChild.
Variables (self : Tree) (p : nat) (np child : Node.t).
Hypothesis self_ok : built_ok self.
Hypothesis self_p : self !! p = Some np.
Hypothesis np_block : Node.text np = EmptyString.
Hypothesis child_parent : Node.parent_index child = Z.of_nat p.
Hypothesis child_leaf : Node.child_indices child = [].

Let k := length self.
Let np' := Node.set_child_indices (Node.child_indices np ++ [k]) np.
Let self' := <[p := np']> (self ++ [child]).

Lemma append_child_run : append_child self p child = Ok (self', k).
Proof.
  unfold append_child. rewrite (getitem_lookup _ p np).
  - simpl. unfold self', np', k. rewrite length_app. simpl.
    by replace (length self + 1 - 1) with (length self) by lia.
  - by apply lookup_app_l_Some.
Qed.

Lemma append_child_length : length self' = S k.
Proof. unfold self', k. rewrite length_insert, length_app. simpl. lia. Qed.

Lemma append_child_p_lt : p < k.
Proof. by eapply lookup_lt_Some. Qed.

Lemma append_child_lookup_p : self' !! p = Some np'.
Proof.
  unfold self'. apply list_lookup_insert_eq. rewrite length_app.
  pose proof append_child_p_lt. unfold k in *. lia.
Qed.

Lemma append_child_lookup_old (i : nat) :
  i ≠ p → i < k → self' !! i = self !! i.
Proof.
  intros Hne Hi. unfold self'. rewrite list_lookup_insert_ne by done.
  by apply lookup_app_l.
Qed.

Lemma append_child_lookup_new : self' !! k = Some child.
Proof.
  pose proof append_child_p_lt. unfold self'.
  rewrite list_lookup_insert_ne by lia. by apply list_lookup_middle.
Qed.

(** A node of the new arena is the new node or an old node with the same
    fields, but for the list of [p]. *)
Lemma append_child_cases (i : nat) (n' : Node.t) :
  self' !! i = Some n' →
  (i = k ∧ n' = child)
  ∨ (i < k ∧ ∃ n, self !! i = Some n
       ∧ Node.parent_index n' = Node.parent_index n
       ∧ Node.text n' = Node.text n
       ∧ Node.child_indices n'
         = if decide (i = p) then Node.child_indices n ++ [k]
           else Node.child_indices n).
Proof.
  intros Hi. pose proof (lookup_lt_Some _ _ _ Hi) as Hlt.
  rewrite append_child_length in Hlt.
  destruct (decide (i = k)) as [->|Hne].
  - left. rewrite append_child_lookup_new in Hi. by injection Hi.
  - right. split; [lia|]. destruct (decide (i = p)) as [->|Hnp].
    + rewrite append_child_lookup_p in Hi. injection Hi as <-.
      exists np. done.
    + rewrite append_child_lookup_old in Hi by lia. exists n'. done.
Qed.

Lemma append_child_old (i : nat) (n : Node.t) :
  self !! i = Some n →
  ∃ n', self' !! i = Some n'
        ∧ Node.parent_index n' = Node.parent_index n
        ∧ Node.text n' = Node.text n.
Proof.
  intros Hi. pose proof (lookup_lt_Some _ _ _ Hi) as Hlt.
  destruct (decide (i = p)) as [->|Hne].
  - rewrite self_p in Hi. injection Hi as <-. exists np'.
    split; [apply append_child_lookup_p|done].
  - exists n. by rewrite append_child_lookup_old.
Qed.

Lemma append_child_children_of (i : nat) :
  children_of self' i
  = if decide (i = p) then children_of self p ++ [k] else children_of self i.
Proof.
  unfold children_of. destruct (decide (i = p)) as [->|Hne].
  - by rewrite append_child_lookup_p, self_p.
  - destruct (decide (i = k)) as [->|Hnk].
    + rewrite append_child_lookup_new. simpl. rewrite child_leaf.
      by rewrite (proj2 (lookup_ge_None self k)).
    + destruct (decide (i < k)).
      * by rewrite append_child_lookup_old.
      * rewrite !(proj2 (lookup_ge_None _ _)); [done|unfold k in *; lia|].
        rewrite append_child_length. lia.
Qed.

Lemma append_child_wf : wf self'.
Proof.
  destruct self_ok as [Hwf _]. pose proof append_child_p_lt as Hp.
  split.
  - rewrite append_child_length. lia.
  - intros q n' c Hq Hc.
    assert (c ∈ children_of self' q) as Hc'
      by by erewrite children_of_lookup.
    rewrite append_child_children_of in Hc'.
    assert (c = k ∧ q = p ∨ c ∈ children_of self q) as [[-> ->]|Hold].
    { destruct (decide (q = p)) as [->|Hne]; [|by right].
      apply elem_of_app in Hc' as [Hc'|Hc']; [by right|].
      apply list_elem_of_singleton in Hc'. by left. }
    + split; [done|]. exists child. split; [apply append_child_lookup_new|].
      done.
    + destruct (wf_child_lt _ _ _ Hwf Hold) as [Hqc Hclt].
      split; [done|].
      destruct (lookup_lt_is_Some_2 _ _ Hclt) as [m Hm].
      destruct (append_child_old c m Hm) as (m' & Hm' & Hpar & _).
      exists m'. split; [done|]. rewrite Hpar.
      by eapply wf_child_parent.
  - intros q n' Hq.
    destruct (append_child_cases q n' Hq) as [[-> ->]|(Hlt & n & Hn & _ & _ & Hch)].
    + rewrite child_leaf. constructor.
    + rewrite Hch. pose proof (wf_nodup _ Hwf _ _ Hn) as Hnd.
      destruct (decide (q = p)) as [->|Hne]; [|done].
      apply NoDup_app. split; [done|]. split; [|apply NoDup_singleton].
      intros c Hc ->%list_elem_of_singleton.
      assert (k ∈ children_of self p) as Hk by by erewrite children_of_lookup.
      destruct (wf_child_lt _ _ _ Hwf Hk). unfold k in *. lia.
  - intros i n' Hi.
    destruct (append_child_cases i n' Hi) as [[-> ->]|(Hlt & n & Hn & Hpar & _)].
    + right. rewrite child_parent. lia.
    + rewrite Hpar. by eapply wf_parent.
  - intros i n' Hi Htext.
    destruct (append_child_cases i n' Hi)
      as [[-> ->]|(Hlt & n & Hn & _ & Ht & Hch)]; [done|].
    rewrite Hch. rewrite Ht in Htext. destruct (decide (i = p)) as [->|Hne].
    + rewrite self_p in Hn. injection Hn as <-. congruence.
    + by eapply wf_leaf.
Qed.

Lemma append_child_linked : linked self'.
Proof.
  destruct self_ok as [Hwf Hlinked]. pose proof append_child_p_lt as Hp.
  intros i n' Hi.
  destruct (append_child_cases i n' Hi) as [[-> ->]|(Hlt & n & Hn & Hpar & _)].
  - rewrite child_parent.
    rewrite (proj2 (Z.ltb_lt _ _)) by lia. rewrite Nat2Z.id.
    rewrite append_child_children_of, decide_True by done.
    apply elem_of_app. right. by left.
  - rewrite Hpar. specialize (Hlinked i n Hn).
    destruct (-1 <? Node.parent_index n)%Z; [|done].
    rewrite append_child_children_of. case_decide as Hq.
    + rewrite Hq in Hlinked. apply elem_of_app. by left.
    + done.
Qed.

Lemma append_child_ok :
  append_child self p child = Ok (self', k)
  ∧ built_ok self' ∧ arena_grows self self' ∧ length self' = S k
  ∧ self' !! k = Some child.
Proof.
  split; [apply append_child_run|].
  split; [split; [apply append_child_wf|apply append_child_linked]|].
  split; [|split; [apply append_child_length|apply append_child_lookup_new]].
  split; [rewrite append_child_length; unfold k; lia|].
  intros i n Hi. destruct (append_child_old i n Hi) as (n' & Hn' & _ & Ht).
  eauto.
Qed.
End AppendChild.

(** ** The builder returns *)

Lemma bind_Ok_l {A B} (a : A) (f : A → result B) : Ok a ≫= f = f a.
Proof. done. Qed.

Lemma flush_total (b : Builder) (p : nat) (text : string)
    (zones : list zref) (tl : Z) :
  built_ok (nodes b) → block_at (nodes b) p →
  ∃ b' ff, flush b p text zones tl = Ok (b', ff)
           ∧ built_ok (nodes b') ∧ arena_grows (nodes b) (nodes b').
Proof.
  intros Hok (np & Hnp & Htext). unfold flush.
  destruct (split_mark_zones (store b) zones tl) as [[sto fn] ff].
  destruct (append_child_ok (nodes b) p np (text_node text p fn) Hok Hnp Htext
              eq_refl eq_refl) as (Hrun & Hok' & Hgrows & _).
  rewrite Hrun. simpl. eauto.
Qed.

Lemma flush_pending_total (is_block to_skip : bool) (p : nat) (st : Pending) :
  built_ok (nodes st.1.1) → block_at (nodes st.1.1) p →
  ∃ st', flush_pending is_block to_skip p st = Ok st'
         ∧ built_ok (nodes st'.1.1)
         ∧ arena_grows (nodes st.1.1) (nodes st'.1.1).
Proof.
  destruct st as [[b text] zones]. simpl. intros Hok Hp.
  destruct (truthy text && (is_block || to_skip)).
  - destruct (flush_total b p text zones (len text) Hok Hp)
      as (b' & ff & -> & Hok' & Hgrows).
    simpl. eauto.
  - eexists. split; [done|]. split; [done|]. apply arena_grows_refl.
Qed.

Lemma close_zone_total (zs : list zref) (text : string) (positions : list nat) :
  ∀ st, Forall (λ i, i < length zs) positions →
        ∃ st', for_break (close_zone zs text) positions st = Ok st'.
Proof.
  induction positions as [|i positions IH]; intros [sto add_len] Hall.
  - by eexists.
  - apply Forall_cons in Hall as [Hi Hall]. simpl.
    destruct (lookup_lt_is_Some_2 _ _ Hi) as [z Hz].
    unfold close_zone at 1. rewrite (getitem_lookup _ _ _ Hz). simpl.
    destruct (MarkZone.length (sto !!! z) =? -1)%Z; simpl; [|by apply IH].
    destruct (add_len - 1 =? 0)%Z; simpl; [by eexists|by apply IH].
Qed.

Section RecursionTotal.
Variables (translate : Translate) (children : list lxml).

Hypothesis translate_total :
  ∀ p b t z, built_ok (nodes b) → block_at (nodes b) p →
    ∃ st', translate children p b t z = Ok st'
           ∧ built_ok (nodes st'.1.1)
           ∧ arena_grows (nodes b) (nodes st'.1.1).

Lemma translate_block_total (tag : string) (child_classes : list string)
    (text : string) (p : nat) (st : Pending) :
  built_ok (nodes st.1.1) → block_at (nodes st.1.1) p →
  ∃ c, translate_block translate tag child_classes text children p st = Ok c
       ∧ built_ok (nodes (control_state c).1.1)
       ∧ arena_grows (nodes st.1.1) (nodes (control_state c).1.1).
Proof.
  destruct st as [[b text_before] zones]. simpl. intros Hok (np & Hnp & Htext).
  destruct (append_child_ok (nodes b) p np (block_node tag child_classes p)
              Hok Hnp Htext eq_refl eq_refl)
    as (Hrun & Hok1 & Hgrows1 & Hlen1 & Hnew).
  unfold translate_block. rewrite Hrun. simpl.
  set (self1 := <[p := _]> _) in *.
  destruct (translate_total (length (nodes b)) (mkBuilder self1 (store b))
              text zones Hok1) as (st2 & Hrec & Hok2 & Hgrows2).
  { eexists. split; [exact Hnew|done]. }
  rewrite Hrec. simpl. destruct st2 as [[b2 text_left] zones2]. simpl in *.
  destruct (truthy text_left).
  - destruct (flush_total b2 (length (nodes b)) text_left zones2
                (len text_before) Hok2) as (b3 & ff & -> & Hok3 & Hgrows3).
    { eapply block_at_grows; [done|]. eexists. split; [exact Hnew|done]. }
    simpl. eexists. split; [done|]. simpl. split; [done|].
    eapply arena_grows_trans; [done|]. by eapply arena_grows_trans.
  - eexists. split; [done|]. simpl. split; [done|].
    by eapply arena_grows_trans.
Qed.

Lemma translate_inline_total (tag : string) (child_classes : list string)
    (link text : string) (p : nat) (st : Pending) :
  built_ok (nodes st.1.1) → block_at (nodes st.1.1) p →
  ∃ c, translate_inline translate tag child_classes link text children p st
       = Ok c
       ∧ built_ok (nodes (control_state c).1.1)
       ∧ arena_grows (nodes st.1.1) (nodes (control_state c).1.1).
Proof.
  destruct st as [[b text_before] zones]. simpl. intros Hok Hp.
  unfold translate_inline, alloc.
  destruct (translate_total p
              (mkBuilder (nodes b)
                 (store b ++ [MarkZone.mk (len text_before) (-1) tag
                                          child_classes link]))
              (strip (join_space text_before text))
              (zones ++ [length (store b)]) Hok Hp)
    as (st2 & -> & Hok2 & Hgrows2).
  simpl. destruct st2 as [[b2 text2] zs]. simpl in *.
  destruct (close_zone_total zs text2 (reverse (seq 0 (length zs)))
              (store b2, 1%Z)) as ([sto1 add_len] & ->).
  { apply Forall_forall. intros i Hi.
    apply elem_of_reverse, elem_of_seq in Hi. lia. }
  simpl. destruct (negb (add_len =? 0)%Z); eexists; (split; [done|]); done.
Qed.
End RecursionTotal.

Lemma translate_tree_total (children : list lxml) :
  Forall (λ node, ∀ p st,
            built_ok (nodes st.1.1) → block_at (nodes st.1.1) p →
            ∃ c, translate_node p st node = Ok c
                 ∧ built_ok (nodes (control_state c).1.1)
                 ∧ arena_grows (nodes st.1.1) (nodes (control_state c).1.1))
         children →
  ∀ p b t z, built_ok (nodes b) → block_at (nodes b) p →
    ∃ st', translate_tree children p b t z = Ok st'
           ∧ built_ok (nodes st'.1.1)
           ∧ arena_grows (nodes b) (nodes st'.1.1).
Proof.
  unfold translate_tree. intros Hall p b t z.
  change (nodes b) with (nodes (b, t, z).1.1).
  generalize (b, t, z). clear b t z.
  induction Hall as [|node children Hnode _ IH]; intros st Hok Hp.
  - exists st. split; [done|]. split; [done|]. apply arena_grows_refl.
  - destruct (Hnode p st Hok Hp) as (c & Hrun & Hok1 & Hgrows1).
    simpl. rewrite Hrun. simpl. destruct c as [st1|st1]; simpl in *.
    + destruct (IH st1 Hok1) as (st' & Hrest & Hok' & Hgrows').
      { by eapply block_at_grows. }
      exists st'. split; [done|]. split; [done|].
      by eapply arena_grows_trans.
    + exists st1. done.
Qed.

Lemma translate_node_total (node : lxml) :
  ∀ p st, built_ok (nodes st.1.1) → block_at (nodes st.1.1) p →
    ∃ c, translate_node p st node = Ok c
         ∧ built_ok (nodes (control_state c).1.1)
         ∧ arena_grows (nodes st.1.1) (nodes (control_state c).1.1).
Proof.
  induction node as [tag attrib text tail children IH] using lxml_children_ind.
  intros p st Hok Hp. rewrite translate_node_unfold.
  set (node := Element tag attrib text tail children) in *.
  cbv zeta.
  destruct (flush_pending_total
              (bool_decide (get_tag_name node ∈ BLOCK_TAGS))
              (bool_decide (get_tag_name node ∈ TAGS_TO_SKIP)) p st Hok Hp)
    as (st1 & -> & Hok1 & Hgrows1).
  rewrite bind_Ok_l. cbv beta.
  pose proof (block_at_grows _ _ _ Hgrows1 Hp) as Hp1.
  pose proof (translate_tree_total children IH) as Hrec.
  assert (∃ step,
            (if bool_decide (get_tag_name node ∈ BLOCK_TAGS)
                && negb (bool_decide (get_tag_name node ∈ TAGS_TO_SKIP))
             then translate_block translate_tree (get_tag_name node)
                    (get_classes node) (stripped_or_empty (lxml_text node))
                    (lxml_children node) p st1
             else if negb (bool_decide (get_tag_name node ∈ TAGS_TO_SKIP))
             then translate_inline translate_tree (get_tag_name node)
                    (get_classes node)
                    (get_link_url node (get_tag_name node))
                    (stripped_or_empty (lxml_text node))
                    (lxml_children node) p st1
             else Ok (Next st1)) = Ok step
            ∧ built_ok (nodes (control_state step).1.1)
            ∧ arena_grows (nodes st1.1.1) (nodes (control_state step).1.1))
    as (step & -> & Hok2 & Hgrows2).
  { destruct (bool_decide (get_tag_name node ∈ BLOCK_TAGS));
      destruct (bool_decide (get_tag_name node ∈ TAGS_TO_SKIP)); simpl.
    - eexists. split; [done|]. split; [done|]. apply arena_grows_refl.
    - by apply translate_block_total.
    - eexists. split; [done|]. split; [done|]. apply arena_grows_refl.
    - by apply translate_inline_total. }
  rewrite bind_Ok_l. cbv beta. eexists. split; [done|].
  assert (nodes (control_state (join_tail node step)).1.1
          = nodes (control_state step).1.1) as ->.
  { by destruct step as [[[??]?]|[[??]?]]. }
  split; [done|]. by eapply arena_grows_trans.
Qed.

(** ** The arena a build returns *)

Lemma for_each_mono {S X} (body body' : S → X → result S) (xs : list X) :
  ∀ s r, (∀ s x r, x ∈ xs → body s x = Ok r → body' s x = Ok r) →
         for_each body xs s = Ok r → for_each body' xs s = Ok r.
Proof.
  induction xs as [|x xs IH]; intros s r Hmono Hrun; [done|].
  simpl in *. inv_ok Hrun. rewrite (Hmono s x x0); [|by left|done]. simpl.
  apply IH; [|done]. intros ??? ?. apply Hmono. by right.
Qed.

(** Fuel is a bound only: more of it gives the same result. *)
Lemma count_texts_in_nodes_mono (fuel : nat) :
  ∀ fuel' t i r, fuel ≤ fuel' →
    count_texts_in_nodes fuel t i = Ok r →
    count_texts_in_nodes fuel' t i = Ok r.
Proof.
  induction fuel as [|fuel IH]; intros fuel' t i r Hle Hrun; [done|].
  destruct fuel' as [|fuel']; [lia|].
  simpl in *. inv_ok Hrun. rewrite Hx. simpl.
  destruct (truthy (Node.text x)); [done|].
  inv_ok Hrun. erewrite for_each_mono; [|clear Hx0|exact Hx0].
  - simpl. by rewrite Hx1.
  - intros s c r _ Hstep. cbv beta in *. inv_ok Hstep. rewrite Hx0. simpl.
    match goal with
    | H : count_texts_in_nodes fuel _ _ = Ok _ |- _ =>
        rewrite (IH fuel' _ _ _ ltac:(lia) H)
    end.
    done.
Qed.

Lemma text_count_prune (keep : nat → bool) (t : Tree) :
  wf t → (∀ c, keep c = false → text_count t c = 0) →
  ∀ i, text_count (prune_children keep t) i = text_count t i.
Proof.
  intros Hwf Hzero i.
  pose proof (prune_children_wf keep t Hwf) as Hwf'.
  remember (length t - i) as k eqn:Hk. revert i Hk.
  induction (lt_wf k) as [k _ IH]. intros i Hk.
  destruct (t !! i) as [n|] eqn:Hn.
  - rewrite (text_count_unfold t i n Hwf Hn).
    erewrite (text_count_unfold (prune_children keep t) i); [|done|].
    2: { rewrite prune_children_lookup, Hn. done. }
    simpl. destruct (truthy (Node.text n)); [done|].
    assert (∀ c, c ∈ Node.child_indices n → i < c) as Hlt.
    { intros c Hc. by destruct (wf_child _ Hwf i n c Hn Hc). }
    pose proof (lookup_lt_Some _ _ _ Hn) as Hi.
    clear Hn. induction (Node.child_indices n) as [|c cs IHcs]; [done|].
    rewrite filter_cons. assert (i < c) as Hic by (apply Hlt; by left).
    assert (sum_list (text_count (prune_children keep t)
                        <$> filter (λ c, keep c = true) cs)
            = sum_list (text_count t <$> cs)) as Hrest.
    { apply IHcs. intros c' Hc'. apply Hlt. by right. }
    destruct (decide (keep c = true)) as [Hkeep|Hkeep].
    + rewrite !fmap_cons. simpl. rewrite Hrest.
      rewrite (IH (length t - c)); [done|lia|done].
    + rewrite fmap_cons. simpl. rewrite Hrest.
      apply not_true_is_false in Hkeep. rewrite (Hzero c Hkeep). done.
  - unfold text_count. rewrite length_prune_children.
    apply lookup_ge_None in Hn.
    by replace (length t - i) with 0 by lia.
Qed.

Lemma root_built_ok :
  built_ok [Node.mk (-1) TREE_ROOT_TAG [] [] EmptyString [] 0]
  ∧ block_at [Node.mk (-1) TREE_ROOT_TAG [] [] EmptyString [] 0] 0.
Proof.
  split; [split|].
  - split.
    + simpl. lia.
    + intros p n c Hp Hc. destruct p; simplify_eq/=.
      by apply elem_of_nil in Hc.
    + intros p n Hp. destruct p; simplify_eq/=. constructor.
    + intros i n Hi. destruct i; simplify_eq/=. by left.
    + intros i n Hi _. by destruct i; simplify_eq/=.
  - intros i n Hi. by destruct i; simplify_eq/=.
  - eexists. by split.
Qed.

(** What a build returns: a well-formed arena whose counters are accurate
    and whose lists hold nodes with text below them only. *)
Lemma load_result (fuel : nat) (lxml_root : option lxml) (self : Tree)
    (zones : ZoneStore) :
  load fuel lxml_root = Ok (self, zones) →
  wf self
  ∧ (∀ i, count_of self i = text_count self i)
  ∧ (∀ p c, c ∈ children_of self p → 0 < text_count self c).
Proof.
  unfold load. intros Hrun. inv_ok Hrun. destruct x as [[b text] pending].
  inv_ok Hrun. destruct x as [counted c]. inv_ok Hrun.
  destruct root_built_ok as [Hroot Hblock].
  assert (built_ok (nodes b)) as Hok.
  { assert (Forall (λ node, ∀ p st,
              built_ok (nodes st.1.1) → block_at (nodes st.1.1) p →
              ∃ c, translate_node p st node = Ok c
                   ∧ built_ok (nodes (control_state c).1.1)
                   ∧ arena_grows (nodes st.1.1) (nodes (control_state c).1.1))
            (option_list lxml_root)) as Hall.
    { apply Forall_forall. intros node _. apply translate_node_total. }
    destruct (translate_tree_total _ Hall 0
                (mkBuilder [Node.mk (-1) TREE_ROOT_TAG [] [] EmptyString [] 0] [])
                EmptyString [] Hroot Hblock) as (st' & Hrun' & Hok' & _).
    rewrite Hrun' in Hx. by injection Hx as ->. }
  destruct Hok as [Hwf Hlinked].
  pose proof (wf_root _ Hwf) as Hlen.
  destruct (count_texts_in_nodes_spec (fuel `max` length (nodes b)) (nodes b) 0
              Hwf Hlen) as (counted' & Hcount & Hshape & Hsub & _); [lia|].
  rewrite (count_texts_in_nodes_mono fuel (fuel `max` length (nodes b)) _ _ _
             ltac:(lia) Hx0) in Hcount.
  injection Hcount as <- _.
  assert (wf counted) as Hwfc by by eapply same_shape_wf.
  rewrite (unlink_text_free_nodes_spec counted Hwfc) in Hx1.
  injection Hx1 as <-.
  assert (∀ i, count_of counted i = text_count counted i) as Hacc.
  { intros i. rewrite (same_shape_text_count _ _ i Hshape).
    destruct (decide (i < length (nodes b))) as [Hi|Hi].
    - apply Hsub. by apply built_ok_reachable.
    - unfold count_of, text_count.
      rewrite (proj2 (lookup_ge_None counted i))
        by (rewrite (same_shape_length _ _ Hshape); lia).
      by replace (length (nodes b) - i) with 0 by lia. }
  assert (∀ i, text_count
                 (prune_children (λ c, negb (text_free counted c)) counted) i
               = text_count counted i) as Hsame.
  { apply text_count_prune; [done|]. intros c' Hc'.
    apply negb_false_iff in Hc'. unfold text_free in Hc'.
    apply Nat.eqb_eq in Hc'. by rewrite <- Hacc. }
  split; [by apply prune_children_wf|]. split.
  - intros i. by rewrite count_of_prune, Hsame.
  - intros p c' Hc'. rewrite Hsame.
    rewrite prune_children_children_of in Hc'.
    apply list_elem_of_filter in Hc' as [Hkeep _].
    apply negb_true_iff in Hkeep. unfold text_free in Hkeep.
    apply Nat.eqb_neq in Hkeep. rewrite <- Hacc. lia.
Qed.

(** A build returns, whatever the document, once the fuel covers the
    arena. *)
Lemma load_total (lxml_root : option lxml) :
  ∃ k, ∀ fuel, k ≤ fuel → ∃ self zones, load fuel lxml_root = Ok (self, zones).
Proof.
  destruct root_built_ok as [Hroot Hblock].
  assert (Forall (λ node, ∀ p st,
            built_ok (nodes st.1.1) → block_at (nodes st.1.1) p →
            ∃ c, translate_node p st node = Ok c
                 ∧ built_ok (nodes (control_state c).1.1)
                 ∧ arena_grows (nodes st.1.1) (nodes (control_state c).1.1))
          (option_list lxml_root)) as Hall.
  { apply Forall_forall. intros node _. apply translate_node_total. }
  destruct (translate_tree_total _ Hall 0
              (mkBuilder [Node.mk (-1) TREE_ROOT_TAG [] [] EmptyString [] 0] [])
              EmptyString [] Hroot Hblock) as ([[b text] pending] & Hrun & Hok & _).
  simpl in Hok. destruct Hok as [Hwf Hlinked].
  exists (length (nodes b)). intros fuel Hfuel.
  pose proof (wf_root _ Hwf) as Hlen.
  destruct (count_texts_in_nodes_spec fuel (nodes b) 0 Hwf Hlen)
    as (counted & Hcount & Hshape & _); [lia|].
  assert (wf counted) as Hwfc by by eapply same_shape_wf.
  unfold load. rewrite Hrun. simpl. rewrite Hcount. simpl.
  rewrite (unlink_text_free_nodes_spec counted Hwfc). simpl. eauto.
Qed.

(** * Further properties of the code *)

Lemma wf_well_formed (self : Tree) : wf self → well_formed self = true.
Proof.
  intros Hwf. unfold well_formed. apply andb_true_iff. split.
  { apply Nat.ltb_lt. by apply wf_root. }
  apply forallb_forall. intros i Hi%list_elem_of_In%elem_of_seq.
  destruct (lookup_lt_is_Some_2 self i) as [n Hn]; [lia|]. rewrite Hn.
  unfold wf_node. rewrite !andb_true_iff. split; [split; [split|]|].
  - apply forallb_forall. intros c Hc%list_elem_of_In.
    destruct (wf_child _ Hwf i n c Hn Hc) as [Hlt (m & Hm & Hpar)].
    rewrite Hm. apply andb_true_iff. split; [by apply Nat.ltb_lt|].
    by apply Z.eqb_eq.
  - apply bool_decide_eq_true. by eapply wf_nodup.
  - apply orb_true_iff. destruct (wf_parent _ Hwf i n Hn) as [Hp|Hp].
    + left. by apply Z.eqb_eq.
    + right. apply andb_true_iff. split; [apply Z.leb_le|apply Z.ltb_lt]; lia.
  - apply orb_true_iff. destruct (truthy (Node.text n)) eqn:Htext.
    + right. apply bool_decide_eq_true. eapply wf_leaf; [done..|].
      by apply truthy_spec.
    + by left.
Qed.

Lemma pruned_intro (self : Tree) :
  (∀ p c, c ∈ children_of self p → 0 < text_count self c) →
  pruned self = true.
Proof.
  intros Hall. unfold pruned. apply forallb_forall. intros p _.
  apply forallb_forall. intros c Hc%list_elem_of_In.
  apply Nat.ltb_lt. by eapply Hall.
Qed.

Lemma counts_accurate_all_intro (self : Tree) :
  (∀ i, count_of self i = text_count self i) → counts_accurate_all self = true.
Proof.
  intros Hall. unfold counts_accurate_all. apply forallb_forall.
  intros i Hi%list_elem_of_In%elem_of_seq.
  destruct (lookup_lt_is_Some_2 self i) as [n Hn]; [lia|]. rewrite Hn.
  apply Nat.eqb_eq. by rewrite <- Hall, (count_of_lookup _ _ _ Hn).
Qed.

(** ** The builder *)






(** ** The matcher *)

(** X4. On a well-formed arena the output of the matcher starts with the
    entry of the node it was called on, carrying the returned score; no
    node has two entries; every entry belongs to a node of the subtree and
    its score is at most the number of text nodes below that node; and
    every entry after the first has a strictly positive score. *)
Theorem check_matching_output (fuel : nat) (self tree : Tree) (i j s : nat)
    (m : Matching) :
  well_formed self = true →
  check_matching fuel self tree i j = Ok (s, m) →
  (∃ rest, m = (i, s) :: rest)
  ∧ NoDup m.*1
  ∧ s ≤ text_count self i
  ∧ ∀ k sk, (k, sk) ∈ m →
      descendant self i k ∧ sk ≤ text_count self k
      ∧ (k ≠ i → 0 < sk ∧ i < k).
Proof.
  intros Hwf%well_formed_wf Hrun.
  pose proof (check_matching_matches _ _ _ _ _ _ _ Hrun) as Hm.
  destruct (matches_head _ _ _ _ Hm) as [rest Hrest].
  split; [by exists rest|]. split; [by apply (proj1 (matches_NoDup self Hwf) i s)|].
  split.
  - destruct (matches_entries _ _ _ _ Hwf Hm i s) as (_ & Hle & _).
    { rewrite Hrest. by left. }
    done.
  - intros k sk Hin.
    destruct (matches_entries _ _ _ _ Hwf Hm k sk Hin) as (? & ? & _ & ?).
    done.
Qed.

Lemma check_matching_output_witness :
  (∃ rest, [(0, 3); (1, 3); (2, 3); (3, 3); (4, 1); (5, 1); (6, 1); (7, 1);
            (8, 1); (9, 1)] = (0, 3) :: rest)
  ∧ NoDup [(0, 3); (1, 3); (2, 3); (3, 3); (4, 1); (5, 1); (6, 1); (7, 1);
           (8, 1); (9, 1)].*1
  ∧ 3 ≤ text_count list_tree 0
  ∧ ∀ k sk,
      (k, sk) ∈ [(0, 3); (1, 3); (2, 3); (3, 3); (4, 1); (5, 1); (6, 1);
                 (7, 1); (8, 1); (9, 1)] →
      descendant list_tree 0 k ∧ sk ≤ text_count list_tree k
      ∧ (k ≠ 0 → 0 < sk ∧ 0 < k).
Proof.
  apply (check_matching_output 12 list_tree other_tree 0 0 3
           [(0, 3); (1, 3); (2, 3); (3, 3); (4, 1); (5, 1); (6, 1); (7, 1);
            (8, 1); (9, 1)]);
    vm_compute; reflexivity.
Defined.

(** X5. Matching an arena against itself gives every node its full score:
    on a well-formed arena whose lists hold nodes with text below them
    only (as after a build), the matcher called on a node against the same
    node returns the number of text nodes of the subtree, and every node
    of the subtree has an entry in the output. *)
Theorem check_matching_self_full (fuel : nat) (self : Tree) (i : nat) :
  well_formed self = true → pruned self = true →
  i < length self → length self - i ≤ fuel →
  ∃ m, check_matching fuel self self i i = Ok (text_count self i, m)
       ∧ ∀ k, descendant self i k → k ∈ m.*1.
Proof.
  intros Hwf%well_formed_wf Hpr Hi Hfuel.
  apply check_matching_self; [done|by apply pruned_spec|done..].
Qed.

Lemma check_matching_self_full_witness :
  ∃ m, check_matching 12 list_tree list_tree 0 0
       = Ok (text_count list_tree 0, m)
       ∧ ∀ k, descendant list_tree 0 k → k ∈ m.*1.
Proof.
  apply (check_matching_self_full 12 list_tree 0);
    [vm_compute; reflexivity..|vm_compute; lia|vm_compute; lia].
Defined.

(** ** The tag-match predicate *)

Lemma check_tag_match_sym (a b : Node.t) :
  check_tag_match a b = check_tag_match b a.
Proof.
  apply eq_true_iff_eq. rewrite !check_tag_match_iff.
  rewrite (Nat.add_comm (length (Node.style_classes b))).
  split; intros [Htag Hcl]; (split; [done|]);
    (destruct Hcl as [?|(c & ? & ?)]; [by left|right; by exists c]).
Qed.

(** X6. The tag-match predicate is reflexive and symmetric, but it is not
    transitive: a node with class [a] and a node with class [b] both match
    a node of the same tag without a class, and do not match each other. *)
Theorem check_tag_match_relation :
  (∀ n, check_tag_match n n = true)
  ∧ (∀ a b, check_tag_match a b = check_tag_match b a)
  ∧ ¬ (∀ a b c, check_tag_match a b = true → check_tag_match b c = true →
                check_tag_match a c = true).
Proof.
  split; [apply check_tag_match_refl|]. split; [apply check_tag_match_sym|].
  intros Htrans.
  specialize (Htrans (block_node "p" ["a"] 0) (block_node "p" [] 0)
                (block_node "p" ["b"] 0)).
  assert (check_tag_match (block_node "p" ["a"] 0) (block_node "p" ["b"] 0)
          = false) as Hab by (vm_compute; reflexivity).
  rewrite Htrans in Hab; [done|vm_compute; reflexivity..].
Qed.

(** ** Sibling runs *)

(** X7. The sibling test depends on the order of its arguments: when the
    second node does not come after the first in the list of their parent,
    the test compares nothing and answers [True], whatever the tags. *)
Theorem check_connection_backwards (self : Tree) (p a b pa pb : nat) :
  well_formed self = true →
  children_of self p !! pa = Some a → children_of self p !! pb = Some b →
  pb ≤ pa →
  check_connection self a b = Ok true.
Proof.
  intros Hwf%well_formed_wf Hpa Hpb Hle.
  assert (a ∈ children_of self p) as Hin by by eapply list_elem_of_lookup_2.
  destruct (wf_child_lt _ _ _ Hwf Hin) as [_ Hlt].
  destruct (lookup_lt_is_Some_2 _ _ Hlt) as [na Hna].
  destruct (check_connection_spec self p a b pa pb na Hwf Hpa Hpb Hna)
    as (equal & -> & Hiff).
  f_equal. apply Hiff. intros pos k n Hpos. lia.
Qed.

Lemma check_connection_backwards_witness :
  check_connection mixed_tree 5 3 = Ok true.
Proof.
  apply (check_connection_backwards mixed_tree 2 5 3 1 0);
    [vm_compute; reflexivity..|lia].
Defined.

(** ** Counting *)

(** X8. On a well-formed arena, with fuel for the subtree, the count
    returns the number of text nodes below the node; it writes that number
    into the counter of every node of the subtree, changes nothing but
    counters, and leaves the nodes outside the subtree as they are. *)
Theorem count_texts_in_nodes_exact (fuel : nat) (self : Tree) (i : nat) :
  well_formed self = true → i < length self → length self - i ≤ fuel →
  ∃ self',
    count_texts_in_nodes fuel self i = Ok (self', text_count self i)
    ∧ same_shape self self'
    ∧ (∀ k, descendant self i k → count_of self' k = text_count self k)
    ∧ (∀ k, ¬ descendant self i k → self' !! k = self !! k).
Proof.
  intros Hwf%well_formed_wf Hi Hfuel.
  by apply count_texts_in_nodes_spec.
Qed.

Lemma count_texts_in_nodes_exact_witness :
  ∃ self',
    count_texts_in_nodes 12 list_tree 3 = Ok (self', text_count list_tree 3)
    ∧ same_shape list_tree self'
    ∧ (∀ k, descendant list_tree 3 k → count_of self' k = text_count list_tree k)
    ∧ (∀ k, ¬ descendant list_tree 3 k → self' !! k = list_tree !! k).
Proof.
  apply (count_texts_in_nodes_exact 12 list_tree 3);
    [vm_compute; reflexivity|vm_compute; lia|vm_compute; lia].
Defined.

(** ** The reducer as a whole *)

Lemma remove_first_elem (k : nat) (l l' : list nat) :
  remove_first k l = Ok l' → k ∈ l.
Proof.
  revert l'. induction l as [|y l IH]; intros l' Hrun; [done|].
  simpl in Hrun. case_decide as Hy; [subst; by left|].
  inv_ok Hrun. right. by eapply IH.
Qed.

(** An unlinking that succeeds removes the node from the lists. *)
Lemma unlink_Ok (t t' : Tree) (k : nat) (nk : Node.t) :
  wf t → t !! k = Some nk → (-1 < Node.parent_index nk)%Z →
  unlink t (Node.parent_index nk) k = Ok t' →
  t' = prune_children (λ c, negb (c =? k)) t.
Proof.
  intros Hwf Hk Hpar Hrun.
  destruct (wf_parent_lookup _ _ _ Hwf Hk Hpar) as (np & Hget & Hnp & _).
  assert (k ∈ children_of t (Z.to_nat (Node.parent_index nk))) as Hin.
  { unfold unlink in Hrun. rewrite Hget in Hrun. simpl in Hrun.
    inv_ok Hrun. erewrite children_of_lookup by done.
    by eapply remove_first_elem. }
  rewrite (unlink_listed _ _ _ Hwf Hk Hpar Hin) in Hrun. by injection Hrun.
Qed.

Lemma substract_loop_shape (substract : bool) (self : Tree)
    (matching : Matching) (t : Tree) :
  wf self → for_each (substract_step substract) matching self = Ok t →
  ∃ keep, t = prune_children keep self.
Proof.
  intros Hwf Hrun.
  eapply (for_each_inv (λ t, ∃ keep, t = prune_children keep self));
    [| |exact Hrun].
  - intros s [k sk] s' _ [keep ->] Hstep. unfold substract_step in Hstep.
    inv_ok Hstep. apply getitem_Ok in Hx.
    destruct (substract && x0 && (-1 <? Node.parent_index x)%Z) eqn:Hcond.
    + apply andb_true_iff in Hcond as [_ Hpar]. apply Z.ltb_lt in Hpar.
      apply unlink_Ok in Hstep; [|by apply prune_children_wf|done|done].
      subst s'. rewrite prune_children_compose. eauto.
    + inv_ok Hstep. eauto.
  - exists (λ _, true). by rewrite prune_children_all.
Qed.

Lemma binary_operation_loop_shape (fuel : nat) (self tree : Tree)
    (substract cross : bool) (t : Tree) :
  wf self → binary_operation_loop fuel self tree substract cross = Ok t →
  ∃ keep, t = prune_children keep self.
Proof.
  intros Hwf Hrun. unfold binary_operation_loop in Hrun. inv_ok Hrun.
  destruct x as [s matching]. destruct substract.
  - by eapply substract_loop_shape.
  - destruct cross.
    + rewrite (cross_loop_spec _ _ Hwf) in Hrun. inv_ok Hrun. eauto.
    + inv_ok Hrun. exists (λ _, true). by rewrite prune_children_all.
Qed.

Lemma count_texts_in_nodes_shape (fuel : nat) :
  ∀ t i t' c, count_texts_in_nodes fuel t i = Ok (t', c) → same_shape t t'.
Proof.
  induction fuel as [|fuel IH]; intros t i t' c Hrun; [done|].
  simpl in Hrun. inv_ok Hrun. rename x into n.
  destruct (truthy (Node.text n)).
  - inv_ok Hrun. apply set_count_same_shape.
  - inv_ok Hrun.
    eapply (for_each_inv (same_shape t)); [| |exact Hx0].
    + intros s c' s' _ Hs Hstep. cbv beta in Hstep. inv_ok Hstep.
      match goal with
      | H : count_texts_in_nodes _ _ _ = Ok ?r |- _ =>
          destruct r as [s1 counted]; inv_ok Hstep;
          pose proof (IH _ _ _ _ H) as Hrec
      end.
      eapply same_shape_trans; [done|].
      eapply same_shape_trans; [done|]. apply set_count_same_shape.
    + apply set_count_same_shape.
Qed.

Lemma same_shape_prune (keep : nat → bool) (t t' : Tree) :
  same_shape t t' →
  same_shape (prune_children keep t) (prune_children keep t').
Proof.
  intros H. unfold same_shape. apply list_eq. intros i.
  rewrite !skeleton_lookup, !prune_children_lookup.
  apply (f_equal (λ l, l !! i)) in H. rewrite !skeleton_lookup in H.
  destruct (t !! i) as [n|], (t' !! i) as [n'|]; simplify_eq/=; [|done].
  f_equal. destruct n, n'. by simplify_eq/=.
Qed.

(** The text nodes below a node after the removal of children that have
    none below them. *)
Lemma text_count_prune_below (keep : nat → bool) (t : Tree) :
  wf t → ∀ i,
  (∀ c, descendant t i c → keep c = false → text_count t c = 0) →
  text_count (prune_children keep t) i = text_count t i.
Proof.
  intros Hwf i.
  pose proof (prune_children_wf keep t Hwf) as Hwf'.
  remember (length t - i) as k eqn:Hk. revert i Hk.
  induction (lt_wf k) as [k _ IH]. intros i Hk Hzero.
  destruct (t !! i) as [n|] eqn:Hn.
  - rewrite (text_count_unfold t i n Hwf Hn).
    erewrite (text_count_unfold (prune_children keep t) i); [|done|].
    2: { rewrite prune_children_lookup, Hn. done. }
    simpl. destruct (truthy (Node.text n)); [done|].
    assert (∀ c, c ∈ Node.child_indices n → i < c ∧ descendant t i c) as Hlt.
    { intros c Hc. split; [by destruct (wf_child _ Hwf i n c Hn Hc)|].
      eapply descendant_child; [constructor|done..]. }
    pose proof (lookup_lt_Some _ _ _ Hn) as Hi.
    clear Hn. induction (Node.child_indices n) as [|c cs IHcs]; [done|].
    rewrite filter_cons.
    destruct (Hlt c) as [Hic Hdc]; [by left|].
    assert (sum_list (text_count (prune_children keep t)
                        <$> filter (λ c, keep c = true) cs)
            = sum_list (text_count t <$> cs)) as Hrest.
    { apply IHcs. intros c' Hc'. apply Hlt. by right. }
    destruct (decide (keep c = true)) as [Hkeep|Hkeep].
    + rewrite !fmap_cons. simpl. rewrite Hrest.
      rewrite (IH (length t - c)); [done|lia|done|].
      intros c' Hc'. apply Hzero. by eapply descendant_trans.
    + rewrite fmap_cons. simpl. rewrite Hrest.
      apply not_true_is_false in Hkeep. by rewrite (Hzero c Hdc Hkeep).
  - unfold text_count. rewrite length_prune_children.
    apply lookup_ge_None in Hn.
    by replace (length t - i) with 0 by lia.
Qed.

(** What the reducer returns, when it returns: the arena with children
    removed from the lists and counters rewritten, the counters of the
    reachable nodes accurate, and no reachable node without text left in a
    list. *)
Lemma binary_operation_result (fuel : nat) (self tree : Tree)
    (substract cross : bool) (self' : Tree) :
  wf self → binary_operation fuel self tree substract cross = Ok self' →
  (∃ keep, same_shape (prune_children keep self) self')
  ∧ wf self'
  ∧ (∀ i, reachable self' i → count_of self' i = text_count self' i)
  ∧ (∀ p c, reachable self' p → c ∈ children_of self' p →
            0 < text_count self' c)
  ∧ (∃ t1, binary_operation_loop fuel self tree substract cross = Ok t1
           ∧ ∀ p c, c ∈ children_of self' p → c ∈ children_of t1 p).
Proof.
  intros Hwf Hrun. unfold binary_operation in Hrun. inv_ok Hrun.
  rename x into t1. destruct x0 as [t2 c0]. simpl in Hrun.
  destruct (binary_operation_loop_shape _ _ _ _ _ _ Hwf Hx) as [keep ->].
  set (t1 := prune_children keep self) in *.
  assert (wf t1) as Hwf1 by by apply prune_children_wf.
  pose proof (wf_root _ Hwf1) as Hlen1.
  destruct (count_texts_in_nodes_spec (fuel `max` length t1) t1 0 Hwf1 Hlen1)
    as (t2' & Hcount & Hshape & Hsub & _); [lia|].
  rewrite (count_texts_in_nodes_mono fuel (fuel `max` length t1) _ _ _
             ltac:(lia) Hx0) in Hcount.
  injection Hcount as <- _.
  assert (wf t2) as Hwf2 by by eapply same_shape_wf.
  rewrite (unlink_text_free_nodes_spec t2 Hwf2) in Hrun.
  injection Hrun as <-.
  set (keep2 := λ c, negb (text_free t2 c)).
  assert (∀ i, reachable t2 i → count_of t2 i = text_count t2 i) as Hacc.
  { intros i Hi. rewrite (same_shape_text_count _ _ i Hshape). apply Hsub.
    eapply same_shape_descendant; [|done]. by apply same_shape_sym. }
  assert (∀ i, reachable (prune_children keep2 t2) i → reachable t2 i)
    as Hreach.
  { intros i. apply descendant_mono. intros p c.
    rewrite prune_children_children_of, list_elem_of_filter. tauto. }
  assert (∀ i, reachable t2 i →
               text_count (prune_children keep2 t2) i = text_count t2 i)
    as Hsame.
  { intros i Hi. apply text_count_prune_below; [done|].
    intros c Hc Hkeep. unfold keep2 in Hkeep.
    apply negb_false_iff in Hkeep. unfold text_free in Hkeep.
    apply Nat.eqb_eq in Hkeep. rewrite <- Hacc; [done|].
    by eapply descendant_trans. }
  assert (∃ t1', binary_operation_loop fuel self tree substract cross = Ok t1'
            ∧ ∀ p c, c ∈ children_of (prune_children keep2 t2) p →
                     c ∈ children_of t1' p) as Hloop.
  { exists t1. split; [done|]. intros p c.
    rewrite prune_children_children_of, list_elem_of_filter.
    rewrite (same_shape_children_of _ _ _ Hshape). tauto. }
  split; [|split; [by apply prune_children_wf|split; [|split; [|done]]]].
  - exists (λ c, keep c && keep2 c). unfold t1 in Hshape.
    rewrite <- prune_children_compose. by apply same_shape_prune.
  - intros i Hi. rewrite count_of_prune, Hsame by by apply Hreach.
    by apply Hacc, Hreach.
  - intros p c Hp Hc.
    assert (reachable (prune_children keep2 t2) c) as Hrc.
    { unfold children_of in Hc.
      destruct (prune_children keep2 t2 !! p) as [n|] eqn:Hn.
      - by eapply descendant_child.
      - by apply elem_of_nil in Hc. }
    rewrite Hsame by by apply Hreach.
    rewrite prune_children_children_of in Hc.
    apply list_elem_of_filter in Hc as [Hkeep _]. unfold keep2 in Hkeep.
    apply negb_true_iff in Hkeep. unfold text_free in Hkeep.
    apply Nat.eqb_neq in Hkeep. rewrite <- Hacc by by apply Hreach. lia.
Qed.

(** The reducer returns once its loop does, with fuel for the arena. *)
Lemma binary_operation_after_loop (fuel : nat) (self tree : Tree)
    (substract cross : bool) (t1 : Tree) :
  wf self → length self ≤ fuel →
  binary_operation_loop fuel self tree substract cross = Ok t1 →
  ∃ self', binary_operation fuel self tree substract cross = Ok self'.
Proof.
  intros Hwf Hfuel Hloop.
  destruct (binary_operation_loop_shape _ _ _ _ _ _ Hwf Hloop) as [keep ->].
  assert (wf (prune_children keep self)) as Hwf1
    by by apply prune_children_wf.
  destruct (count_texts_in_nodes_spec fuel _ 0 Hwf1) as
    (t2 & Hcount & Hshape & _).
  { by apply wf_root. }
  { rewrite length_prune_children. lia. }
  assert (wf t2) as Hwf2 by by eapply same_shape_wf.
  unfold binary_operation. rewrite Hloop. simpl. rewrite Hcount. simpl.
  rewrite (unlink_text_free_nodes_spec t2 Hwf2). eauto.
Qed.

Lemma cross_loop_returns (fuel : nat) (self tree : Tree) :
  wf self → wf tree → length self ≤ fuel →
  ∃ t1, binary_operation_loop fuel self tree false true = Ok t1.
Proof.
  intros Hwf Hwft Hfuel.
  destruct (check_matching_total self tree Hwf Hwft fuel 0 0) as (s & m & Hm).
  { by apply wf_root. }
  { by apply wf_root. }
  { lia. }
  unfold binary_operation_loop. rewrite Hm. simpl.
  rewrite (cross_loop_spec _ _ Hwf). eauto.
Qed.

Lemma substract_loop_returns (fuel : nat) (self tree : Tree) :
  wf self → wf tree → length self ≤ fuel → counts_accurate self →
  0 < text_count self 0 →
  ∃ t1, binary_operation_loop fuel self tree true false = Ok t1.
Proof.
  intros Hwf Hwft Hfuel Hacc Hroot.
  destruct (check_matching_total self tree Hwf Hwft fuel 0 0) as (s & m & Hm).
  { by apply wf_root. }
  { by apply wf_root. }
  { lia. }
  pose proof (check_matching_matches _ _ _ _ _ _ _ Hm) as Hmatches.
  unfold binary_operation_loop. rewrite Hm. simpl.
  rewrite (substract_loop_spec self s m Hwf Hmatches); [eauto|].
  by eapply matching_counts_positive.
Qed.

Lemma matches_children_bound (self : Tree) (cs : list nat) (s p : nat)
    (m : Matching) (n : Node.t) :
  wf self → matches_children self cs s m → self !! p = Some n →
  (∀ c, c ∈ cs → c ∈ Node.child_indices n) →
  s ≤ sum_list (text_count self <$> cs).
Proof.
  intros Hwf Hm Hp Hcs.
  destruct (proj2 (matches_shape self Hwf) cs s m Hm p n Hp Hcs) as [_ Hkeep].
  destruct (Hkeep (λ _, true)) as [Hsum _]; [done|].
  rewrite prune_children_all in Hsum.
  rewrite filter_all in Hsum; [done|]. by apply Forall_forall.
Qed.

(** An output with the full score gives every entry its full score. *)
Lemma matches_full (self : Tree) :
  wf self →
  (∀ i s m, matches self i s m → s = text_count self i →
     ∀ k sk, (k, sk) ∈ m → sk = text_count self k)
  ∧ (∀ cs s m, matches_children self cs s m →
       ∀ p n, self !! p = Some n → (∀ c, c ∈ cs → c ∈ Node.child_indices n) →
       s = sum_list (text_count self <$> cs) →
       ∀ k sk, (k, sk) ∈ m → sk = text_count self k).
Proof.
  intros Hwf. apply matches_mutind.
  - intros i n s Hi Htext Hs Hfull k sk Hk.
    apply list_elem_of_singleton in Hk. by simplify_eq.
  - intros i n s m Hi Htext Hm IH Hfull k sk Hk.
    apply elem_of_cons in Hk as [?|Hk]; [by simplify_eq|].
    apply (IH i n Hi (λ c Hc, Hc)); [|done].
    rewrite Hfull, (text_count_unfold _ _ _ Hwf Hi). by rewrite Htext.
  - intros p n _ _ _ k sk Hk. by apply elem_of_nil in Hk.
  - intros c cs s m Hm IH p n Hp Hcs Hfull k sk Hk.
    assert (s ≤ sum_list (text_count self <$> cs)) as Hle.
    { eapply matches_children_bound; [done..|].
      intros c' Hc'. apply Hcs. by right. }
    rewrite fmap_cons in Hfull.
    change (sum_list (?x :: ?l)) with (x + sum_list l) in Hfull.
    apply (IH p n Hp); [|lia|done]. intros c' Hc'. apply Hcs. by right.
  - intros c cs sc mc s m Hsc Hmc IHc Hm IH p n Hp Hcs Hfull k sk Hk.
    assert (s ≤ sum_list (text_count self <$> cs)) as Hle.
    { eapply matches_children_bound; [done..|].
      intros c' Hc'. apply Hcs. by right. }
    assert (sc ≤ text_count self c) as Hlec.
    { destruct (matches_head _ _ _ _ Hmc) as [mc' ->].
      destruct (matches_entries _ _ _ _ Hwf Hmc c sc) as (_ & ? & _);
        [by left|done]. }
    rewrite fmap_cons in Hfull.
    change (sum_list (?x :: ?l)) with (x + sum_list l) in Hfull.
    apply elem_of_app in Hk as [Hk|Hk].
    + apply IHc; [lia|done].
    + apply (IH p n Hp); [|lia|done]. intros c' Hc'. apply Hcs. by right.
Qed.

(** Subtracting an arena from itself removes every child of the root. *)
Lemma substract_self_loop (fuel : nat) (self : Tree) :
  wf self → (∀ p c, c ∈ children_of self p → 0 < text_count self c) →
  counts_accurate self → 0 < text_count self 0 → length self ≤ fuel →
  ∃ t1, binary_operation_loop fuel self self true false = Ok t1
        ∧ children_of t1 0 = [].
Proof.
  intros Hwf Hpruned Hacc Hroot Hfuel.
  destruct (check_matching_self self Hwf Hpruned fuel 0) as (m & Hrun & Hall).
  { by apply wf_root. }
  { lia. }
  pose proof (check_matching_matches _ _ _ _ _ _ _ Hrun) as Hm.
  exists (prune_children (kept fst (to_substract self) m) self). split.
  - unfold binary_operation_loop. rewrite Hrun. simpl.
    apply (substract_loop_spec self _ m Hwf Hm).
    by eapply matching_counts_positive.
  - rewrite prune_children_children_of.
    destruct (filter _ _) as [|c cs] eqn:Hf; [done|]. exfalso.
    assert (c ∈ filter (λ c, kept fst (to_substract self) m c = true)
                       (children_of self 0)) as Hc by (rewrite Hf; by left).
    apply list_elem_of_filter in Hc as [Hkept Hc].
    pose proof (wf_root _ Hwf) as Hlen.
    destruct (lookup_lt_is_Some_2 self 0 Hlen) as [n0 Hn0].
    rewrite (children_of_lookup _ _ _ Hn0) in Hc.
    assert (descendant self 0 c) as Hd
      by (eapply descendant_child; [constructor|done..]).
    destruct (wf_child _ Hwf 0 n0 c Hn0 Hc) as [Hlt (nc & Hnc & Hpar)].
    apply Hall in Hd as Hin. apply list_elem_of_fmap in Hin as ([c' sc] & Heq & Hin).
    simpl in Heq. subst c'.
    pose proof (proj1 (matches_full self Hwf) 0 _ m Hm eq_refl c sc Hin) as Hsc.
    rewrite kept_spec in Hkept. specialize (Hkept (c, sc) Hin eq_refl).
    unfold to_substract in Hkept. cbn [fst snd] in Hkept.
    rewrite (count_of_lookup _ _ _ Hnc), (parent_of_lookup _ _ _ Hnc) in Hkept.
    rewrite (Hacc c nc Hd Hnc), Hpar, Hsc in Hkept.
    apply andb_false_iff in Hkept as [Hk|Hk].
    + apply Nat.leb_gt in Hk. lia.
    + apply Z.ltb_ge in Hk. lia.
Qed.

Lemma same_shape_node (t t' : Tree) (i : nat) (n : Node.t) :
  same_shape t t' → t !! i = Some n →
  ∃ count, t' !! i = Some (Node.set_text_nodes_count count n).
Proof.
  intros H Hi. apply (f_equal (λ l, l !! i)) in H.
  rewrite !skeleton_lookup, Hi in H.
  destruct (t' !! i) as [n'|]; [|done]. exists (Node.text_nodes_count n').
  f_equal. destruct n, n'. by simplify_eq/=.
Qed.

(** X9. The reducer (subtract or cross) never deletes or moves a node of
    the arena and never adds a child: when it returns, the arena has its
    length, and every node is the node it was but for its counter and for
    its list of children, from which indices have been taken out. *)
Theorem binary_operation_unlinks_only (fuel : nat) (self tree : Tree)
    (substract cross : bool) (self' : Tree) :
  well_formed self = true →
  binary_operation fuel self tree substract cross = Ok self' →
  length self' = length self
  ∧ ∃ keep, ∀ i n, self !! i = Some n →
      ∃ count,
        self' !! i
        = Some (Node.set_text_nodes_count count
                  (Node.set_child_indices
                     (filter (λ c, keep c = true) (Node.child_indices n)) n)).
Proof.
  intros Hwf%well_formed_wf Hrun.
  destruct (binary_operation_result _ _ _ _ _ _ Hwf Hrun) as ([keep Hshape] & _).
  split.
  - rewrite (same_shape_length _ _ Hshape). apply length_prune_children.
  - exists keep. intros i n Hi. eapply same_shape_node; [done|].
    by rewrite prune_children_lookup, Hi.
Qed.

Lemma binary_operation_unlinks_only_witness :
  length reduced_tree = length list_tree
  ∧ ∃ keep, ∀ i n, list_tree !! i = Some n →
      ∃ count,
        reduced_tree !! i
        = Some (Node.set_text_nodes_count count
                  (Node.set_child_indices
                     (filter (λ c, keep c = true) (Node.child_indices n)) n)).
Proof.
  apply (binary_operation_unlinks_only 12 list_tree other_tree true false
           reduced_tree); vm_compute; reflexivity.
Defined.

(** X10. The reducer restores what it relies on: when it returns on a
    well-formed arena, the result is well formed, the counter of every
    reachable node is the number of text nodes of its subtree, and every
    node listed by a reachable node has a text node below it.  So a
    subtraction or a crossing can follow another. *)
Theorem binary_operation_reestablishes (fuel : nat) (self tree : Tree)
    (substract cross : bool) (self' : Tree) :
  well_formed self = true →
  binary_operation fuel self tree substract cross = Ok self' →
  well_formed self' = true
  ∧ counts_accurate self'
  ∧ ∀ p c, reachable self' p → c ∈ children_of self' p →
           0 < text_count self' c.
Proof.
  intros Hwf%well_formed_wf Hrun.
  destruct (binary_operation_result _ _ _ _ _ _ Hwf Hrun)
    as (_ & Hwf' & Hacc & Hpruned & _).
  split; [by apply wf_well_formed|]. split; [|done].
  intros i n Hi Hn. rewrite <- (count_of_lookup _ _ _ Hn). by apply Hacc.
Qed.

Lemma binary_operation_reestablishes_witness :
  well_formed reduced_tree = true
  ∧ counts_accurate reduced_tree
  ∧ ∀ p c, reachable reduced_tree p → c ∈ children_of reduced_tree p →
           0 < text_count reduced_tree c.
Proof.
  apply (binary_operation_reestablishes 12 list_tree other_tree true false
           reduced_tree); vm_compute; reflexivity.
Defined.

(** X11. Subtracting an arena from itself empties it: on a well-formed
    arena with accurate counters, whose lists hold nodes with text below
    them only and whose root has text below it (as after a build of a
    document with text), the subtraction returns and leaves the root as the
    only reachable node. *)
Theorem substract_self_leaves_root (fuel : nat) (self : Tree) :
  well_formed self = true → pruned self = true → counts_accurate self →
  0 < text_count self 0 → length self ≤ fuel →
  ∃ self', substract_tree fuel self self = Ok self'
           ∧ ∀ i, reachable self' i ↔ i = 0.
Proof.
  intros Hwf%well_formed_wf Hpr Hacc Hroot Hfuel.
  pose proof (pruned_spec _ Hpr) as Hpruned.
  destruct (substract_self_loop fuel self Hwf Hpruned Hacc Hroot Hfuel)
    as (t1 & Hloop & Hempty).
  destruct (binary_operation_after_loop _ _ _ _ _ _ Hwf Hfuel Hloop)
    as [self' Hrun].
  exists self'. split; [done|].
  destruct (binary_operation_result _ _ _ _ _ _ Hwf Hrun)
    as (_ & _ & _ & _ & t1' & Hloop' & Hsub).
  rewrite Hloop in Hloop'. injection Hloop' as <-.
  intros i. split; [|intros ->; constructor].
  intros Hi. apply descendant_inv in Hi as [->|(n & c & Hn & Hc & _)]; [done|].
  assert (c ∈ children_of t1 0) as Hc'.
  { apply Hsub. by erewrite children_of_lookup. }
  rewrite Hempty in Hc'. by apply elem_of_nil in Hc'.
Qed.

Lemma substract_self_leaves_root_witness :
  ∃ self', substract_tree 12 list_tree list_tree = Ok self'
           ∧ ∀ i, reachable self' i ↔ i = 0.
Proof.
  apply (substract_self_leaves_root 12 list_tree).
  - vm_compute; reflexivity.
  - vm_compute; reflexivity.
  - apply counts_accurate_all_spec. vm_compute; reflexivity.
  - vm_compute; lia.
  - vm_compute; lia.
Defined.

(** X12. On well-formed arenas, with fuel for the arena, a crossing always
    returns; a subtraction returns when the counters are accurate and the
    root has a text node below it, and it raises [ZeroDivisionError] when
    the counters are accurate and the arena holds no reachable text. *)
Theorem binary_operation_returns (fuel : nat) (self tree : Tree) :
  well_formed self = true → well_formed tree = true → length self ≤ fuel →
  (∃ self', cross_tree fuel self tree = Ok self')
  ∧ (counts_accurate self → 0 < text_count self 0 →
     ∃ self', substract_tree fuel self tree = Ok self')
  ∧ (counts_accurate self → text_count self 0 = 0 →
     substract_tree fuel self tree = Raise ZeroDivisionError).
Proof.
  intros Hwf%well_formed_wf Hwft%well_formed_wf Hfuel.
  split; [|split].
  - destruct (cross_loop_returns fuel self tree Hwf Hwft Hfuel) as [t1 Hloop].
    by eapply binary_operation_after_loop.
  - intros Hacc Hroot.
    destruct (substract_loop_returns fuel self tree Hwf Hwft Hfuel Hacc Hroot)
      as [t1 Hloop].
    by eapply binary_operation_after_loop.
  - intros Hacc Hroot.
    destruct (check_matching_total self tree Hwf Hwft fuel 0 0)
      as (s & m & Hm).
    { by apply wf_root. }
    { by apply wf_root. }
    { lia. }
    pose proof (check_matching_matches _ _ _ _ _ _ _ Hm) as Hmatches.
    destruct (matches_head _ _ _ _ Hmatches) as [rest ->].
    pose proof (wf_root _ Hwf) as Hlen.
    destruct (lookup_lt_is_Some_2 self 0 Hlen) as [n Hn].
    assert (Node.text_nodes_count n = 0) as Hzero.
    { rewrite (Hacc 0 n); [done| |done]. constructor. }
    unfold substract_tree, binary_operation, binary_operation_loop.
    rewrite Hm. cbn -[Nat.mul]. unfold substract_step.
    rewrite (getitem_lookup _ _ _ Hn). cbn -[Nat.mul].
    unfold matched_part. by rewrite Hzero.
Qed.

Lemma binary_operation_returns_witness :
  (∃ self', cross_tree 12 list_tree other_tree = Ok self')
  ∧ (counts_accurate list_tree → 0 < text_count list_tree 0 →
     ∃ self', substract_tree 12 list_tree other_tree = Ok self')
  ∧ (counts_accurate list_tree → text_count list_tree 0 = 0 →
     substract_tree 12 list_tree other_tree = Raise ZeroDivisionError).
Proof.
  apply (binary_operation_returns 12 list_tree other_tree);
    [vm_compute; reflexivity..|vm_compute; lia].
Defined.


(** ** The memo of the path-equality test *)

(** An invariant of the iterations, and what holds however the loop is
    left. *)
Lemma for_break_post {S X} (I Q : S → Prop)
    (body : S → X → result (control S)) (xs : list X) (s s' : S) :
  (∀ s x c, x ∈ xs → I s → body s x = Ok c →
     match c with Next s1 => I s1 | Break s1 => Q s1 end) →
  (∀ s, I s → Q s) →
  I s → for_break body xs s = Ok s' → Q s'.
Proof.
  intros Hbody HIQ. revert s.
  induction xs as [|x xs IH]; intros s Hs Hrun; simpl in Hrun.
  - inv_ok Hrun. by apply HIQ.
  - inv_ok Hrun. pose proof (Hbody s x x0 ltac:(by left) Hs Hx) as Hc.
    destruct x0 as [s1|s1].
    + apply (λ H, IH H s1 Hc Hrun). intros ??? ?. apply Hbody. by right.
    + by inv_ok Hrun.
Qed.

Lemma check_paths_step_memo (self : Tree) (first_path second_path : list nat)
    (verdict : bool) (memo : Memo) (depth : nat)
    (c : control (bool * Memo)) :
  check_paths_step self first_path second_path (verdict, memo) depth = Ok c →
  match c with
  | Next st => st.2 = memo
  | Break st =>
    st.1 = false
    ∧ (st.2 = memo
       ∨ ∃ key, memo !! key = None ∧ st.2 = <[key := false]> memo)
  end.
Proof.
  unfold check_paths_step. intros Hrun. inv_ok Hrun.
  case_decide; [by inv_ok Hrun|].
  destruct (memo !! _) as [cached|] eqn:Hmemo.
  - destruct cached; simpl in Hrun; inv_ok Hrun; [done|]. split; [done|by left].
  - inv_ok Hrun. destruct (negb x3) eqn:Hneg; inv_ok Hrun; [|done].
    split; [done|]. right. eauto.
Qed.

(** X13. The path-equality test caches negative verdicts only: a call
    leaves the entries of the memo as they are and adds at most one entry,
    a [False] for the pair of ancestors at which the test failed; a call
    that answers [True] adds nothing.  So a memo filled by such calls holds
    no [True]. *)
Theorem check_paths_equality_memo (fuel : nat) (self : Tree)
    (first second : nat) (memo memo' : Memo) (equal : bool) :
  check_paths_equality fuel self first second memo = Ok (equal, memo') →
  (memo' = memo
   ∨ equal = false
     ∧ ∃ key, memo !! key = None ∧ memo' = <[key := false]> memo)
  ∧ (equal = true → memo' = memo)
  ∧ ((∀ key verdict, memo !! key = Some verdict → verdict = false) →
     ∀ key verdict, memo' !! key = Some verdict → verdict = false).
Proof.
  intros Hrun.
  assert (memo' = memo
          ∨ equal = false
            ∧ ∃ key, memo !! key = None ∧ memo' = <[key := false]> memo)
    as Hcases.
  { unfold check_paths_equality in Hrun. inv_ok Hrun.
    destruct (negb (check_tag_match x x0)); [inv_ok Hrun; by left|].
    inv_ok Hrun. destruct (negb (_ =? _)); [inv_ok Hrun; by left|].
    change equal with (equal, memo').1. change memo' with (equal, memo').2.
    eapply (for_break_post
              (λ st : bool * Memo, st.2 = memo)
              (λ st : bool * Memo,
                 st.2 = memo
                 ∨ st.1 = false
                   ∧ ∃ key, memo !! key = None ∧ st.2 = <[key := false]> memo));
      [| | |exact Hrun].
    - intros [verdict m] depth c _ Hm Hstep. simpl in Hm. subst m.
      apply check_paths_step_memo in Hstep. destruct c as [st|st]; [done|].
      destruct Hstep as [Hfalse [Hsame|Hnew]]; [by left|by right].
    - intros st Hst. by left.
    - done. }
  split; [done|]. split.
  - intros ->. destruct Hcases as [?|[? _]]; done.
  - intros Hall key verdict Hkey.
    destruct Hcases as [->|(_ & key' & Hnone & ->)]; [by eapply Hall|].
    destruct (decide (key = key')) as [->|Hne].
    + rewrite lookup_insert_eq in Hkey. by injection Hkey.
    + rewrite lookup_insert_ne in Hkey by done. by eapply Hall.
Qed.

Lemma check_paths_equality_memo_witness :
  ({[ (3, 5) := false ]} = (∅ : Memo)
   ∨ false = false
     ∧ ∃ key, (∅ : Memo) !! key = None
              ∧ ({[ (3, 5) := false ]} : Memo) = <[key := false]> ∅)
  ∧ (false = true → ({[ (3, 5) := false ]} : Memo) = ∅)
  ∧ ((∀ key verdict, (∅ : Memo) !! key = Some verdict → verdict = false) →
     ∀ key verdict,
       ({[ (3, 5) := false ]} : Memo) !! key = Some verdict →
       verdict = false).
Proof.
  apply (check_paths_equality_memo 12 mixed_tree 4 6 ∅ {[ (3, 5) := false ]}
           false).
  vm_compute; reflexivity.
Defined.


(** ** Depth-first traversal *)

Lemma for_each_app {S X} (body : S → X → result S) (l1 l2 : list X) (s : S) :
  for_each body (l1 ++ l2) s = for_each body l1 s ≫= for_each body l2.
Proof.
  revert s. induction l1 as [|x l1 IH]; intros s; [done|].
  simpl. destruct (body s x) as [s1| |]; simpl; [apply IH|done..].
Qed.

Lemma for_each_concat {S X Y} (body : S → X → result S)
    (inner : S → Y → result S) (f : Y → list X) (ys : list Y) (s : S) :
  (∀ s y, y ∈ ys → inner s y = for_each body (f y) s) →
  for_each inner ys s = for_each body (concat (f <$> ys)) s.
Proof.
  revert s. induction ys as [|y ys IH]; intros s Hinner; [done|].
  simpl. rewrite for_each_app, Hinner by by left.
  destruct (for_each body (f y) s) as [s1| |]; simpl; [|done..].
  apply IH. intros ?? ?. apply Hinner. by right.
Qed.

Lemma elem_of_concat {A} (x : A) (ls : list (list A)) :
  x ∈ concat ls ↔ ∃ l, x ∈ l ∧ l ∈ ls.
Proof.
  rewrite list_elem_of_In, in_concat. split.
  - intros (l & Hl & Hx). exists l. by rewrite !list_elem_of_In.
  - intros (l & Hx & Hl). exists l. by rewrite <- !list_elem_of_In.
Qed.

(** The traversal runs the actor on the nodes of the subtree in depth-first
    order. *)
Lemma iterate_DFS_preorder {S} (self : Tree)
    (actor : Tree → nat → S → result S) :
  wf self → ∀ fuel i s, i < length self → length self - i ≤ fuel →
  iterate_DFS fuel self i actor s
  = for_each (λ s k, actor self k s) (preorder fuel self i) s.
Proof.
  intros Hwf fuel. induction fuel as [|fuel IH]; intros i s Hi Hfuel; [lia|].
  destruct (lookup_lt_is_Some_2 _ _ Hi) as [n Hn].
  simpl. rewrite Hn. simpl.
  destruct (actor self i s) as [s1| |]; simpl; [|done..].
  rewrite (getitem_lookup _ _ _ Hn). simpl.
  apply for_each_concat. intros s' c Hc.
  destruct (wf_lookup_child _ _ _ _ Hwf Hn Hc) as [Hic [nc Hnc]].
  apply IH; [by eapply lookup_lt_Some|lia].
Qed.

Lemma elem_of_preorder (self : Tree) :
  wf self → ∀ fuel i k, i < length self → length self - i ≤ fuel →
  k ∈ preorder fuel self i ↔ descendant self i k.
Proof.
  intros Hwf fuel. induction fuel as [|fuel IH]; intros i k Hi Hfuel; [lia|].
  destruct (lookup_lt_is_Some_2 _ _ Hi) as [n Hn].
  simpl. rewrite Hn. rewrite elem_of_cons. split.
  - intros [->|Hk]; [constructor|].
    apply elem_of_concat in Hk as (l & Hk & Hl).
    apply list_elem_of_fmap in Hl as (c & -> & Hc).
    destruct (wf_lookup_child _ _ _ _ Hwf Hn Hc) as [Hic [nc Hnc]].
    eapply descendant_of_child; [done..|].
    apply IH in Hk; [done|by eapply lookup_lt_Some|lia].
  - intros Hd. apply descendant_inv in Hd as [->|(n' & c & Hn' & Hc & Hd)];
      [by left|].
    rewrite Hn in Hn'. injection Hn' as <-. right.
    destruct (wf_lookup_child _ _ _ _ Hwf Hn Hc) as [Hic [nc Hnc]].
    apply elem_of_concat. exists (preorder fuel self c). split.
    + apply IH; [by eapply lookup_lt_Some|lia|done].
    + apply list_elem_of_fmap. by exists c.
Qed.

Lemma NoDup_preorder (self : Tree) :
  wf self → ∀ fuel i, i < length self → length self - i ≤ fuel →
  NoDup (preorder fuel self i).
Proof.
  intros Hwf fuel. induction fuel as [|fuel IH]; intros i Hi Hfuel; [lia|].
  destruct (lookup_lt_is_Some_2 _ _ Hi) as [n Hn].
  simpl. rewrite Hn.
  assert (∀ c, c ∈ Node.child_indices n →
            i < c ∧ c < length self ∧ length self - c ≤ fuel) as Hch.
  { intros c Hc. destruct (wf_lookup_child _ _ _ _ Hwf Hn Hc) as [Hic [nc Hnc]].
    apply lookup_lt_Some in Hnc. lia. }
  apply NoDup_cons. split.
  - intros Hin. apply elem_of_concat in Hin as (l & Hk & Hl).
    apply list_elem_of_fmap in Hl as (c & -> & Hc).
    destruct (Hch c Hc) as (Hic & Hc1 & Hc2).
    apply elem_of_preorder in Hk; [|done..].
    pose proof (descendant_ge _ _ _ Hwf Hk). lia.
  - pose proof (wf_nodup _ Hwf _ _ Hn) as Hnd.
    assert (∀ c, c ∈ Node.child_indices n → c ∈ children_of self i) as Hin.
    { intros c Hc. by erewrite children_of_lookup. }
    clear Hn. induction (Node.child_indices n) as [|c cs IHcs]; [constructor|].
    apply NoDup_cons in Hnd as [Hc Hnd]. simpl.
    destruct (Hch c) as (Hic & Hc1 & Hc2); [by left|].
    apply NoDup_app. split; [by apply IH|]. split.
    + intros k Hk Hk'. apply elem_of_concat in Hk' as (l & Hk' & Hl).
      apply list_elem_of_fmap in Hl as (c' & -> & Hc').
      destruct (Hch c') as (Hic' & Hc1' & Hc2'); [by right|].
      apply elem_of_preorder in Hk, Hk'; [|done..].
      assert (c = c'); [|by subst].
      eapply sibling_subtrees_disjoint; [done| | |done..].
      * apply Hin. by left.
      * apply Hin. by right.
    + apply IHcs; [|done|].
      * intros c' Hc'. apply Hch. by right.
      * intros c' Hc'. apply Hin. by right.
Qed.

Lemma TextBasket_act_spec (self : Tree) (k : nat) (array : list nat) :
  k < length self →
  TextBasket_act self k array
  = Ok (if is_text self k then array ++ [k] else array).
Proof.
  intros Hk. destruct (lookup_lt_is_Some_2 self k Hk) as [n Hn].
  unfold TextBasket_act, is_text. rewrite (getitem_lookup _ _ _ Hn), Hn. simpl.
  by destruct (truthy (Node.text n)).
Qed.

Lemma text_basket_loop (self : Tree) (l : list nat) (array : list nat) :
  (∀ k, k ∈ l → k < length self) →
  for_each (λ s k, TextBasket_act self k s) l array
  = Ok (array ++ filter (λ k, is_text self k = true) l).
Proof.
  revert array. induction l as [|k l IH]; intros array Hl; cbn [for_each].
  - by rewrite filter_nil, app_nil_r.
  - rewrite TextBasket_act_spec by (apply Hl; by left). simpl.
    rewrite IH by (intros ??; apply Hl; by right).
    rewrite filter_cons. destruct (is_text self k).
    + rewrite decide_True by done. by rewrite <- app_assoc.
    + by rewrite decide_False by done.
Qed.

Lemma length_text_preorder (self : Tree) :
  wf self → ∀ fuel i,
  length (filter (λ k, is_text self k = true) (preorder fuel self i))
  = text_count_from fuel self i.
Proof.
  intros Hwf fuel. induction fuel as [|fuel IH]; intros i; [done|].
  cbn [preorder text_count_from].
  destruct (self !! i) as [n|] eqn:Hn; [|done].
  assert (is_text self i = truthy (Node.text n)) as Hi
    by (unfold is_text; by rewrite Hn).
  rewrite filter_cons. destruct (truthy (Node.text n)) eqn:Htext.
  - rewrite decide_True by done.
    rewrite (wf_leaf _ Hwf i n Hn); [done|]. by apply truthy_spec.
  - rewrite decide_False by (rewrite Hi; done).
    induction (Node.child_indices n) as [|c cs IHcs]; [done|].
    rewrite !fmap_cons. cbn [concat]. rewrite filter_app, length_app, IH.
    change (sum_list (?x :: ?l)) with (x + sum_list l). by rewrite IHcs.
Qed.

(** The run of [get_text_nodes] on a well-formed arena. *)
Lemma get_text_nodes_run (fuel : nat) (self : Tree) :
  wf self → length self ≤ fuel →
  get_text_nodes fuel self
  = Ok (filter (λ k, is_text self k = true) (preorder fuel self 0)).
Proof.
  intros Hwf Hfuel. pose proof (wf_root _ Hwf) as Hlen.
  unfold get_text_nodes.
  rewrite iterate_DFS_preorder by (done || lia).
  rewrite text_basket_loop; [done|]. intros k Hk.
  apply elem_of_preorder in Hk; [|done|done|lia].
  by eapply descendant_lt_length.
Qed.

Lemma text_preorder_spec (fuel : nat) (self : Tree) (k : nat) :
  wf self → length self ≤ fuel →
  k ∈ filter (λ k, is_text self k = true) (preorder fuel self 0) ↔
  reachable self k ∧ is_text self k = true.
Proof.
  intros Hwf Hfuel. pose proof (wf_root _ Hwf) as Hlen.
  rewrite list_elem_of_filter, elem_of_preorder by (done || lia).
  unfold reachable. tauto.
Qed.

(** X14. On a well-formed arena [get_text_nodes] returns the reachable text
    nodes, each of them once, in depth-first order; their number is the
    number of text nodes below the root. *)
Theorem get_text_nodes_exact (fuel : nat) (self : Tree) :
  well_formed self = true → length self ≤ fuel →
  get_text_nodes fuel self
  = Ok (filter (λ k, is_text self k = true) (preorder fuel self 0))
  ∧ NoDup (filter (λ k, is_text self k = true) (preorder fuel self 0))
  ∧ (∀ k, k ∈ filter (λ k, is_text self k = true) (preorder fuel self 0) ↔
          reachable self k ∧ is_text self k = true)
  ∧ length (filter (λ k, is_text self k = true) (preorder fuel self 0))
    = text_count self 0.
Proof.
  intros Hwf%well_formed_wf Hfuel. pose proof (wf_root _ Hwf) as Hlen.
  split; [by apply get_text_nodes_run|]. split; [|split].
  - apply NoDup_filter, NoDup_preorder; [done|done|lia].
  - intros k. by apply text_preorder_spec.
  - rewrite length_text_preorder by done.
    unfold text_count. apply text_count_from_stable; [done|lia|lia].
Qed.

Lemma get_text_nodes_exact_witness :
  get_text_nodes 12 list_tree
  = Ok (filter (λ k, is_text list_tree k = true) (preorder 12 list_tree 0))
  ∧ NoDup (filter (λ k, is_text list_tree k = true) (preorder 12 list_tree 0))
  ∧ (∀ k, k ∈ filter (λ k, is_text list_tree k = true)
                     (preorder 12 list_tree 0) ↔
          reachable list_tree k ∧ is_text list_tree k = true)
  ∧ length (filter (λ k, is_text list_tree k = true)
                   (preorder 12 list_tree 0))
    = text_count list_tree 0.
Proof.
  apply (get_text_nodes_exact 12 list_tree);
    [vm_compute; reflexivity|vm_compute; lia].
Defined.

(** ** Paths to the root *)

Lemma build_path_loop_chain (self : Tree) :
  wf self → ∀ fuel k acc depth, k < length self → k < fuel →
  ∃ up, build_path_loop fuel self acc k = Ok (acc ++ up)
        ∧ get_node_depth_loop fuel self depth k = Ok (depth + length up)
        ∧ chain_up self k up.
Proof.
  intros Hwf fuel. induction fuel as [|fuel IH]; intros k acc depth Hk Hfuel;
    [lia|].
  destruct (lookup_lt_is_Some_2 _ _ Hk) as [n Hn].
  cbn [build_path_loop get_node_depth_loop].
  rewrite (getitem_lookup _ _ _ Hn). simpl.
  destruct (-1 <? Node.parent_index n)%Z eqn:Hpar.
  - apply Z.ltb_lt in Hpar as Hpar'.
    destruct (wf_parent_lookup _ _ _ Hwf Hn Hpar') as (np & _ & Hnp & Hlt).
    destruct (IH (Z.to_nat (Node.parent_index n))
                 (acc ++ [Z.to_nat (Node.parent_index n)]) (depth + 1))
      as (up & Hpath & Hdepth & Hchain);
      [by eapply lookup_lt_Some|lia|].
    exists (Z.to_nat (Node.parent_index n) :: up).
    rewrite Hpath, Hdepth, <- app_assoc. simpl.
    split; [done|]. split; [f_equal; lia|]. by eapply chain_up_step.
  - exists []. rewrite app_nil_r. simpl. split; [done|].
    split; [f_equal; lia|]. by eapply chain_up_top.
Qed.

(** A relation between neighbours of a list read backwards. *)
Lemma neighbours_reverse_cons {A} (R : A → A → Prop) (k p : A) (up : list A) :
  (∀ d a b, reverse (p :: up) !! d = Some a →
            reverse (p :: up) !! S d = Some b → R a b) →
  R p k →
  ∀ d a b, reverse (k :: p :: up) !! d = Some a →
           reverse (k :: p :: up) !! S d = Some b → R a b.
Proof.
  intros Hup Hpk d a b. rewrite (reverse_cons _ k).
  assert (length (reverse (p :: up)) = S (length up)) as Hlen
    by by rewrite length_reverse.
  destruct (decide (S d < S (length up))) as [Hlt|Hge].
  - rewrite !lookup_app_l by lia. apply Hup.
  - destruct (decide (d = length up)) as [->|Hne].
    + rewrite lookup_app_l by lia. rewrite lookup_app_r by lia.
      rewrite Hlen, Nat.sub_diag. rewrite reverse_cons.
      rewrite lookup_app_r by (rewrite length_reverse; lia).
      rewrite length_reverse, Nat.sub_diag. simpl. by intros [= <-] [= <-].
    + intros _. rewrite lookup_app_r by lia. rewrite Hlen.
      destruct (S d - S (length up)) as [|m] eqn:Hm; [lia|]. done.
Qed.

Lemma neighbours_reverse_singleton {A} (R : A → A → Prop) (k : A) :
  ∀ d a b, reverse [k] !! d = Some a → reverse [k] !! S d = Some b → R a b.
Proof. intros d a b _. done. Qed.

Lemma chain_up_parents (self : Tree) (k : nat) (up : list nat) :
  chain_up self k up →
  (∃ r, head (reverse (k :: up)) = Some r ∧ parent_of self r ≤ -1)%Z
  ∧ ∀ d a b, reverse (k :: up) !! d = Some a →
             reverse (k :: up) !! S d = Some b →
             parent_of self b = Z.of_nat a.
Proof.
  induction 1 as [k n Hn Hpar|k n up Hn Hpar Hup [(r & Hr & Hroot) IH]].
  - split; [|apply neighbours_reverse_singleton].
    exists k. split; [done|]. unfold parent_of. rewrite Hn. simpl.
    apply Z.ltb_ge in Hpar. lia.
  - split.
    + exists r. split; [|done]. rewrite (reverse_cons _ k).
      destruct (reverse _); [done|]. done.
    + apply neighbours_reverse_cons; [done|].
      unfold parent_of. rewrite Hn. simpl. apply Z.ltb_lt in Hpar. lia.
Qed.

(** A reachable node with a parent is listed by it, and the parent is
    reachable. *)
Lemma reachable_parent (self : Tree) (k : nat) (n : Node.t) :
  wf self → reachable self k → self !! k = Some n →
  if (-1 <? Node.parent_index n)%Z
  then k ∈ children_of self (Z.to_nat (Node.parent_index n))
       ∧ reachable self (Z.to_nat (Node.parent_index n))
  else k = 0.
Proof.
  intros Hwf Hk Hn. inversion Hk as [|p np c Hp Hnp Hc]; subst.
  - destruct (wf_parent _ Hwf 0 n Hn) as [->|?]; [done|lia].
  - destruct (wf_child _ Hwf p np k Hnp Hc) as [_ (m & Hm & Hpar)].
    rewrite Hn in Hm. injection Hm as <-. rewrite Hpar.
    replace (-1 <? Z.of_nat p)%Z with true by (symmetry; apply Z.ltb_lt; lia).
    rewrite Nat2Z.id. split; [by erewrite children_of_lookup|done].
Qed.

Lemma chain_up_reachable (self : Tree) (k : nat) (up : list nat) :
  wf self → chain_up self k up → reachable self k →
  head (reverse (k :: up)) = Some 0
  ∧ ∀ d a b, reverse (k :: up) !! d = Some a →
             reverse (k :: up) !! S d = Some b →
             b ∈ children_of self a.
Proof.
  intros Hwf. induction 1 as [k n Hn Hpar|k n up Hn Hpar Hup IH]; intros Hk.
  - pose proof (reachable_parent _ _ _ Hwf Hk Hn) as H. rewrite Hpar in H.
    subst k. split; [done|]. apply neighbours_reverse_singleton.
  - pose proof (reachable_parent _ _ _ Hwf Hk Hn) as H. rewrite Hpar in H.
    destruct H as [Hlisted Hreach]. destruct (IH Hreach) as [Hhead Hnext].
    split.
    + rewrite (reverse_cons _ k). destruct (reverse _); [done|]. done.
    + by apply neighbours_reverse_cons.
Qed.

(** X15. On a well-formed arena [__build_path] and [__get_node_depth]
    return for every node: the path ends at the node, begins at a node
    without a parent, and every node of it is the parent of the next; the
    depth is the length of the path.  The path of a reachable node begins at
    the root and every node of it lists the next among its children. *)
Theorem build_path_chain (fuel : nat) (self : Tree) (k : nat) :
  well_formed self = true → k < length self → k < fuel →
  ∃ path,
    build_path fuel self k = Ok path
    ∧ get_node_depth fuel self k = Ok (length path)
    ∧ last path = Some k
    ∧ (∃ r, head path = Some r ∧ (parent_of self r ≤ -1)%Z)
    ∧ (∀ d a b, path !! d = Some a → path !! S d = Some b →
                parent_of self b = Z.of_nat a)
    ∧ (reachable self k →
       head path = Some 0
       ∧ ∀ d a b, path !! d = Some a → path !! S d = Some b →
                  b ∈ children_of self a).
Proof.
  intros Hwf%well_formed_wf Hk Hfuel.
  destruct (build_path_loop_chain self Hwf fuel k [k] 1 Hk Hfuel)
    as (up & Hpath & Hdepth & Hchain).
  exists (reverse (k :: up)). unfold build_path, get_node_depth.
  rewrite Hpath, Hdepth. simpl.
  split; [done|]. split; [by rewrite length_reverse|].
  split; [by rewrite reverse_cons, last_snoc|].
  destruct (chain_up_parents _ _ _ Hchain) as [Hroot Hlinks].
  split; [done|]. split; [done|]. intros Hreach.
  by apply chain_up_reachable.
Qed.

Lemma build_path_chain_witness :
  ∃ path,
    build_path 12 list_tree 5 = Ok path
    ∧ get_node_depth 12 list_tree 5 = Ok (length path)
    ∧ last path = Some 5
    ∧ (∃ r, head path = Some r ∧ (parent_of list_tree r ≤ -1)%Z)
    ∧ (∀ d a b, path !! d = Some a → path !! S d = Some b →
                parent_of list_tree b = Z.of_nat a)
    ∧ (reachable list_tree 5 →
       head path = Some 0
       ∧ ∀ d a b, path !! d = Some a → path !! S d = Some b →
                  b ∈ children_of list_tree a).
Proof.
  apply (build_path_chain 12 list_tree 5);
    [vm_compute; reflexivity|vm_compute; lia|lia].
Defined.

(** ** The groups of the similarity grouper *)

(** Loops over a range, with the invariant indexed by the position. *)
Lemma for_each_xrange {St} (I : nat → St → Prop)
    (body : St → nat → result St) (a b : nat) (s s' : St) :
  a ≤ b →
  (∀ i s s1, a ≤ i < b → I i s → body s i = Ok s1 → I (i + 1) s1) →
  I a s → for_each body (xrange a b) s = Ok s' → I b s'.
Proof.
  intros Hab Hbody. remember (b - a) as n eqn:Hn.
  revert a s Hab Hn Hbody. induction n as [|n IH]; intros a s Hab Hn Hbody Hs.
  - rewrite xrange_nil by lia. simpl. intros [= <-].
    by replace b with a by lia.
  - rewrite xrange_cons by lia. simpl. intros Hrun. inv_ok Hrun.
    apply (IH (S a) x); [lia|lia| | |done].
    + intros i s0 s1 Hi. apply Hbody. lia.
    + replace (S a) with (a + 1) by lia. eapply Hbody; [|done..]. lia.
Qed.

Lemma for_break_xrange {St} (I : nat → St → Prop) (Q : St → Prop)
    (body : St → nat → result (control St)) (a b : nat) (s s' : St) :
  a ≤ b →
  (∀ i s c, a ≤ i < b → I i s → body s i = Ok c →
     match c with Next s1 => I (i + 1) s1 | Break s1 => Q s1 end) →
  (∀ s, I b s → Q s) →
  I a s → for_break body (xrange a b) s = Ok s' → Q s'.
Proof.
  intros Hab Hbody HQ. remember (b - a) as n eqn:Hn.
  revert a s Hab Hn Hbody. induction n as [|n IH]; intros a s Hab Hn Hbody Hs.
  - rewrite xrange_nil by lia. simpl. intros [= <-]. apply HQ.
    by replace b with a by lia.
  - rewrite xrange_cons by lia. simpl. intros Hrun. inv_ok Hrun.
    pose proof (Hbody a s x ltac:(lia) Hs Hx) as Hc.
    destruct x as [s1|s1].
    + apply (IH (S a) s1); [lia|lia| | |done].
      * intros i s0 c Hi. apply Hbody. lia.
      * by replace (S a) with (a + 1) by lia.
    + by inv_ok Hrun.
Qed.

Lemma setdefault_append_buckets (B B' : list nat → Prop) (k x : nat)
    (d : Fellows) :
  B' [x] → (∀ g, B g → B' (g ++ [x])) → (∀ g, B g → B' g) →
  Forall (λ kg : nat * list nat, B kg.2) d →
  Forall (λ kg : nat * list nat, B' kg.2) (setdefault_append k x d).
Proof.
  intros Hnew Happ Hmono. induction d as [|[k' g] d IH]; intros Hd; simpl.
  - by repeat constructor.
  - inversion Hd as [|? ? Hg Hd']; subst. case_decide.
    + constructor; [by apply Happ|].
      eapply Forall_impl; [done|]. intros kg. apply Hmono.
    + constructor; [by apply Hmono|]. by apply IH.
Qed.

Lemma largest_group_elem (groups : list (list nat)) :
  largest_group groups = [] ∨ largest_group groups ∈ groups.
Proof.
  unfold largest_group.
  assert (∀ acc, foldl (λ fellows group,
                          if length fellows <? length group then group
                          else fellows) acc groups = acc
                 ∨ foldl (λ fellows group,
                            if length fellows <? length group then group
                            else fellows) acc groups ∈ groups) as H.
  { induction groups as [|g gs IH]; intros acc; simpl; [by left|].
    destruct (length acc <? length g).
    - right. destruct (IH g) as [->|?]; [by left|by right].
    - destruct (IH acc) as [->|?]; [by left|right; by right]. }
  apply H.
Qed.

(** The node indices of the sorted leaves are those [get_text_nodes]
    returned. *)
Lemma depth_loop_nodes (fuel : nat) (self : Tree) (xs : list nat)
    (acc l : list (nat * nat)) :
  for_each (λ acc node_index,
              depth ← get_node_depth fuel self node_index;
              Ok (acc ++ [(depth, node_index)])) xs acc = Ok l →
  l.*2 = acc.*2 ++ xs.
Proof.
  revert acc. induction xs as [|x xs IH]; intros acc Hrun; simpl in Hrun.
  - inv_ok Hrun. by rewrite app_nil_r.
  - inv_ok Hrun. cbv beta in Hx. inv_ok Hx. apply IH in Hrun.
    rewrite Hrun, fmap_app. simpl. by rewrite <- app_assoc.
Qed.

Lemma sorted_text_elements_nodes (fuel : nat) (self : Tree)
    (te : list (nat * nat)) :
  wf self → length self ≤ fuel →
  sorted_text_elements fuel self = Ok te →
  te.*2 ≡ₚ filter (λ k, is_text self k = true) (preorder fuel self 0).
Proof.
  intros Hwf Hfuel Hrun. unfold sorted_text_elements in Hrun.
  rewrite get_text_nodes_run in Hrun by done. simpl in Hrun.
  inv_ok Hrun. apply depth_loop_nodes in Hx. simpl in Hx.
  rewrite merge_sort_Permutation. by rewrite Hx.
Qed.

Section Disjoint.
Variable dict_values : Fellows → list (list nat).
Hypothesis dict_values_perm : ∀ d, dict_values d ≡ₚ d.*2.

Variables (fuel : nat) (self : Tree) (te : list (nat * nat)).
Hypothesis te_nodup : NoDup (te.*2).

Lemma te_position (j j' d d' x : nat) :
  te !! j = Some (d, x) → te !! j' = Some (d', x) → j = j'.
Proof.
  intros Hj Hj'. eapply (NoDup_lookup te.*2); [done|..];
    rewrite list_lookup_fmap; [by rewrite Hj|by rewrite Hj'].
Qed.

Lemma bucket_ok_mono (used : gset nat) (i ci ci' : nat) (g : list nat) :
  ci ≤ ci' → bucket_ok te used i ci g → bucket_ok te used i ci' g.
Proof.
  intros Hle [Hnd Hall]. split; [done|].
  eapply Forall_impl; [done|]. intros f (Hused & j & d & Hj & Hte).
  split; [done|]. exists j, d. split; [lia|done].
Qed.

Lemma scan_fellow_buckets (used : gset nat) (i d leaf : nat)
    (st : Fellows * Memo) (ci : nat) (c : control (Fellows * Memo)) :
  i < ci →
  Forall (λ kg : nat * list nat, bucket_ok te used i ci kg.2) st.1 →
  scan_fellow fuel self te used d leaf st ci = Ok c →
  Forall (λ kg : nat * list nat, bucket_ok te used i (ci + 1) kg.2)
         (control_state c).1.
Proof.
  intros Hlt Hst Hrun. destruct st as [fellows memo].
  assert (Forall (λ kg : nat * list nat, bucket_ok te used i (ci + 1) kg.2)
                 fellows) as Hst'.
  { eapply Forall_impl; [exact Hst|]. intros kg. apply bucket_ok_mono. lia. }
  unfold scan_fellow in Hrun. inv_ok Hrun.
  destruct x as [cmp_depth cmp_node_index]. apply getitem_Ok in Hx.
  destruct (negb (cmp_depth =? d)); [by inv_ok Hrun|].
  case_bool_decide as Hused; [by inv_ok Hrun|].
  inv_ok Hrun. destruct x as [equal memo'].
  destruct equal; [|by inv_ok Hrun]. inv_ok Hrun. simpl.
  apply (setdefault_append_buckets (bucket_ok te used i ci)); [| | |done].
  - split; [apply NoDup_singleton|]. constructor; [|constructor].
    split; [done|]. exists ci, cmp_depth. split; [lia|done].
  - intros g [Hnd Hall]. split.
    + apply NoDup_app. split; [done|]. split; [|apply NoDup_singleton].
      intros f Hf ->%list_elem_of_singleton.
      rewrite Forall_forall in Hall.
      destruct (Hall _ Hf) as (_ & j & d' & Hj & Hte).
      pose proof (te_position _ _ _ _ _ Hte Hx). lia.
    + apply Forall_app. split.
      * eapply Forall_impl; [done|]. intros f (Hu & j & d' & Hj & Hte).
        split; [done|]. exists j, d'. split; [lia|done].
      * constructor; [|constructor]. split; [done|].
        exists ci, cmp_depth. split; [lia|done].
  - intros g. apply bucket_ok_mono. lia.
Qed.

Lemma groups_ok_mono (i : nat) (st : list (list nat) * gset nat * Memo) :
  groups_ok te i st → groups_ok te (i + 1) st.
Proof.
  intros [Hnd Hall]. split; [done|]. eapply Forall_impl; [done|].
  intros x [Hte [Hu|(j & d & Hj & Hx)]]; (split; [done|]); [by left|].
  right. exists j, d. split; [lia|done].
Qed.

Lemma group_leaf_disjoint (st st' : list (list nat) * gset nat * Memo)
    (i : nat) :
  groups_ok te i st →
  group_leaf dict_values fuel self te st i = Ok st' →
  groups_ok te (i + 1) st'.
Proof.
  intros Hst Hrun. pose proof (groups_ok_mono _ _ Hst) as Hst1.
  destruct st as [[groups used] memo].
  unfold group_leaf in Hrun. inv_ok Hrun. destruct x as [d leaf].
  apply getitem_Ok in Hx. case_bool_decide as Hused; [by inv_ok Hrun|].
  inv_ok Hrun. destruct x as [dict memo'].
  assert (Forall (λ kg : nat * list nat,
                    bucket_ok te used i (length te) kg.2) dict) as Hdict.
  { change dict with (dict, memo').1.
    assert (i + 1 ≤ length te) as Hle by (apply lookup_lt_Some in Hx; lia).
    eapply (for_break_xrange
              (λ ci (s : Fellows * Memo),
                 Forall (λ kg : nat * list nat, bucket_ok te used i ci kg.2) s.1)
              (λ s : Fellows * Memo,
                 Forall (λ kg : nat * list nat,
                           bucket_ok te used i (length te) kg.2) s.1));
      [exact Hle| | | |exact Hx0].
    - intros ci s c Hci Hs Hstep.
      pose proof (scan_fellow_buckets used i d leaf s ci c ltac:(lia) Hs Hstep)
        as Hc.
      destruct c as [s1|s1]; simpl in Hc; [done|].
      eapply Forall_impl; [exact Hc|]. intros kg. apply bucket_ok_mono. lia.
    - done.
    - constructor. }
  unfold emit_group in Hrun. destruct dict as [|kg rest];
    [by inv_ok Hrun|].
  set (dict := kg :: rest) in *. inv_ok Hrun.
  set (fellows := largest_group (dict_values dict)).
  assert (bucket_ok te used i (length te) fellows) as [Hnd Hfellows].
  { destruct (largest_group_elem (dict_values dict)) as [Hnil|Hin].
    - unfold fellows. rewrite Hnil. split; [constructor|constructor].
    - assert (fellows ∈ dict.*2) as Hin'
        by (by rewrite <- (dict_values_perm dict)).
      apply list_elem_of_fmap in Hin' as (kg' & Hkg & Hkg').
      rewrite Hkg. rewrite Forall_forall in Hdict. by apply Hdict. }
  rewrite Forall_forall in Hfellows.
  destruct Hst as [Hgnd Hgall]. simpl in Hgnd, Hgall.
  rewrite Forall_forall in Hgall.
  assert (∀ x, x ∈ concat groups → x ∈ leaf :: fellows → False) as Hdisj.
  { intros x Hx1 Hx2.
    destruct (Hgall x Hx1) as [_ Hcase].
    apply elem_of_cons in Hx2 as [->|Hx2].
    - destruct Hcase as [?|(j & d' & Hj & Hte)]; [done|].
      pose proof (te_position _ _ _ _ _ Hte Hx). lia.
    - destruct (Hfellows x Hx2) as (Hu & j & d' & Hj & Hte).
      destruct Hcase as [?|(j' & d'' & Hj' & Hte')]; [done|].
      pose proof (te_position _ _ _ _ _ Hte Hte'). lia. }
  split; simpl.
  - rewrite concat_app. simpl. rewrite app_nil_r.
    apply NoDup_app. split; [done|]. split; [done|].
    apply NoDup_cons. split; [|done]. intros Hin.
    destruct (Hfellows leaf Hin) as (_ & j & d' & Hj & Hte).
    pose proof (te_position _ _ _ _ _ Hte Hx). lia.
  - rewrite concat_app. simpl. rewrite app_nil_r.
    apply Forall_app. split.
    + apply Forall_forall. intros x Hx1.
      destruct (Hgall x Hx1) as [Hte [Hu|(j & d' & Hj & Hx')]];
        (split; [done|]).
      * left. by apply elem_of_union_l.
      * right. exists j, d'. split; [lia|done].
    + constructor.
      * split.
        -- apply list_elem_of_fmap. exists (d, leaf). split; [done|].
           by eapply list_elem_of_lookup_2.
        -- right. exists i, d. split; [lia|done].
      * apply Forall_forall. intros f Hf.
        destruct (Hfellows f Hf) as (_ & j & d' & _ & Hte). split.
        -- apply list_elem_of_fmap. exists (d', f). split; [done|].
           by eapply list_elem_of_lookup_2.
        -- left. apply elem_of_union_r. by apply elem_of_list_to_set.
Qed.
End Disjoint.

(** X16. The groups of the similarity grouper are disjoint: on a
    well-formed arena, whatever order the dictionary yields its buckets in,
    no node stands twice in a group or in two groups, and every member of a
    group is a reachable text node. *)
Theorem get_similar_sense_texts_disjoint
    (dict_values : Fellows → list (list nat)) (fuel : nat) (self : Tree)
    (groups : list (list nat)) :
  (∀ d, dict_values d ≡ₚ d.*2) →
  well_formed self = true → length self ≤ fuel →
  get_similar_sense_texts dict_values fuel self = Ok groups →
  NoDup (concat groups)
  ∧ Forall (Forall (λ k, reachable self k ∧ is_text self k = true)) groups.
Proof.
  intros Hperm Hwf%well_formed_wf Hfuel Hrun.
  unfold get_similar_sense_texts in Hrun. inv_ok Hrun. rename x into te.
  destruct x0 as [[groups' used] memo]. inv_ok Hrun.
  pose proof (sorted_text_elements_nodes _ _ _ Hwf Hfuel Hx) as Hte.
  assert (NoDup (te.*2)) as Hnd.
  { rewrite Hte. apply NoDup_filter, NoDup_preorder; [done| |lia].
    by apply wf_root. }
  assert (groups_ok te (length te) (groups, used, memo)) as [Hgnd Hgall].
  { eapply (for_each_xrange (groups_ok te)); [| | |exact Hx0].
    - lia.
    - intros i s s1 _ Hs Hstep. by eapply group_leaf_disjoint.
    - split; simpl; constructor. }
  simpl in Hgnd, Hgall. split; [done|].
  apply Forall_forall. intros g Hg. apply Forall_forall. intros k Hk.
  rewrite Forall_forall in Hgall.
  destruct (Hgall k) as [Hin _].
  { apply elem_of_concat. by exists g. }
  rewrite Hte in Hin. by apply text_preorder_spec in Hin.
Qed.

Lemma get_similar_sense_texts_disjoint_witness :
  NoDup (concat [[5; 7; 9]])
  ∧ Forall (Forall (λ k, reachable list_tree k ∧ is_text list_tree k = true))
           [[5; 7; 9]].
Proof.
  apply (get_similar_sense_texts_disjoint values_by_key 12 list_tree
           [[5; 7; 9]]);
    [exact values_by_key_perm|vm_compute; reflexivity|vm_compute; lia
    |vm_compute; reflexivity].
Defined.

(** ** The loop over the siblings is never left early *)

Lemma for_break_app {St X} (I : St → Prop)
    (body : St → X → result (control St)) (l1 l2 : list X) (s : St) :
  (∀ s x c, x ∈ l1 → I s → body s x = Ok c → ∃ s1, c = Next s1 ∧ I s1) →
  I s →
  for_break body (l1 ++ l2) s = for_break body l1 s ≫= for_break body l2.
Proof.
  revert s. induction l1 as [|x l1 IH]; intros s Hbody Hs; [done|].
  simpl. destruct (body s x) as [c| |] eqn:Hx; simpl; [|done..].
  destruct (Hbody s x c ltac:(by left) Hs Hx) as (s1 & -> & Hs1).
  apply IH; [|done]. intros ??? ?. apply Hbody. by right.
Qed.

Lemma zones_inv_root :
  zones_inv (mkBuilder [Node.mk (-1) TREE_ROOT_TAG [] [] EmptyString [] 0] [],
             EmptyString, []).
Proof.
  split; [apply stripped_empty|]. split; [constructor|].
  split; [constructor|]. intros i n z Hi Hz.
  destruct i; simplify_eq/=. by apply elem_of_nil in Hz.
Qed.



(** ** The kinds of nodes of a built arena *)

Lemma kind_label (n n' : Node.t) :
  label n = label n' →
  (text_kind n ∨ block_kind n) → text_kind n' ∨ block_kind n'.
Proof.
  unfold label, text_kind, block_kind. intros [= Htag Hcls Htext Hmz].
  rewrite Htag, Hcls, Htext, Hmz. tauto.
Qed.

Lemma kinds_labels (t t' : Tree) :
  label <$> t = label <$> t' → kinds t → kinds t'.
Proof.
  intros Heq (r & rest & -> & Hr & Hrest).
  destruct t' as [|r' rest']; [done|]. rewrite !fmap_cons in Heq.
  pose proof (f_equal head Heq) as Hhead.
  pose proof (f_equal tail Heq) as Htail. cbn [head tail] in Hhead, Htail.
  exists r', rest'. split; [done|]. split.
  - unfold root_kind in *. congruence.
  - clear Heq Hhead. revert rest' Htail.
    induction Hrest as [|n rest Hn _ IH]; intros [|n' rest'] Htail;
      try done; constructor.
    + rewrite !fmap_cons in Htail. pose proof (f_equal head Htail) as Hh.
      cbn [head] in Hh. eapply kind_label; [|done]. congruence.
    + apply IH. rewrite !fmap_cons in Htail.
      by pose proof (f_equal tail Htail) as Ht.
Qed.

Lemma kinds_snoc (t : Tree) (n : Node.t) :
  kinds t → text_kind n ∨ block_kind n → kinds (t ++ [n]).
Proof.
  intros (r & rest & -> & Hr & Hrest) Hn. exists r, (rest ++ [n]).
  split; [done|]. split; [done|]. apply Forall_app. split; [done|].
  by constructor.
Qed.

Lemma labels_insert (t : Tree) (i : nat) (n n' : Node.t) :
  t !! i = Some n → label n' = label n →
  label <$> <[i := n']> t = label <$> t.
Proof.
  intros Hi Hl. rewrite list_fmap_insert, Hl. apply list_insert_id.
  by rewrite list_lookup_fmap, Hi.
Qed.

Lemma append_child_kinds (t t' : Tree) (p k : nat) (child : Node.t) :
  append_child t p child = Ok (t', k) →
  kinds t → text_kind child ∨ block_kind child → kinds t'.
Proof.
  unfold append_child. intros Hrun Ht Hchild. inv_ok Hrun.
  apply getitem_Ok in Hx.
  eapply kinds_labels; [|by apply kinds_snoc].
  symmetry. by eapply labels_insert.
Qed.

Lemma set_count_labels (t : Tree) (i v : nat) :
  label <$> set_count t i v = label <$> t.
Proof.
  unfold set_count. destruct (t !! i) as [n|] eqn:Hi; [|done].
  by eapply labels_insert.
Qed.

Lemma count_texts_in_nodes_labels (fuel : nat) :
  ∀ t i t' c, count_texts_in_nodes fuel t i = Ok (t', c) →
              label <$> t' = label <$> t.
Proof.
  induction fuel as [|fuel IH]; intros t i t' c Hrun; [done|].
  simpl in Hrun. inv_ok Hrun. rename x into n.
  destruct (truthy (Node.text n)).
  - inv_ok Hrun. apply set_count_labels.
  - inv_ok Hrun.
    eapply (for_each_inv (λ s, label <$> s = label <$> t)); [| |exact Hx0].
    + intros s c' s' _ Hs Hstep. cbv beta in Hstep. inv_ok Hstep.
      match goal with
      | H : count_texts_in_nodes _ _ _ = Ok ?r |- _ =>
          destruct r as [s1 counted]; inv_ok Hstep;
          pose proof (IH _ _ _ _ H) as Hrec
      end.
      rewrite set_count_labels. congruence.
    + apply set_count_labels.
Qed.

Lemma unlink_labels (t t' : Tree) (p : Z) (i : nat) :
  unlink t p i = Ok t' → label <$> t' = label <$> t.
Proof.
  unfold unlink, getitemZ. intros Hrun. inv_ok Hrun. rename x into parent.
  destruct (0 <=? p)%Z.
  - apply getitem_Ok in Hx. by eapply labels_insert.
  - destruct (0 <=? Z.of_nat (length t) + p)%Z; [|done].
    apply getitem_Ok in Hx. by eapply labels_insert.
Qed.

Lemma unlink_text_free_nodes_labels (t t' : Tree) :
  unlink_text_free_nodes t = Ok t' → label <$> t' = label <$> t.
Proof.
  unfold unlink_text_free_nodes. intros Hrun.
  eapply (for_each_inv (λ s, label <$> s = label <$> t)); [| |exact Hrun];
    [|done].
  intros s k s' _ Hs Hstep. unfold unlink_text_free_step in Hstep.
  inv_ok Hstep. destruct (-1 <? Node.parent_index x)%Z; [|by inv_ok Hstep].
  inv_ok Hstep. destruct (_ && _); [|by inv_ok Hstep].
  apply unlink_labels in Hstep. congruence.
Qed.

Lemma flush_kinds (b b' : Builder) (p : nat) (text : string)
    (zones ff : list zref) (tl : Z) :
  flush b p text zones tl = Ok (b', ff) →
  kinds (nodes b) → truthy text = true → stripped text → kinds (nodes b').
Proof.
  unfold flush. intros Hrun Hb Htext Hstr.
  destruct (split_mark_zones (store b) zones tl) as [[sto fn] ff'].
  inv_ok Hrun. destruct x as [self k]. inv_ok Hrun. simpl.
  eapply append_child_kinds; [done|done|]. left.
  split; [done|]. split; [done|]. split; [by apply truthy_spec|done].
Qed.

Lemma flush_pending_kinds (is_block to_skip : bool) (p : nat)
    (st st' : Pending) :
  flush_pending is_block to_skip p st = Ok st' →
  kinds_inv st → kinds_inv st'.
Proof.
  destruct st as [[b text] zones]. intros Hrun [Hstr Hk]. simpl in *.
  destruct (truthy text) eqn:Htext; simpl in Hrun.
  - destruct (is_block || to_skip).
    + inv_ok Hrun. destruct x as [b' ff]. inv_ok Hrun.
      split; [apply stripped_empty|]. simpl. by eapply flush_kinds.
    + by inv_ok Hrun.
  - by inv_ok Hrun.
Qed.

Section RecursionKinds.
Variables (translate : Translate) (children : list lxml).

Hypothesis translate_kinds :
  ∀ p b t z st', translate children p b t z = Ok st' →
    kinds_inv (b, t, z) → kinds_inv st'.

Lemma translate_block_kinds (tag : string) (child_classes : list string)
    (text : string) (p : nat) (st : Pending) (c : control Pending) :
  translate_block translate tag child_classes text children p st = Ok c →
  tag ∈ BLOCK_TAGS → tag ∉ TAGS_TO_SKIP → stripped text →
  kinds_inv st → kinds_inv (control_state c).
Proof.
  destruct st as [[b text_before] zones].
  intros Hrun Hblock Hskip Htext [Hstr Hk]. simpl in *.
  inv_ok Hrun. destruct x as [self node_index].
  inv_ok Hrun. destruct x as [[b2 text_left] zones2].
  assert (kinds_inv (b2, text_left, zones2)) as [Hstr2 Hk2].
  { eapply translate_kinds; [done|]. split; [done|]. simpl.
    eapply append_child_kinds; [done|done|]. right. by repeat split. }
  simpl in *. destruct (truthy text_left) eqn:Hleft.
  - inv_ok Hrun. destruct x as [b3 ff]. inv_ok Hrun.
    split; [done|]. simpl. by eapply flush_kinds.
  - by inv_ok Hrun.
Qed.

Lemma translate_inline_kinds (tag : string) (child_classes : list string)
    (link text : string) (p : nat) (st : Pending) (c : control Pending) :
  translate_inline translate tag child_classes link text children p st
  = Ok c →
  kinds_inv st → kinds_inv (control_state c).
Proof.
  destruct st as [[b text_before] zones].
  intros Hrun [Hstr Hk]. unfold translate_inline, alloc in Hrun.
  simpl in *. inv_ok Hrun. destruct x as [[b2 text2] zs]. inv_ok Hrun.
  destruct x as [sto1 add_len].
  assert (kinds_inv (b2, text2, zs)) as [Hstr2 Hk2].
  { eapply translate_kinds; [done|]. split; [apply stripped_strip|done]. }
  simpl in *. destruct (negb (add_len =? 0)%Z); by inv_ok Hrun.
Qed.
End RecursionKinds.

Lemma translate_tree_kinds (children : list lxml) :
  Forall (λ node, ∀ p st c, translate_node p st node = Ok c → kinds_inv st →
                            kinds_inv (control_state c))
         children →
  ∀ p b t z st', translate_tree children p b t z = Ok st' →
    kinds_inv (b, t, z) → kinds_inv st'.
Proof.
  unfold translate_tree. intros Hall p b t z st' Hrun Hinv.
  eapply (for_break_inv kinds_inv); [|exact Hinv|exact Hrun].
  intros s x c Hx Hs Hstep. rewrite Forall_forall in Hall.
  by eapply Hall.
Qed.

Lemma translate_node_kinds (node : lxml) :
  ∀ p st c, translate_node p st node = Ok c → kinds_inv st →
            kinds_inv (control_state c).
Proof.
  induction node as [tag attrib text tail children IH] using lxml_children_ind.
  intros p st c Hrun Hinv. rewrite translate_node_unfold in Hrun.
  set (node := Element tag attrib text tail children) in *.
  cbv zeta in Hrun. inv_ok Hrun. rename x into st1, x0 into step.
  pose proof (flush_pending_kinds _ _ _ _ _ Hx Hinv) as Hinv1.
  pose proof (translate_tree_kinds children IH) as Hrec.
  assert (kinds_inv (control_state step)) as Hstep.
  { destruct (bool_decide (get_tag_name node ∈ BLOCK_TAGS)) eqn:Hblock;
      destruct (bool_decide (get_tag_name node ∈ TAGS_TO_SKIP)) eqn:Hskip;
      simpl in Hx0.
    - by inv_ok Hx0.
    - eapply translate_block_kinds; [exact Hrec|exact Hx0| | | |done].
      + by apply bool_decide_eq_true in Hblock.
      + by apply bool_decide_eq_false in Hskip.
      + apply stripped_stripped_or_empty.
    - by inv_ok Hx0.
    - eapply translate_inline_kinds; [exact Hrec|exact Hx0|done]. }
  destruct step as [[[b1 t1] z1]|[[b1 t1] z1]]; simpl in *; [|done].
  destruct Hstep as [_ Hk]. split; [apply stripped_strip|done].
Qed.

Lemma kinds_root : kinds [Node.mk (-1) TREE_ROOT_TAG [] [] EmptyString [] 0].
Proof. eexists _, []. split; [done|]. split; [done|constructor]. Qed.



(** ** The similarity grouper returns *)

Lemma for_break_Ok {St X} (I : St → Prop)
    (body : St → X → result (control St)) (xs : list X) (s : St) :
  (∀ s x, x ∈ xs → I s → ∃ c, body s x = Ok c ∧ I (control_state c)) →
  I s → ∃ s', for_break body xs s = Ok s' ∧ I s'.
Proof.
  revert s. induction xs as [|x xs IH]; intros s Hbody Hs; simpl.
  - by exists s.
  - destruct (Hbody s x) as (c & -> & Hc); [by left|done|]. simpl.
    destruct c as [s1|s1]; simpl in Hc; [|by exists s1].
    apply IH; [|done]. intros ?? ?. apply Hbody. by right.
Qed.

Lemma index_of_elem (x : nat) (l : list nat) :
  x ∈ l → ∃ i, index_of x l = Ok i ∧ l !! i = Some x.
Proof.
  induction l as [|y l IH]; intros Hx; [by apply elem_of_nil in Hx|].
  simpl. case_decide as Hy; [subst; by exists 0|].
  apply elem_of_cons in Hx as [->|Hx]; [done|].
  destruct (IH Hx) as (i & -> & Hi). by exists (S i).
Qed.

Lemma slice_elem {A} (l : list A) (pos : nat) (x : A) :
  l !! pos = Some x →
  x ∈ slice l (pos - CONTEXT_LENGTH) (pos + CONTEXT_LENGTH + 1).
Proof.
  intros Hpos. unfold slice, CONTEXT_LENGTH.
  apply (list_elem_of_lookup_2 _ (pos - (pos - 2))).
  rewrite lookup_take_lt by lia. rewrite lookup_drop.
  by replace (pos - 2 + (pos - (pos - 2))) with pos by lia.
Qed.

Lemma slice_subseteq {A} (l : list A) (a b : nat) (x : A) :
  x ∈ slice l a b → x ∈ l.
Proof.
  unfold slice. intros Hx. by apply subseteq_take, subseteq_drop in Hx.
Qed.

(** The path of a reachable node. *)
Lemma build_path_reachable (fuel : nat) (self : Tree) (k : nat) :
  wf self → reachable self k → length self ≤ fuel →
  ∃ path, build_path fuel self k = Ok path
          ∧ get_node_depth fuel self k = Ok (length path)
          ∧ linked_path self path.
Proof.
  intros Hwf Hk Hfuel.
  assert (k < length self) as Hlt.
  { eapply descendant_lt_length; [done|by apply wf_root|done]. }
  destruct (build_path_loop_chain self Hwf fuel k [k] 1 Hlt ltac:(lia))
    as (up & Hpath & Hdepth & Hchain).
  exists (reverse (k :: up)). unfold build_path, get_node_depth.
  rewrite Hpath, Hdepth. simpl.
  split; [done|]. split; [by rewrite length_reverse|].
  by destruct (chain_up_reachable _ _ _ Hwf Hchain Hk).
Qed.

Lemma children_of_elem (self : Tree) (p c : nat) :
  wf self → c ∈ children_of self p →
  ∃ np nc, self !! p = Some np ∧ self !! c = Some nc
           ∧ c ∈ Node.child_indices np.
Proof.
  intros Hwf Hc. unfold children_of in Hc.
  destruct (self !! p) as [np|] eqn:Hp; simpl in Hc;
    [|by apply elem_of_nil in Hc].
  destruct (wf_lookup_child _ _ _ _ Hwf Hp Hc) as [_ [nc Hnc]].
  by exists np, nc.
Qed.

Section PathsTotal.
Variable self : Tree.
Hypothesis self_wf : wf self.

Lemma check_context_total (first_path second_path : list nat)
    (d : nat) (equal : bool) (pa a pb b : nat) :
  first_path !! d = Some pa → first_path !! S d = Some a →
  second_path !! d = Some pb → second_path !! S d = Some b →
  a ∈ children_of self pa → b ∈ children_of self pb →
  ∃ r, check_context self first_path second_path (S d) equal = Ok r.
Proof.
  intros Hpa Ha Hpb Hb Hina Hinb.
  destruct (children_of_elem _ _ _ self_wf Hina) as (npa & na & Hnpa & Hna & Ha').
  destruct (children_of_elem _ _ _ self_wf Hinb) as (npb & nb & Hnpb & Hnb & Hb').
  destruct (index_of_elem _ _ Ha') as (posa & Hposa & Hla).
  destruct (index_of_elem _ _ Hb') as (posb & Hposb & Hlb).
  destruct (index_of_elem _ _ (slice_elem _ _ _ Hla)) as (ia & Hia & _).
  destruct (index_of_elem _ _ (slice_elem _ _ _ Hlb)) as (ib & Hib & _).
  unfold check_context. replace (S d - 1) with d by lia.
  rewrite (getitem_lookup _ _ _ Hpa). simpl.
  rewrite (getitem_lookup _ _ _ Hnpa). simpl.
  rewrite (getitem_lookup _ _ _ Ha). simpl. rewrite Hposa. simpl.
  rewrite (getitem_lookup _ _ _ Hpb). simpl.
  rewrite (getitem_lookup _ _ _ Hnpb). simpl.
  rewrite (getitem_lookup _ _ _ Hb). simpl. rewrite Hposb. simpl.
  rewrite Hia. simpl. rewrite Hib. simpl.
  destruct (_ || _); [by eexists|].
  destruct (for_break_Ok (λ _, True)
              (λ (equal : bool) (pair : nat * nat),
                 first_sibling ← getitem self pair.1;
                 second_sibling ← getitem self pair.2;
                 if negb (check_tag_match first_sibling second_sibling)
                 then Ok (Break false)
                 else Ok (Next equal))
              (zip (slice (Node.child_indices npa) (posa - CONTEXT_LENGTH)
                          (posa + CONTEXT_LENGTH + 1))
                   (slice (Node.child_indices npb) (posb - CONTEXT_LENGTH)
                          (posb + CONTEXT_LENGTH + 1)))
              equal) as (r & Hr & _); [|done|by exists r].
  intros s [x y] Hxy _. cbv beta.
  apply elem_of_zip_l in Hxy as Hx. apply elem_of_zip_r in Hxy as Hy.
  apply slice_subseteq in Hx, Hy.
  destruct (wf_lookup_child _ _ _ _ self_wf Hnpa Hx) as [_ [nx Hnx]].
  destruct (wf_lookup_child _ _ _ _ self_wf Hnpb Hy) as [_ [ny Hny]].
  simpl. rewrite (getitem_lookup _ _ _ Hnx). simpl.
  rewrite (getitem_lookup _ _ _ Hny). simpl.
  destruct (negb _); by eexists.
Qed.

Lemma check_paths_step_total (first_path second_path : list nat)
    (st : bool * Memo) (depth : nat) :
  linked_path self first_path → linked_path self second_path →
  length first_path = length second_path →
  1 ≤ depth < length first_path →
  ∃ c, check_paths_step self first_path second_path st depth = Ok c.
Proof.
  intros Hfirst Hsecond Hlen Hdepth. destruct st as [equal memo].
  destruct depth as [|d]; [lia|].
  destruct (lookup_lt_is_Some_2 first_path d) as [pa Hpa]; [lia|].
  destruct (lookup_lt_is_Some_2 first_path (S d)) as [a Ha]; [lia|].
  destruct (lookup_lt_is_Some_2 second_path d) as [pb Hpb]; [lia|].
  destruct (lookup_lt_is_Some_2 second_path (S d)) as [b Hb]; [lia|].
  pose proof (Hfirst _ _ _ Hpa Ha) as Hina.
  pose proof (Hsecond _ _ _ Hpb Hb) as Hinb.
  unfold check_paths_step.
  rewrite (getitem_lookup _ _ _ Ha). simpl.
  rewrite (getitem_lookup _ _ _ Hb). simpl.
  case_decide; [by eexists|].
  destruct (memo !! _) as [cached|]; [destruct (negb cached); by eexists|].
  rewrite ?Nat.sub_0_r.
  rewrite (getitem_lookup _ _ _ Hpa). simpl.
  rewrite (getitem_lookup _ _ _ Hpb). simpl.
  case_decide as Hsame.
  - subst pb.
    apply list_elem_of_lookup in Hina as [posa Hposa].
    apply list_elem_of_lookup in Hinb as [posb Hposb].
    destruct (children_of_elem self pa a self_wf) as (_ & na & _ & Hna & _).
    { by eapply list_elem_of_lookup_2. }
    destruct (check_connection_spec self pa a b posa posb na self_wf Hposa
                Hposb Hna) as (r & -> & _).
    simpl. destruct (negb r); by eexists.
  - destruct (check_context_total first_path second_path d equal pa a pb b)
      as (r & Hr); [done..|].
    rewrite Hr. simpl.
    destruct (negb r); by eexists.
Qed.

Lemma check_paths_equality_total (fuel : nat) (first second : nat)
    (memo : Memo) :
  length self ≤ fuel → reachable self first → reachable self second →
  ∃ r, check_paths_equality fuel self first second memo = Ok r.
Proof.
  intros Hfuel Hfirst Hsecond.
  destruct (build_path_reachable fuel self first self_wf Hfirst Hfuel)
    as (fp & Hfp & _ & Hlf).
  destruct (build_path_reachable fuel self second self_wf Hsecond Hfuel)
    as (sp & Hsp & _ & Hls).
  assert (first < length self) as Hlt1.
  { eapply descendant_lt_length; [done|by apply wf_root|done]. }
  assert (second < length self) as Hlt2.
  { eapply descendant_lt_length; [done|by apply wf_root|done]. }
  destruct (lookup_lt_is_Some_2 _ _ Hlt1) as [n1 Hn1].
  destruct (lookup_lt_is_Some_2 _ _ Hlt2) as [n2 Hn2].
  unfold check_paths_equality.
  rewrite (getitem_lookup _ _ _ Hn1). simpl.
  rewrite (getitem_lookup _ _ _ Hn2). simpl.
  destruct (negb (check_tag_match n1 n2)); [by eexists|].
  rewrite Hfp. simpl. rewrite Hsp. simpl.
  destruct (Nat.eqb_spec (length fp) (length sp)) as [Hlen|Hlen]; simpl;
    [|by eexists].
  destruct (for_break_Ok (λ _, True)
              (check_paths_step self fp sp) (xrange 1 (length fp))
              (true, memo)) as (r & Hr & _); [|done|by exists r].
  intros s depth Hd%elem_of_xrange _.
  destruct (check_paths_step_total fp sp s depth) as [c Hc]; [done..|].
  by exists c.
Qed.

Lemma get_matched_path_len_total (fuel : nat) (first second : nat) :
  length self ≤ fuel → reachable self first → reachable self second →
  ∃ r, get_matched_path_len fuel self first second = Ok r.
Proof.
  intros Hfuel Hfirst Hsecond.
  destruct (build_path_reachable fuel self first self_wf Hfirst Hfuel)
    as (fp & Hfp & _).
  destruct (build_path_reachable fuel self second self_wf Hsecond Hfuel)
    as (sp & Hsp & _).
  unfold get_matched_path_len. rewrite Hfp. simpl. rewrite Hsp. simpl.
  destruct (for_break_Ok (λ _, True)
              (λ (st : nat * option nat) (pair : nat * nat),
                 let '(common_len, _) := st in
                 if decide (pair.1 = pair.2)
                 then Ok (Next (common_len + 1, None))
                 else Ok (Break (common_len,
                                 Some (length fp - common_len))))
              (zip fp sp) (0, None)) as ([c r] & Hr & _); [|done|].
  - intros [c r] pair _ _. case_decide; by eexists.
  - rewrite Hr. simpl. by eexists.
Qed.
End PathsTotal.


Lemma sorted_text_elements_total (fuel : nat) (self : Tree) :
  wf self → length self ≤ fuel →
  ∃ te, sorted_text_elements fuel self = Ok te
        ∧ Forall (λ x, reachable self x.2) te.
Proof.
  intros Hwf Hfuel.
  assert (∃ l, for_each (λ acc node_index,
                           depth ← get_node_depth fuel self node_index;
                           Ok (acc ++ [(depth, node_index)]))
                        (filter (λ k, is_text self k = true)
                                (preorder fuel self 0)) [] = Ok l)
    as [l Hl].
  { destruct (for_each_Ok (λ _, True)
                (λ acc node_index,
                   depth ← get_node_depth fuel self node_index;
                   Ok (acc ++ [(depth, node_index)]))
                (filter (λ k, is_text self k = true) (preorder fuel self 0))
                []) as (l & Hl & _); [|done|by exists l].
    intros acc k Hk _. apply text_preorder_spec in Hk as [Hk _]; [|done..].
    destruct (build_path_reachable fuel self k Hwf Hk Hfuel)
      as (path & _ & -> & _).
    simpl. by eexists. }
  assert (sorted_text_elements fuel self = Ok (merge_sort tuple_le l)) as Hte.
  { unfold sorted_text_elements. rewrite get_text_nodes_run by done.
    simpl. by rewrite Hl. }
  exists (merge_sort tuple_le l). split; [done|].
  pose proof (sorted_text_elements_nodes _ _ _ Hwf Hfuel Hte) as Hnodes.
  apply Forall_forall. intros x Hx.
  assert (x.2 ∈ (merge_sort tuple_le l).*2) as Hin
    by (apply list_elem_of_fmap; by exists x).
  rewrite Hnodes in Hin. by apply text_preorder_spec in Hin as [? _].
Qed.

Section GrouperTotal.
Variable dict_values : Fellows → list (list nat).
Variables (fuel : nat) (self : Tree) (te : list (nat * nat)).
Hypothesis self_wf : wf self.
Hypothesis fuel_covers : length self ≤ fuel.
Hypothesis te_reachable : Forall (λ x, reachable self x.2) te.

Lemma scan_fellow_total (used : gset nat) (depth node_index : nat)
    (st : Fellows * Memo) (compare_index : nat) :
  reachable self node_index → compare_index < length te →
  ∃ c, scan_fellow fuel self te used depth node_index st compare_index = Ok c.
Proof.
  intros Hnode Hci. destruct st as [fellows memo].
  destruct (lookup_lt_is_Some_2 _ _ Hci) as [[cmp_depth cmp_node_index] Hte].
  assert (reachable self cmp_node_index) as Hcmp.
  { rewrite Forall_forall in te_reachable.
    apply (te_reachable (cmp_depth, cmp_node_index)).
    by eapply list_elem_of_lookup_2. }
  unfold scan_fellow. rewrite (getitem_lookup _ _ _ Hte). simpl.
  destruct (negb (cmp_depth =? depth)); [by eexists|].
  case_bool_decide; [by eexists|].
  destruct (check_paths_equality_total self self_wf fuel node_index
              cmp_node_index memo fuel_covers Hnode Hcmp) as ([equal memo'] & ->).
  simpl. destruct equal; [|by eexists].
  destruct (get_matched_path_len_total self self_wf fuel node_index
              cmp_node_index fuel_covers Hnode Hcmp) as (len & ->).
  simpl. by eexists.
Qed.

Lemma group_leaf_total (st : list (list nat) * gset nat * Memo)
    (index : nat) :
  index < length te →
  ∃ st', group_leaf dict_values fuel self te st index = Ok st'.
Proof.
  intros Hindex. destruct st as [[groups used] memo].
  destruct (lookup_lt_is_Some_2 _ _ Hindex) as [[depth node_index] Hte].
  assert (reachable self node_index) as Hnode.
  { rewrite Forall_forall in te_reachable.
    apply (te_reachable (depth, node_index)).
    by eapply list_elem_of_lookup_2. }
  unfold group_leaf. rewrite (getitem_lookup _ _ _ Hte). simpl.
  case_bool_decide; [by eexists|].
  destruct (for_break_Ok (λ _, True)
              (scan_fellow fuel self te used depth node_index)
              (xrange (index + 1) (length te)) ([], memo))
    as ([fellows memo'] & -> & _); [|done|].
  - intros s ci Hci%elem_of_xrange _.
    destruct (scan_fellow_total used depth node_index s ci Hnode) as [c Hc];
      [lia|].
    by exists c.
  - simpl. destruct (emit_group _ _ _ _ _). by eexists.
Qed.
End GrouperTotal.

(** X19. On a well-formed arena the similarity grouper returns: none of
    its lookups by index and none of its searches of a list of siblings
    fails, since the paths it compares are those of reachable text nodes,
    which every ancestor lists. *)
Theorem get_similar_sense_texts_returns
    (dict_values : Fellows → list (list nat)) (fuel : nat) (self : Tree) :
  well_formed self = true → length self ≤ fuel →
  ∃ groups, get_similar_sense_texts dict_values fuel self = Ok groups.
Proof.
  intros Hwf%well_formed_wf Hfuel.
  destruct (sorted_text_elements_total fuel self Hwf Hfuel)
    as (te & Hte & Hreach).
  unfold get_similar_sense_texts. rewrite Hte. simpl.
  destruct (for_each_Ok (λ _, True)
              (group_leaf dict_values fuel self te)
              (xrange 0 (length te)) ([], ∅, ∅))
    as ([[groups used] memo] & -> & _); [|done|].
  - intros s index Hindex%elem_of_xrange _.
    destruct (group_leaf_total dict_values fuel self te Hwf Hfuel Hreach s
                index) as [st' Hst']; [lia|].
    by exists st'.
  - simpl. by eexists.
Qed.

Lemma get_similar_sense_texts_returns_witness :
  ∃ groups, get_similar_sense_texts values_by_key 12 reduced_tree = Ok groups.
Proof.
  apply (get_similar_sense_texts_returns values_by_key 12 reduced_tree);
    [vm_compute; reflexivity|vm_compute; lia].
Defined.

(** ** Crossing an arena with itself *)

(** X20. Crossing an arena with itself keeps it: on a well-formed arena
    whose lists hold nodes with text below them only (as after a build),
    the crossing returns, every reachable node keeps its list of children
    as it was, and the reachable nodes are the same. *)
Theorem cross_self_keeps_all (fuel : nat) (self : Tree) :
  well_formed self = true → pruned self = true → length self ≤ fuel →
  ∃ self', cross_tree fuel self self = Ok self'
           ∧ (∀ p, reachable self p → children_of self' p = children_of self p)
           ∧ (∀ i, reachable self' i ↔ reachable self i).
Proof.
  intros Hwf%well_formed_wf Hpr Hfuel.
  pose proof (pruned_spec _ Hpr) as Hpruned.
  pose proof (wf_root _ Hwf) as Hlen.
  destruct (check_matching_self self Hwf Hpruned fuel 0) as (m & Hrun & Hall);
    [done|lia|].
  pose proof (check_matching_matches _ _ _ _ _ _ _ Hrun) as Hm.
  destruct (cross_tree_spec fuel self self _ m Hwf Hfuel Hrun)
    as (self' & Hcross & Hmem).
  exists self'. split; [done|].
  destruct (binary_operation_result _ _ _ _ _ _ Hwf Hcross)
    as ([keep Hshape] & _).
  assert (∀ p, reachable self p → children_of self' p = children_of self p)
    as Hlists.
  { intros p Hp. rewrite (same_shape_children_of _ _ p Hshape).
    rewrite prune_children_children_of. apply filter_all, Forall_forall.
    intros c Hc.
    assert (c ∈ children_of self' p) as Hc'.
    { apply Hmem. split; [done|].
      assert (descendant self 0 c) as Hd.
      { unfold children_of in Hc. destruct (self !! p) as [n|] eqn:Hn.
        - by eapply descendant_child.
        - by apply elem_of_nil in Hc. }
      apply Hall in Hd as Hin.
      apply list_elem_of_fmap in Hin as ([c' sc] & Heq & Hin).
      simpl in Heq. subst c'. exists sc. split; [done|].
      rewrite (proj1 (matches_full self Hwf) 0 _ m Hm eq_refl c sc Hin).
      by eapply Hpruned. }
    rewrite (same_shape_children_of _ _ p Hshape) in Hc'.
    rewrite prune_children_children_of in Hc'.
    by apply list_elem_of_filter in Hc' as [? _]. }
  split; [done|]. intros i. split.
  - apply descendant_mono. intros p c Hc. by apply Hmem in Hc as [? _].
  - induction 1 as [|p n c Hp IH Hn Hc]; [constructor|].
    assert (c ∈ children_of self' p) as Hc'.
    { rewrite Hlists by done. by erewrite children_of_lookup. }
    unfold children_of in Hc'. destruct (self' !! p) as [n'|] eqn:Hn'.
    + by eapply descendant_child.
    + by apply elem_of_nil in Hc'.
Qed.

Lemma cross_self_keeps_all_witness :
  ∃ self', cross_tree 12 list_tree list_tree = Ok self'
           ∧ (∀ p, reachable list_tree p →
                   children_of self' p = children_of list_tree p)
           ∧ (∀ i, reachable self' i ↔ reachable list_tree i).
Proof.
  apply (cross_self_keeps_all 12 list_tree);
    [vm_compute; reflexivity|vm_compute; reflexivity|vm_compute; lia].
Defined.

(** ** Tags and class names of an element *)

Lemma lower_ascii_idemp (c : ascii) : lower_ascii (lower_ascii c) = lower_ascii c.
Proof. by destruct c as [[] [] [] [] [] [] [] []]. Qed.

Lemma lower_idemp (s : string) : lower (lower s) = lower s.
Proof.
  induction s as [|c s IH]; [done|]. simpl. by rewrite lower_ascii_idemp, IH.
Qed.

Lemma lower_after_first (c : ascii) (s rest : string) :
  lower s = s → after_first c s = Some rest → lower rest = rest.
Proof.
  induction s as [|d s IH]; intros Hs Hrest; [done|].
  simpl in Hs, Hrest. injection Hs as _ Hs.
  destruct (Ascii.eqb d c); [by simplify_eq|by apply IH].
Qed.

Lemma lower_from_find_plus_one (c : ascii) (s : string) :
  lower s = s → lower (from_find_plus_one c s) = from_find_plus_one c s.
Proof.
  intros Hs. unfold from_find_plus_one.
  destruct (after_first c s) as [rest|] eqn:Hrest; simpl; [|done].
  by eapply lower_after_first.
Qed.

(** A tag name after the namespace has been taken off. *)
Lemma strip_namespace_normal (tag : string) :
  tag ≠ EmptyString → lower tag = tag →
  match tag with
  | String "{" _ =>
    let rest := from_find_plus_one "}" tag in
    if truthy rest then rest else tag
  | _ => tag
  end ≠ EmptyString
  ∧ lower match tag with
          | String "{" _ =>
            let rest := from_find_plus_one "}" tag in
            if truthy rest then rest else tag
          | _ => tag
          end
    = match tag with
      | String "{" _ =>
        let rest := from_find_plus_one "}" tag in
        if truthy rest then rest else tag
      | _ => tag
      end.
Proof.
  intros Hne Hlow.
  assert (∀ r : string,
            (if truthy r then r else tag) ≠ EmptyString) as Hpick.
  { intros r. destruct r; simpl; done. }
  pose proof (lower_from_find_plus_one "}" tag Hlow) as Hrest.
  destruct tag as [|c tag']; [done|].
  destruct (decide (c = "{"%char)) as [->|Hc].
  - cbv zeta. split; [apply Hpick|].
    destruct (truthy (from_find_plus_one "}" (String "{" tag'))); done.
  - assert (match String c tag' with
            | String "{" _ =>
              let rest := from_find_plus_one "}" (String c tag') in
              if truthy rest then rest else String c tag'
            | _ => String c tag'
            end = String c tag') as ->.
    { destruct c as [[] [] [] [] [] [] [] []]; done. }
    done.
Qed.

(** X21. The tag name read from an element is never empty and holds no
    upper-case letter, and it does not depend on the case of the element's
    tag: tags are compared without regard to case, a namespace in braces is
    taken off, and an element whose tag is not a string or is empty gets the
    name [none]. *)
Theorem get_tag_name_normal (tag : option string)
    (attrib : list (string * string)) (text tail : option string)
    (children : list lxml) :
  get_tag_name (Element tag attrib text tail children) ≠ EmptyString
  ∧ lower (get_tag_name (Element tag attrib text tail children))
    = get_tag_name (Element tag attrib text tail children)
  ∧ get_tag_name (Element (lower <$> tag) attrib text tail children)
    = get_tag_name (Element tag attrib text tail children)
  ∧ (tag = None ∨ tag = Some EmptyString →
     get_tag_name (Element tag attrib text tail children) = "none").
Proof.
  unfold get_tag_name. simpl.
  set (name := match tag with
               | Some t => if truthy (lower t) then lower t else "none"
               | None => "none"
               end).
  assert (name ≠ EmptyString ∧ lower name = name) as [Hne Hlow].
  { unfold name. destruct tag as [t|]; [|done].
    destruct (truthy (lower t)) eqn:Ht; [|done].
    split; [by apply truthy_spec|apply lower_idemp]. }
  destruct (strip_namespace_normal name Hne Hlow) as [H1 H2].
  split; [done|]. split; [done|]. split.
  - destruct tag as [t|]; [|done]. simpl. by rewrite lower_idemp.
  - intros [->| ->]; done.
Qed.

Lemma lstrip_chars (c : ascii) (s : string) :
  c ∈ list_ascii_of_string (lstrip s) → c ∈ list_ascii_of_string s.
Proof.
  induction s as [|d s IH]; [done|]. simpl.
  destruct (is_space d); [|done]. intros Hc. right. by apply IH.
Qed.

Lemma rstrip_chars (c : ascii) (s : string) :
  c ∈ list_ascii_of_string (rstrip s) → c ∈ list_ascii_of_string s.
Proof.
  induction s as [|d s IH]; [done|]. simpl.
  destruct (is_space d && negb (truthy (rstrip s))).
  - intros Hc. by apply elem_of_nil in Hc.
  - simpl. intros [->|Hc]%elem_of_cons; [by left|right; by apply IH].
Qed.

Lemma strip_chars (c : ascii) (s : string) :
  c ∈ list_ascii_of_string (strip s) → c ∈ list_ascii_of_string s.
Proof. unfold strip. intros Hc. by apply lstrip_chars, rstrip_chars. Qed.

(** The pieces of a split hold no separator. *)
Lemma split_on_chars (sep : ascii) (s w : string) :
  w ∈ split_on sep s → sep ∉ list_ascii_of_string w.
Proof.
  revert w. induction s as [|c s IH]; intros w Hw; simpl in Hw.
  - apply list_elem_of_singleton in Hw as ->. apply not_elem_of_nil.
  - destruct (Ascii.eqb_spec c sep) as [->|Hc].
    + apply elem_of_cons in Hw as [->|Hw]; [apply not_elem_of_nil|by apply IH].
    + destruct (split_on sep s) as [|w0 ws] eqn:Hs.
      * apply list_elem_of_singleton in Hw as ->. simpl.
        intros [->|H]%elem_of_cons; [done|by apply elem_of_nil in H].
      * apply elem_of_cons in Hw as [->|Hw].
        -- simpl. intros [->|H]%elem_of_cons; [done|].
           apply (IH w0); [by left|done].
        -- apply IH. by right.
Qed.


(** ** The zone objects of a build *)

Lemma zone_kind_default : zone_kind inhabitant.
Proof. split; [by vm_compute|]. split; [by vm_compute|]. done. Qed.

Lemma zone_kind_lookup_total (sto : ZoneStore) (z : zref) :
  Forall zone_kind sto → zone_kind (sto !!! z).
Proof.
  intros Hsto. destruct (sto !! z) as [zone|] eqn:Hz.
  - rewrite (list_lookup_total_correct _ _ _ Hz).
    rewrite Forall_forall in Hsto. apply Hsto.
    by eapply list_elem_of_lookup_2.
  - rewrite list_lookup_total_alt, Hz. apply zone_kind_default.
Qed.

Lemma zone_kind_insert (sto : ZoneStore) (z : zref) (zone : MarkZone.t) :
  Forall zone_kind sto → zone_kind zone → Forall zone_kind (<[z := zone]> sto).
Proof.
  intros Hsto Hzone. apply Forall_forall. intros x Hx.
  apply list_elem_of_lookup in Hx as [i Hi].
  destruct (decide (i = z)) as [->|Hne].
  - destruct (decide (z < length sto)) as [Hlt|Hge].
    + rewrite list_lookup_insert_eq in Hi by done. by simplify_eq.
    + rewrite list_insert_ge in Hi by lia.
      rewrite Forall_forall in Hsto. apply Hsto.
      by eapply list_elem_of_lookup_2.
  - rewrite list_lookup_insert_ne in Hi by done.
    rewrite Forall_forall in Hsto. apply Hsto.
    by eapply list_elem_of_lookup_2.
Qed.

Lemma split_zone_kinds (tl : Z) (st : ZoneStore * list zref * list zref)
    (zone : zref) :
  Forall zone_kind st.1.1 → Forall zone_kind (split_zone tl st zone).1.1.
Proof.
  destruct st as [[sto fn] ff]. simpl. intros Hsto. unfold alloc.
  destruct (MarkZone.length (sto !!! zone) =? -1)%Z.
  - set (sto1 := sto ++ [sto !!! zone]).
    assert (Forall zone_kind sto1) as H1.
    { apply Forall_app. split; [done|]. constructor; [|constructor].
      by apply zone_kind_lookup_total. }
    set (sto2 := <[length sto := _]> sto1).
    assert (Forall zone_kind sto2) as H2.
    { apply zone_kind_insert; [done|].
      by apply (zone_kind_lookup_total sto1 (length sto)) in H1. }
    set (sto3 := <[zone := _]> sto2).
    assert (Forall zone_kind sto3) as H3.
    { apply zone_kind_insert; [done|].
      by apply (zone_kind_lookup_total sto2 zone) in H2. }
    by destruct (negb _).
  - by destruct (negb _).
Qed.

Lemma split_mark_zones_kinds (sto : ZoneStore) (zones : list zref) (tl : Z) :
  Forall zone_kind sto →
  Forall zone_kind (split_mark_zones sto zones tl).1.1.
Proof.
  unfold split_mark_zones.
  change sto with (sto, @nil zref, @nil zref).1.1 at 1.
  generalize (sto, @nil zref, @nil zref).
  induction zones as [|z zones IH]; intros st Hst; [done|].
  cbn [foldl]. apply IH. by apply split_zone_kinds.
Qed.

Lemma flush_zone_kinds (b b' : Builder) (p : nat) (text : string)
    (zones ff : list zref) (tl : Z) :
  flush b p text zones tl = Ok (b', ff) →
  Forall zone_kind (store b) → Forall zone_kind (store b').
Proof.
  unfold flush. intros Hrun Hb.
  pose proof (split_mark_zones_kinds (store b) zones tl Hb) as Hsplit.
  destruct (split_mark_zones (store b) zones tl) as [[sto fn] ff'].
  inv_ok Hrun. destruct x as [self k]. by inv_ok Hrun.
Qed.

Lemma flush_pending_zone_kinds (is_block to_skip : bool) (p : nat)
    (st st' : Pending) :
  flush_pending is_block to_skip p st = Ok st' →
  zone_kinds st → zone_kinds st'.
Proof.
  destruct st as [[b text] zones]. unfold zone_kinds. simpl. intros Hrun Hb.
  destruct (truthy text && (is_block || to_skip)).
  - inv_ok Hrun. destruct x as [b' ff]. inv_ok Hrun. simpl.
    by eapply flush_zone_kinds.
  - by inv_ok Hrun.
Qed.

Lemma close_zone_kinds (zs : list zref) (text : string)
    (st : ZoneStore * Z) (i : nat) (c : control (ZoneStore * Z)) :
  close_zone zs text st i = Ok c →
  Forall zone_kind st.1 → Forall zone_kind (control_state c).1.
Proof.
  destruct st as [sto add_len]. unfold close_zone. intros Hrun Hsto.
  inv_ok Hrun. simpl in Hsto.
  destruct (MarkZone.length (sto !!! x) =? -1)%Z; [|by inv_ok Hrun].
  assert (Forall zone_kind
            (<[x := MarkZone.set_length
                      (len text - MarkZone.start (sto !!! x)) (sto !!! x)]>
               sto)) as Hnew.
  { apply zone_kind_insert; [done|].
    by apply (zone_kind_lookup_total sto x) in Hsto. }
  destruct (_ =? 0)%Z; by inv_ok Hrun.
Qed.

Section RecursionZoneKinds.
Variables (translate : Translate) (children : list lxml).

Hypothesis translate_zone_kinds :
  ∀ p b t z st', translate children p b t z = Ok st' →
    zone_kinds (b, t, z) → zone_kinds st'.

Lemma translate_block_zone_kinds (tag : string) (child_classes : list string)
    (text : string) (p : nat) (st : Pending) (c : control Pending) :
  translate_block translate tag child_classes text children p st = Ok c →
  zone_kinds st → zone_kinds (control_state c).
Proof.
  destruct st as [[b text_before] zones]. unfold zone_kinds.
  intros Hrun Hb. simpl in *.
  inv_ok Hrun. destruct x as [self node_index].
  inv_ok Hrun. destruct x as [[b2 text_left] zones2].
  pose proof (translate_zone_kinds _ _ _ _ _ Hx0 Hb) as Hb2.
  unfold zone_kinds in Hb2. simpl in Hb2.
  destruct (truthy text_left).
  - inv_ok Hrun. destruct x as [b3 ff]. inv_ok Hrun. simpl.
    by eapply flush_zone_kinds.
  - by inv_ok Hrun.
Qed.

Lemma translate_inline_zone_kinds (lxml_node : lxml) (tag : string)
    (child_classes : list string) (text : string) (p : nat) (st : Pending)
    (c : control Pending) :
  translate_inline translate tag child_classes (get_link_url lxml_node tag)
                   text children p st = Ok c →
  tag ∉ BLOCK_TAGS → tag ∉ TAGS_TO_SKIP →
  zone_kinds st → zone_kinds (control_state c).
Proof.
  destruct st as [[b text_before] zones]. unfold zone_kinds.
  intros Hrun Hblock Hskip Hb. unfold translate_inline, alloc in Hrun.
  simpl in *. inv_ok Hrun. destruct x as [[b2 text2] zs]. inv_ok Hrun.
  destruct x as [sto1 add_len].
  assert (Forall zone_kind (store b2)) as Hb2.
  { apply (translate_zone_kinds _ _ _ _ _ Hx). unfold zone_kinds. simpl.
    apply Forall_app. split; [done|]. constructor; [|constructor].
    split; [done|]. split; [done|]. simpl. unfold get_link_url.
    case_bool_decide; simpl; done. }
  assert (Forall zone_kind sto1) as H1.
  { change sto1 with (sto1, add_len).1.
    eapply (for_break_inv (λ s : ZoneStore * Z, Forall zone_kind s.1));
      [| |exact Hx0]; [|exact Hb2].
    intros s i c' _ Hs Hstep. by eapply close_zone_kinds. }
  destruct (negb (add_len =? 0)%Z); by inv_ok Hrun.
Qed.
End RecursionZoneKinds.

Lemma translate_tree_zone_kinds (children : list lxml) :
  Forall (λ node, ∀ p st c, translate_node p st node = Ok c → zone_kinds st →
                            zone_kinds (control_state c))
         children →
  ∀ p b t z st', translate_tree children p b t z = Ok st' →
    zone_kinds (b, t, z) → zone_kinds st'.
Proof.
  unfold translate_tree. intros Hall p b t z st' Hrun Hinv.
  eapply (for_break_inv zone_kinds); [|exact Hinv|exact Hrun].
  intros s x c Hx Hs Hstep. rewrite Forall_forall in Hall.
  by eapply Hall.
Qed.

Lemma translate_node_zone_kinds (node : lxml) :
  ∀ p st c, translate_node p st node = Ok c → zone_kinds st →
            zone_kinds (control_state c).
Proof.
  induction node as [tag attrib text tail children IH] using lxml_children_ind.
  intros p st c Hrun Hinv. rewrite translate_node_unfold in Hrun.
  set (node := Element tag attrib text tail children) in *.
  cbv zeta in Hrun. inv_ok Hrun. rename x into st1, x0 into step.
  pose proof (flush_pending_zone_kinds _ _ _ _ _ Hx Hinv) as Hinv1.
  pose proof (translate_tree_zone_kinds children IH) as Hrec.
  assert (zone_kinds (control_state step)) as Hstep.
  { destruct (bool_decide (get_tag_name node ∈ BLOCK_TAGS)) eqn:Hblock;
      destruct (bool_decide (get_tag_name node ∈ TAGS_TO_SKIP)) eqn:Hskip;
      simpl in Hx0.
    - by inv_ok Hx0.
    - eapply translate_block_zone_kinds; [exact Hrec|exact Hx0|done].
    - by inv_ok Hx0.
    - eapply translate_inline_zone_kinds; [exact Hrec|exact Hx0| | |done].
      + by apply bool_decide_eq_false in Hblock.
      + by apply bool_decide_eq_false in Hskip. }
  by destruct step as [[[b1 t1] z1]|[[b1 t1] z1]].
Qed.



(** ** The text left at the end of a block *)

Lemma append_child_last (self self' : Tree) (p k : nat) (child : Node.t) :
  append_child self p child = Ok (self', k) →
  ∃ n, last self' = Some n ∧ Node.text n = Node.text child
       ∧ Node.mark_zones n = Node.mark_zones child
       ∧ Node.parent_index n = Node.parent_index child.
Proof.
  unfold append_child. intros Hrun. inv_ok Hrun. rename x into parent.
  apply getitem_Ok in Hx. rewrite last_lookup.
  rewrite length_insert, length_app. simpl.
  replace (pred (length self + 1)) with (length self) by lia.
  destruct (decide (p = length self)) as [->|Hne].
  - rewrite list_lookup_middle in Hx by done. injection Hx as <-.
    rewrite list_lookup_insert_eq by (rewrite length_app; simpl; lia).
    by eexists.
  - rewrite list_lookup_insert_ne by done.
    rewrite list_lookup_middle by done. by eexists.
Qed.

(** The zones a split at 0 stores on the node were closed before. *)
Lemma split_mark_zones_zero (sto : ZoneStore) (zones : list zref) :
  NoDup zones → (∀ z, z ∈ zones → z < length sto) →
  (∀ z, z ∈ zones → is_open sto z = true → zstart sto z = 0%Z) →
  Forall (λ z, z ∈ zones ∧ is_open sto z = false)
         (split_mark_zones sto zones 0).1.2.
Proof.
  intros Hnd Hlt Hzero. unfold split_mark_zones.
  destruct (split_loop 0 zones sto [] [] Hnd Hlt) as
    (sto' & fn & ff & -> & _ & _ & Hclosed & Hfn & _).
  simpl. apply Forall_forall. intros z Hz. destruct (Hfn z Hz) as [Hin Hnz].
  split; [done|]. destruct (is_open sto z) eqn:Hopen; [|done].
  exfalso. apply Hnz. unfold zlength.
  rewrite (Hclosed z Hin Hopen), zlength_set_length.
  rewrite (Hzero z Hin Hopen). done.
Qed.


